(** * mlproject: datasets and training harness

    A shallow embedding of [src/mlproject/datasets.py] and
    [src/mlproject/models.py], with the properties of the design
    specification stated and settled over it.

    Numbers.  The tensors of [datasets.py] are [torch.float32]; they are
    modelled by IEEE-754 binary32 values, with the arithmetic of the
    Standard Library's [SpecFloat] at precision 24 and maximal exponent
    128 (round to nearest, ties to even, one NaN).  Python [float]s are
    binary64, i.e. the same operations at precision 53 and exponent 1024.

    Exceptions.  A Python call that may raise returns a [result]; code that
    also mutates objects runs in a state-and-exception monad in which the
    state survives a raise, as the heap of the interpreter does. *)

From Stdlib Require Import ZArith List Bool Lia.
From Stdlib Require Import Floats.SpecFloat.
From stdpp Require Import gmap strings list sorting fin_maps pretty.
From Stdlib Require Import Reals Lra.

(** * Part I: the embedding *)

(** ** Exceptions and results *)

(** The key of a dictionary lookup that failed.  Of the two [ValueError]s
    below, the first is the one of the lazy dataset, with the types that
    its mapping misses, and the second the one of a shuffling loader over
    a dataset without samples. *)
Inductive Key :=
| StrKey (s : string)
| IntKey (n : Z).

Inductive Exn :=
| AssertionError (msg : string)
| ValueError (missing_types : gset string)
| NoSamplesValueError
| RuntimeError
| TypeError
| IndexError
| KeyError (key : Key)
| ColumnNotFoundError (name : string)
| ZeroDivisionError.

Inductive result (A : Type) :=
| Ok (a : A)
| Raise (e : Exn).
Arguments Ok {A} a.
Arguments Raise {A} e.

#[global] Instance result_ret : MRet result := λ A, Ok.
#[global] Instance result_bind : MBind result :=
  λ A B f m, match m with Ok a => f a | Raise e => Raise e end.
#[global] Instance result_fmap : FMap result :=
  λ A B f m, match m with Ok a => Ok (f a) | Raise e => Raise e end.

Definition is_Ok {A} (r : result A) : bool :=
  match r with Ok _ => true | Raise _ => false end.

(** A [for] loop whose body may raise: the first exception ends it. *)
Fixpoint for_each {A S} (body : S → A → result S) (s : S) (l : list A)
  : result S :=
  match l with
  | [] => Ok s
  | a :: l' => s' ← body s a; for_each body s' l'
  end.

(** ** IEEE-754 binary32: the element type of a [torch.float32] tensor *)

Module F32.

Definition prec : Z := 24.
Definition emax : Z := 128.

Definition sub : spec_float → spec_float → spec_float := SFsub prec emax.
Definition mul : spec_float → spec_float → spec_float := SFmul prec emax.
Definition div : spec_float → spec_float → spec_float := SFdiv prec emax.

Definition valid (x : spec_float) : bool := valid_binary prec emax x.

Definition of_Z (z : Z) : spec_float := binary_normalize prec emax z 0 false.

(** Rounding of a binary64 value (a Python [float]) to binary32. *)
Definition of_float (x : spec_float) : spec_float :=
  match x with
  | S754_finite s m e => binary_round prec emax s m e
  | _ => x
  end.

Definition zero : spec_float := S754_zero false.
Definition one : spec_float := Eval cbv in of_Z 1.
Definition c255 : spec_float := Eval cbv in of_Z 255.
(** The largest finite binary32 value, about 3.4028235e38. *)
Definition max_float : spec_float := Eval cbv in SFmax_float prec emax.

Definition is_nan (x : spec_float) : bool :=
  match x with S754_nan => true | _ => false end.

Definition is_finite (x : spec_float) : bool :=
  match x with S754_zero _ | S754_finite _ _ _ => true | _ => false end.

(** [x <= y], [x < y] and [x == y] as IEEE comparisons: false as soon as an
    operand is NaN, and the two zeros compare equal. *)
Definition leb : spec_float → spec_float → bool := SFleb.
Definition ltb : spec_float → spec_float → bool := SFltb.
Definition eqb : spec_float → spec_float → bool := SFeqb.

(** The binary reductions behind [Tensor.min()] and [Tensor.max()]:
    a NaN operand wins, otherwise the smaller (larger) one.  Of two
    operands that compare equal, as the two zeros do, the first is kept
    here; which one torch keeps depends on its kernel, so the sign of a
    zero result is not to be relied on. *)
Definition min2 (x y : spec_float) : spec_float :=
  if is_nan x then x else if is_nan y then y else if ltb y x then y else x.
Definition max2 (x y : spec_float) : spec_float :=
  if is_nan x then x else if is_nan y then y else if ltb x y then y else x.

End F32.

(** ** IEEE-754 binary64: a Python [float] *)

Module F64.

Definition prec : Z := 53.
Definition emax : Z := 1024.

Definition add : spec_float → spec_float → spec_float := SFadd prec emax.
Definition div : spec_float → spec_float → spec_float := SFdiv prec emax.
Definition of_Z (z : Z) : spec_float := binary_normalize prec emax z 0 false.
Definition zero : spec_float := S754_zero false.

End F64.

(** ** Image projection ([datasets.py], [get_embedding_as_image_tensor]) *)

(** A one-dimensional tensor is the list of its elements, a matrix the list
    of its rows.  The leading channel dimension of size 1 added by the last
    [view] carries no data and is left out. *)
Abbreviation Tensor1 := (list spec_float).
Abbreviation Tensor2 := (list (list spec_float)).

(** [Tensor.min()] and [Tensor.max()]; both raise on an empty tensor. *)
Definition tensor_min (t : Tensor1) : result spec_float :=
  match t with
  | [] => Raise RuntimeError
  | x :: t' => Ok (foldl F32.min2 x t')
  end.

Definition tensor_max (t : Tensor1) : result spec_float :=
  match t with
  | [] => Raise RuntimeError
  | x :: t' => Ok (foldl F32.max2 x t')
  end.

(** [(embedding - min) / (max - min)], elementwise with broadcasting. *)
Definition min_max_normalize (e : Tensor1) (lo hi : spec_float) : Tensor1 :=
  (λ x, F32.div (F32.sub x lo) (F32.sub hi lo)) <$> e.

(** [embedding.T @ embedding] for a row vector of shape (1, V): entry
    (i, j) is the single product [e_i * e_j]. *)
Definition outer (e : Tensor1) : Tensor2 :=
  (λ x, (λ y, F32.mul x y) <$> e) <$> e.

Definition get_embedding_as_image_tensor (embedding : Tensor1)
  : result Tensor2 :=
  lo ← tensor_min embedding;
  hi ← tensor_max embedding;
  let embedding := min_max_normalize embedding lo hi in
  let cross_mult := outer embedding in
  let cross_mult : Tensor2 :=
    (λ r : Tensor1, (λ x, F32.mul x F32.c255) <$> r) <$> cross_mult in
  Ok cross_mult.

(** The [i, j] entry of a matrix. *)
Definition entry (m : Tensor2) (i j : nat) : option spec_float :=
  row ← m !! i; row !! j.

(** [0 <= x <= 255] *)
Definition in_0_255 (x : spec_float) : bool :=
  F32.leb F32.zero x && F32.leb x F32.c255.

(** [DEFAULT_IMAGE_SHAPE] *)
Definition DEFAULT_IMAGE_SHAPE : nat * nat := (100, 100).

(** [resize_transform = transforms.Resize(DEFAULT_IMAGE_SHAPE)] is
    torchvision's; it is a function of the image. *)
Class ResizeTransform := resize_transform : Tensor2 → Tensor2.

(** ** Raw records and the class mapping *)

(** The frame held by [RawHumanChatBotData]: one row per labeled record,
    of which the datasets read the columns [type] and [text]. *)
Record LabeledRecord := {
  r_type : string;
  r_text : string;
}.

(** The text-embedding capability, [ArticleEmbedder.embed]. *)
Class ArticleEmbedder := embed : string → Tensor1.

(** [{x: i for i, x in enumerate(l)}]: later entries overwrite earlier
    ones. *)
Definition enumerate_dict `{Countable K} (l : list K) : gmap K nat :=
  foldl (λ m p, <[p.2 := p.1]> m) ∅ (zip (seq 0 (length l)) l).

(** [Series.unique().to_list()] followed by [list.sort()].  The order in
    which [unique] lists the distinct values is of no consequence once they
    are sorted. *)
Definition sorted_unique `{EqDecision K} (R : relation K)
    `{!RelDecision R} (l : list K) : list K :=
  merge_sort R (remove_dups l).

(** Python's order on [str]: lexicographic on code points, which on UTF-8
    encoded strings is the lexicographic order on bytes. *)
Definition string_le (s1 s2 : string) : Prop := String.leb s1 s2 = true.
#[global] Instance string_le_dec : RelDecision string_le.
Proof. intros s1 s2. unfold string_le. apply _. Defined.

Definition string_lt : relation string := strict string_le.

(** [HumanChatBotDataset.find_classnum_mapping] *)
Definition find_classnum_mapping (data : list LabeledRecord)
  : gmap string nat :=
  let article_types := sorted_unique string_le (r_type <$> data) in
  enumerate_dict article_types.

(** ** Data frames *)

(** A polars column: a typed sequence of integers, of floating-point
    numbers (Float32 or Float64, held as the numbers they are) or of
    strings.  Null values are not modelled. *)
Inductive Series :=
| Int64 (l : list Z)
| Float (l : list spec_float)
| Utf8 (l : list string).

(** One value of a row, as Python sees it. *)
Inductive Cell :=
| CInt (z : Z)
| CFloat (x : spec_float)
| CStr (s : string).

Definition series_len (s : Series) : nat :=
  match s with
  | Int64 l => length l
  | Float l => length l
  | Utf8 l => length l
  end.

Definition series_get (s : Series) (i : nat) : option Cell :=
  match s with
  | Int64 l => CInt <$> l !! i
  | Float l => CFloat <$> l !! i
  | Utf8 l => CStr <$> l !! i
  end.

(** A frame is the list of its named columns, in column order. *)
Abbreviation DataFrame := (list (string * Series)).

Definition columns (df : DataFrame) : list string := df.*1.

(** [len(df)] *)
Definition height (df : DataFrame) : nat :=
  match df with
  | [] => 0
  | c :: _ => series_len c.2
  end.

(** [df[name]] *)
Definition get_column (df : DataFrame) (name : string) : option Series :=
  snd <$> find (λ c, bool_decide (c.1 = name)) df.

(** [df.drop_in_place(name)] *)
Definition drop_in_place (name : string) (df : DataFrame) : DataFrame :=
  filter (λ c, c.1 ≠ name) df.

(** [df.with_columns(pl.col(name).replace(mappings))] on an integer
    column: a value with an entry in the mapping is replaced, any other is
    kept. *)
Definition replace (mappings : gmap Z nat) (s : Series) : Series :=
  match s with
  | Int64 l => Int64 ((λ k, from_option Z.of_nat k (mappings !! k)) <$> l)
  | _ => s
  end.

Definition with_columns_replace (name : string) (mappings : gmap Z nat)
    (df : DataFrame) : DataFrame :=
  (λ c, if bool_decide (c.1 = name) then (c.1, replace mappings c.2) else c)
    <$> df.

(** A Python [int] as a position among [n] rows: a negative index counts
    from the end, and there is no position below [-n]. *)
Definition position (n : nat) (idx : Z) : option nat :=
  if bool_decide (0 ≤ idx)%Z then Some (Z.to_nat idx)
  else if bool_decide (- Z.of_nat n ≤ idx)%Z
       then Some (Z.to_nat (Z.of_nat n + idx))
       else None.

(** [df.row(idx)]: the values of row [idx], one per column. *)
Definition row (df : DataFrame) (idx : nat) : result (list Cell) :=
  if bool_decide (idx < height df) then
    match mapM (λ c, series_get c.2 idx) df with
    | Some r => Ok r
    | None => Raise IndexError
    end
  else Raise IndexError.

(** [torch.tensor(values, dtype=torch.float32)]: a Python [int] among
    the values goes through a [float] on its way to [float32]. *)
Definition cell_to_float32 (c : Cell) : result spec_float :=
  match c with
  | CInt z => Ok (F32.of_float (F64.of_Z z))
  | CFloat x => Ok (F32.of_float x)
  | CStr _ => Raise TypeError
  end.

Fixpoint tensor_float32 (values : list Cell) : result Tensor1 :=
  match values with
  | [] => Ok []
  | c :: values' =>
      x ← cell_to_float32 c; t ← tensor_float32 values'; Ok (x :: t)
  end.

(** ** The tabular sample store ([HumanChatBotDataset]) *)

Module HumanChatBotDataset.

Record t := {
  data : DataFrame;
  n_non_feature_columns : nat;
  number_of_classes : nat;
}.

(** [any(k != v for k, v in mappings.items())] *)
Definition should_apply_mappings (mappings : gmap Z nat) : bool :=
  existsb (λ kv, negb (kv.1 =? Z.of_nat kv.2)%Z) (map_to_list mappings).

(** The constructor: [__post_init__] runs on the frame it is given.  The
    [label] column of a store holds integers ([label: optional int] in the
    data model), and this is the case that is modelled.  The code itself
    does not check the type of the column: it takes a column of floats or
    of strings too, and relabels it within its own type.  Such a frame is
    outside this model; [TypeError] marks that boundary here and is not an
    exception of the code: a store that this constructor returns is a
    store over an integer [label] column. *)
Definition __post_init__ (data : DataFrame) : result t :=
  if bool_decide ("label" ∈ columns data) then
    match get_column data "label" with
    | Some (Int64 labels) =>
        let present_labels := sorted_unique Z.le labels in
        let mappings := enumerate_dict present_labels in
        let data :=
          if should_apply_mappings mappings
          then with_columns_replace "label" mappings data
          else data in
        let data :=
          if bool_decide ("type" ∈ columns data)
          then drop_in_place "type" data
          else data in
        Ok {| data := data;
              n_non_feature_columns := 1;
              number_of_classes := length present_labels |}
    | _ => Raise TypeError
    end
  else Raise (AssertionError "Missing label column").

(** [embedding_size] *)
Definition embedding_size (self : t) : nat :=
  length (columns (data self)) - n_non_feature_columns self.

(** [__len__] *)
Definition __len__ (self : t) : nat := height (data self).

(** [__getitem__] at an index that is not negative.  The label is read
    from an integer column, which is what the column is in every store
    that the constructor above returns. *)
Definition __getitem__ (self : t) (idx : nat) : result (Tensor1 * Z) :=
  r ← row (data self) idx;
  let tensor_values := drop (n_non_feature_columns self) r in
  embedding ← tensor_float32 tensor_values;
  match get_column (data self) "label" with
  | Some (Int64 labels) =>
      match labels !! idx with
      | Some label => Ok (embedding, label)
      | None => Raise IndexError
      end
  | Some _ => Raise TypeError
  | None => Raise (ColumnNotFoundError "label")
  end.

(** [__getitem__] at any Python [int]: [df.row(idx)] and [df[idx]] count
    a negative index from the end of the frame, and refuse one below
    minus its height. *)
Definition getitem_int (self : t) (idx : Z) : result (Tensor1 * Z) :=
  match position (height (data self)) idx with
  | Some i => __getitem__ self i
  | None => Raise IndexError
  end.

(** [torch.stack(all_tensors)]: the tensors must be of one length, and
    there must be at least one. *)
Definition stack (ts : list Tensor1) : result Tensor2 :=
  match ts with
  | [] => Raise RuntimeError
  | t0 :: _ =>
      if forallb (λ t, length t =? length t0) ts then Ok ts
      else Raise RuntimeError
  end.

(** [tensors_in_stack[:, i]] *)
Definition column_of (m : Tensor2) (i : nat) : Tensor1 :=
  omap (λ r, r !! i) m.

(** [from_raw_data] *)
Definition from_raw_data `{!ArticleEmbedder} (raw_data : list LabeledRecord)
  : result t :=
  let article_type_to_classnum := find_classnum_mapping raw_data in
  lab ← for_each (λ acc r,
           match article_type_to_classnum !! r_type r with
           | Some label => Ok (acc ++ [Z.of_nat label])
           | None => Raise (KeyError (StrKey (r_type r)))
           end) [] raw_data;
  let all_tensors := (λ r, embed (r_text r)) <$> raw_data in
  let all_types := r_type <$> raw_data in
  tensors_in_stack ← stack all_tensors;
  let nfeatures := from_option length 0 (head tensors_in_stack) in
  let schema := (λ i, "f" +:+ pretty i) <$> seq 0 nfeatures in
  let data :=
    ("type", Utf8 all_types) :: ("label", Int64 lab) ::
    ((λ i, (default "" (schema !! i),
            Float (column_of tensors_in_stack i))) <$> seq 0 nfeatures) in
  __post_init__ data.

(** [get_samples_as_X]: [select(pl.col("*").exclude(["label"]))], every
    column but [label], in column order. *)
Definition get_samples_as_X (self : t) : DataFrame :=
  filter (λ c, c.1 ≠ "label") (data self).

(** [get_sample_labels]: [select("label").to_numpy().ravel()], the values
    of the [label] column. *)
Definition get_sample_labels (self : t) : result Series :=
  match get_column (data self) "label" with
  | Some labels => Ok labels
  | None => Raise (ColumnNotFoundError "label")
  end.

(** [from_train_test_raw_data]: one store per split, each built on its
    own. *)
Definition from_train_test_raw_data `{!ArticleEmbedder}
    (train_data test_data : list LabeledRecord) : result (t * t) :=
  train ← from_raw_data train_data;
  test ← from_raw_data test_data;
  Ok (train, test).

End HumanChatBotDataset.

(** ** Persistence of a store ([save], [load]) *)

(** [DataFrame.write_csv] and [pl.read_csv] are polars': a file system on
    which a frame can be written under a path and read back. *)
Class CsvFiles (Disk : Type) := {
  write_csv : DataFrame → string → Disk → Disk;
  read_csv : string → Disk → result DataFrame;
}.



(** ** The projection-backed image dataset
       ([ImageByCrossMultiplicationDataset]) *)

Module ImageByCrossMultiplicationDataset.

Record t := {
  human_chatbot_ds : HumanChatBotDataset.t;
  resize : bool;
  precompute : bool;
  cache : gmap nat Tensor2;
  _image_height : nat;
  _image_width : nat;
}.

(** The image of one sample: the projection, resized when asked for. *)
Definition project `{!ResizeTransform} (resize : bool) (embedding : Tensor1)
  : result Tensor2 :=
  image ← get_embedding_as_image_tensor embedding;
  Ok (if resize then resize_transform image else image).

(** The body of the precomputation loop: [self.cache[i] = image]. *)
Definition precompute_step `{!ResizeTransform}
    (ds : HumanChatBotDataset.t) (resize : bool)
    (cache : gmap nat Tensor2) (i : nat) : result (gmap nat Tensor2) :=
  '(embedding, label) ← HumanChatBotDataset.__getitem__ ds i;
  image ← project resize embedding;
  Ok (<[i := image]> cache).

(** The constructor: the generated [__init__] sets the fields, with an
    empty [cache], and [__post_init__] runs. *)
Definition __post_init__ `{!ResizeTransform}
    (human_chatbot_ds : HumanChatBotDataset.t) (resize precompute : bool)
  : result t :=
  let '(h, w) :=
    if resize then DEFAULT_IMAGE_SHAPE
    else (HumanChatBotDataset.embedding_size human_chatbot_ds,
          HumanChatBotDataset.embedding_size human_chatbot_ds) in
  cache ←
    (if precompute then
       for_each (precompute_step human_chatbot_ds resize) ∅
         (seq 0 (HumanChatBotDataset.__len__ human_chatbot_ds))
     else Ok ∅);
  Ok {| human_chatbot_ds := human_chatbot_ds;
        resize := resize;
        precompute := precompute;
        cache := cache;
        _image_height := h;
        _image_width := w |}.

(** [__len__] *)
Definition __len__ (self : t) : nat :=
  HumanChatBotDataset.__len__ (human_chatbot_ds self).

(** [__getitem__] at an index that is not negative: [if self.cache] is
    the truth value of the dictionary, false exactly when it is empty. *)
Definition __getitem__ `{!ResizeTransform} (self : t) (idx : nat)
  : result (Tensor2 * Z) :=
  '(embedding, label) ← HumanChatBotDataset.__getitem__
                           (human_chatbot_ds self) idx;
  if bool_decide (cache self ≠ ∅) then
    match cache self !! idx with
    | Some image => Ok (image, label)
    | None => Raise (KeyError (IntKey (Z.of_nat idx)))
    end
  else
    image ← project (resize self) embedding;
    Ok (image, label).

(** [self.cache[idx]] at any Python [int]: the keys of the cache are the
    positions the constructor wrote, none of them negative, and the
    dictionary does not count a negative key from the end. *)
Definition cache_get (cache : gmap nat Tensor2) (idx : Z) : option Tensor2 :=
  if bool_decide (0 ≤ idx)%Z then cache !! Z.to_nat idx else None.

(** [__getitem__] at any Python [int]: the store serves a negative index
    from the end, the cache does not. *)
Definition getitem_int `{!ResizeTransform} (self : t) (idx : Z)
  : result (Tensor2 * Z) :=
  '(embedding, label) ← HumanChatBotDataset.getitem_int
                           (human_chatbot_ds self) idx;
  if bool_decide (cache self ≠ ∅) then
    match cache_get (cache self) idx with
    | Some image => Ok (image, label)
    | None => Raise (KeyError (IntKey idx))
    end
  else
    image ← project (resize self) embedding;
    Ok (image, label).

(** The properties [image_height], [image_width] and
    [number_of_classes]. *)
Definition image_height (self : t) : nat := _image_height self.
Definition image_width (self : t) : nat := _image_width self.
Definition number_of_classes (self : t) : nat :=
  HumanChatBotDataset.number_of_classes (human_chatbot_ds self).

End ImageByCrossMultiplicationDataset.

(** ** The lazy dataset ([LazyHumanChatBotDataset]) *)

Module LazyHumanChatBotDataset.

Record t := {
  data : list LabeledRecord;
  article_type_to_classnum : gmap string Z;
}.

(** The constructor: [__post_init__] checks the fields it was given. *)
Definition __post_init__ (data : list LabeledRecord)
    (article_type_to_classnum : gmap string Z) : result t :=
  let types_in_dataset := remove_dups (r_type <$> data) in
  let missing_types : gset string :=
    list_to_set types_in_dataset ∖ dom article_type_to_classnum in
  if bool_decide (missing_types ≠ ∅) then Raise (ValueError missing_types)
  else Ok {| data := data;
             article_type_to_classnum := article_type_to_classnum |}.

(** [get_class_num]: a dictionary lookup, which raises on a missing key. *)
Definition get_class_num (self : t) (article_type : string) : result Z :=
  match article_type_to_classnum self !! article_type with
  | Some n => Ok n
  | None => Raise (KeyError (StrKey article_type))
  end.

(** [__len__] *)
Definition __len__ (self : t) : nat := length (data self).

(** [__getitem__] at an index that is not negative. *)
Definition __getitem__ `{!ArticleEmbedder} (self : t) (idx : nat)
  : result (Tensor1 * Z) :=
  match data self !! idx with
  | None => Raise IndexError
  | Some row =>
      let text := r_text row in
      let article_type := r_type row in
      label ← get_class_num self article_type;
      Ok (embed text, label)
  end.

(** [__getitem__] at any Python [int]: [self.data[idx]] counts a negative
    index from the end of the frame. *)
Definition getitem_int `{!ArticleEmbedder} (self : t) (idx : Z)
  : result (Tensor1 * Z) :=
  match position (length (data self)) idx with
  | Some i => __getitem__ self i
  | None => Raise IndexError
  end.

(** [from_raw_data]: the constructor on the frame of the raw data. *)
Definition from_raw_data (raw_data : list LabeledRecord)
    (article_type_to_classnum : gmap string Z) : result t :=
  __post_init__ raw_data article_type_to_classnum.

End LazyHumanChatBotDataset.

(** ** State and exceptions *)

(** A computation that reads and writes a state [S] and may raise; the
    state reached when the exception is raised is kept. *)
Definition M (S A : Type) : Type := S → result A * S.

#[global] Instance M_ret {S} : MRet (M S) := λ A a s, (Ok a, s).
#[global] Instance M_bind {S} : MBind (M S) :=
  λ A B f m s,
    match m s with
    | (Ok a, s') => f a s'
    | (Raise e, s') => (Raise e, s')
    end.

Definition gets {S A} (f : S → A) : M S A := λ s, (Ok (f s), s).
Definition modify {S} (f : S → S) : M S () := λ s, (Ok (), f s).
Definition lift {S A} (r : result A) : M S A := λ s, (r, s).

(** [try: body finally: cleanup] *)
Definition try_finally {S A} (body : M S A) (cleanup : M S ()) : M S A :=
  λ s,
    let '(r, s1) := body s in
    match cleanup s1 with
    | (Ok _, s2) => (r, s2)
    | (Raise e, s2) => (Raise e, s2)
    end.

(** A [for] loop over [l] carrying the loop variables [acc]. *)
Fixpoint for_eachM {S A B} (body : B → A → M S B) (acc : B) (l : list A)
  : M S B :=
  match l with
  | [] => mret acc
  | a :: l' => acc' ← body acc a; for_eachM body acc' l'
  end.

(** ** Saving the images, one directory per class ([convert_and_save]) *)

(** [os.path.join] on POSIX paths: a component is appended after a
    separator, which is left out after an empty path or a path that ends
    with one; an absolute component starts the path again. *)
Definition starts_with_slash (b : string) : bool :=
  bool_decide (String.substring 0 1 b = "/").

Definition ends_with_slash (path : string) : bool :=
  bool_decide (String.substring (String.length path - 1) 1 path = "/").

Definition os_path_join (a : string) (p : list string) : string :=
  foldl (λ path b,
           if starts_with_slash b then b
           else if bool_decide (path = "") || ends_with_slash path
                then path +:+ b
                else path +:+ "/" +:+ b) a p.

(** The calls that reach the file system, in the order they are made;
    they are taken to succeed. *)
Inductive FileCall :=
| Makedirs (name : string)
| ImageSave (cross_mult : Tensor2) (fp : string).

(** [os.makedirs(name, exist_ok=True)] *)
Definition makedirs (name : string) : M (list FileCall) () :=
  modify (λ calls, calls ++ [Makedirs name]).

(** [generate_and_save]: the projection is handed to [tensor_to_pil] and
    the image saved under the path. *)
Definition generate_and_save (embedding : Tensor1) (save_path : string)
  : M (list FileCall) () :=
  cross_mult ← lift (get_embedding_as_image_tensor embedding);
  modify (λ calls, calls ++ [ImageSave cross_mult save_path]).

(** [ImageByCrossMultiplicationDataset.convert_and_save] *)
Definition convert_and_save (ds : HumanChatBotDataset.t)
    (root_save_path : string) : M (list FileCall) () :=
  let n_classes := HumanChatBotDataset.number_of_classes ds in
  for_eachM (λ _ i,
      let class_dir := os_path_join root_save_path [pretty i] in
      makedirs class_dir) () (seq 0 n_classes);;
  for_eachM (λ _ i,
      '(embedding, label) ← lift (HumanChatBotDataset.__getitem__ ds i);
      let save_path :=
        os_path_join root_save_path [pretty label; pretty i +:+ ".png"] in
      generate_and_save embedding save_path) ()
    (seq 0 (HumanChatBotDataset.__len__ ds)).

(** ** The experiment result record *)

(** The confusion breakdown,
    [defaultdict(lambda: defaultdict(int))]: predicted class, then true
    class, then count. *)
Abbreviation MakeUp := (gmap Z (gmap Z nat)).

(** Modelled from the spec: [NeuralNetworkExperimentResult] is declared in
    [mlproject/data_processing.py]; the record owns four series of metrics
    and two series of confusion breakdowns, each a list of its own that is
    empty when the record is built, and the metadata of the run. *)
Record NeuralNetworkExperimentResult := {
  learning_rate : spec_float;
  training_batch_size : nat;
  optimizer_name : string;
  criterion_name : string;
  epochs : nat;
  training_losses : list spec_float;
  training_accuracies : list spec_float;
  testing_losses : list spec_float;
  testing_accuracies : list spec_float;
  training_classification_results : list MakeUp;
  testing_classification_results : list MakeUp;
}.

Definition new_experiment_result (learning_rate : spec_float)
    (training_batch_size : nat) (optimizer_name criterion_name : string)
    (epochs : nat) : NeuralNetworkExperimentResult :=
  {| learning_rate := learning_rate;
     training_batch_size := training_batch_size;
     optimizer_name := optimizer_name;
     criterion_name := criterion_name;
     epochs := epochs;
     training_losses := [];
     training_accuracies := [];
     testing_losses := [];
     testing_accuracies := [];
     training_classification_results := [];
     testing_classification_results := [] |}.

(** ** Data loaders *)

(** The default generator of torch as explicit state.  Every iteration
    over a loader, shuffling or not, starts by drawing a base seed from
    it; [base_seed] is the state after that draw.  A shuffling loader then
    draws its permutation, [torch.randperm]. *)
Class RandomSampler (G : Type) := {
  base_seed : G → G;
  randperm : nat → G → list nat * G;
  randperm_Permutation : ∀ n g, (randperm n g).1 ≡ₚ seq 0 n;
}.

(** [DataLoader(dataset, batch_size=..., shuffle=...)], with the default
    [drop_last=False].  The samples of the dataset are a list of pairs of
    an input and a label. *)
Record DataLoader (X : Type) := {
  dataset : list (X * Z);
  batch_size : positive;
  shuffle : bool;
}.
Arguments dataset {X} _.
Arguments batch_size {X} _.
Arguments shuffle {X} _.

(** The constructor: a shuffling loader is given a [RandomSampler], which
    refuses a dataset without samples. *)
Definition new_loader {X} (dataset : list (X * Z)) (batch_size : positive)
    (shuffle : bool) : result (DataLoader X) :=
  if shuffle && bool_decide (length dataset = 0)
  then Raise NoSamplesValueError
  else Ok {| dataset := dataset; batch_size := batch_size;
             shuffle := shuffle |}.

Fixpoint chunks_aux {A} (fuel n : nat) (l : list A) : list (list A) :=
  match fuel with
  | 0 => []
  | S fuel' =>
      match l with
      | [] => []
      | _ => take n l :: chunks_aux fuel' n (drop n l)
      end
  end.

(** Consecutive batches of [n] elements, the last one possibly shorter. *)
Definition chunks {A} (n : nat) (l : list A) : list (list A) :=
  chunks_aux (length l) n l.

(** [len(data_loader)]: the number of batches. *)
Definition loader_len {X} (dl : DataLoader X) : nat :=
  let b := Pos.to_nat (batch_size dl) in
  (length (dataset dl) + b - 1) / b.

(** ** The network and its state *)

(** The row-wise tensor operations of torch used on the outputs. *)
Class TorchOps := {
  softmax : Tensor1 → Tensor1;
  argmax : Tensor1 → Z;
}.

(** What a concrete model adds to [NNBaseModel]: its [forward], which
    depends on the weights and on the training flag of the module and
    produces one row of outputs per input of the batch; its criterion; and
    the update of weights and optimizer state done by [loss.backward()]
    followed by [optimizer.step()]. *)
Class Network (W X : Type) := {
  forward : W → bool → list X → result Tensor2;
  forward_rows : ∀ w b xs out, forward w b xs = Ok out → length out = length xs;
  criterion : Tensor2 → list Z → result spec_float;
  backward_step : W → list X → list Z → W;
  model_learning_rate : spec_float;
  model_optimizer_name : string;
  model_criterion_name : string;
}.

Record State (W G : Type) := {
  weights : W;
  training : bool;
  generator : G;
  exp_result : NeuralNetworkExperimentResult;
}.
Arguments weights {W G} _.
Arguments training {W G} _.
Arguments generator {W G} _.
Arguments exp_result {W G} _.

Definition set_training {W G} (b : bool) (s : State W G) : State W G :=
  {| weights := weights s; training := b;
     generator := generator s; exp_result := exp_result s |}.

Definition set_weights {W G} (w : W) (s : State W G) : State W G :=
  {| weights := w; training := training s;
     generator := generator s; exp_result := exp_result s |}.

Definition set_generator {W G} (g : G) (s : State W G) : State W G :=
  {| weights := weights s; training := training s;
     generator := g; exp_result := exp_result s |}.

Definition set_exp_result {W G} (r : NeuralNetworkExperimentResult)
    (s : State W G) : State W G :=
  {| weights := weights s; training := training s;
     generator := generator s; exp_result := r |}.

(** [series.append(x)] on each of the six series of the record. *)
Definition append_training_loss (x : spec_float)
    (r : NeuralNetworkExperimentResult) : NeuralNetworkExperimentResult :=
  {| learning_rate := learning_rate r;
     training_batch_size := training_batch_size r;
     optimizer_name := optimizer_name r;
     criterion_name := criterion_name r;
     epochs := epochs r;
     training_losses := training_losses r ++ [x];
     training_accuracies := training_accuracies r;
     testing_losses := testing_losses r;
     testing_accuracies := testing_accuracies r;
     training_classification_results := training_classification_results r;
     testing_classification_results := testing_classification_results r |}.

Definition append_training_accuracy (x : spec_float)
    (r : NeuralNetworkExperimentResult) : NeuralNetworkExperimentResult :=
  {| learning_rate := learning_rate r;
     training_batch_size := training_batch_size r;
     optimizer_name := optimizer_name r;
     criterion_name := criterion_name r;
     epochs := epochs r;
     training_losses := training_losses r;
     training_accuracies := training_accuracies r ++ [x];
     testing_losses := testing_losses r;
     testing_accuracies := testing_accuracies r;
     training_classification_results := training_classification_results r;
     testing_classification_results := testing_classification_results r |}.

Definition append_testing_loss (x : spec_float)
    (r : NeuralNetworkExperimentResult) : NeuralNetworkExperimentResult :=
  {| learning_rate := learning_rate r;
     training_batch_size := training_batch_size r;
     optimizer_name := optimizer_name r;
     criterion_name := criterion_name r;
     epochs := epochs r;
     training_losses := training_losses r;
     training_accuracies := training_accuracies r;
     testing_losses := testing_losses r ++ [x];
     testing_accuracies := testing_accuracies r;
     training_classification_results := training_classification_results r;
     testing_classification_results := testing_classification_results r |}.

Definition append_testing_accuracy (x : spec_float)
    (r : NeuralNetworkExperimentResult) : NeuralNetworkExperimentResult :=
  {| learning_rate := learning_rate r;
     training_batch_size := training_batch_size r;
     optimizer_name := optimizer_name r;
     criterion_name := criterion_name r;
     epochs := epochs r;
     training_losses := training_losses r;
     training_accuracies := training_accuracies r;
     testing_losses := testing_losses r;
     testing_accuracies := testing_accuracies r ++ [x];
     training_classification_results := training_classification_results r;
     testing_classification_results := testing_classification_results r |}.

Definition append_training_classification_result (x : MakeUp)
    (r : NeuralNetworkExperimentResult) : NeuralNetworkExperimentResult :=
  {| learning_rate := learning_rate r;
     training_batch_size := training_batch_size r;
     optimizer_name := optimizer_name r;
     criterion_name := criterion_name r;
     epochs := epochs r;
     training_losses := training_losses r;
     training_accuracies := training_accuracies r;
     testing_losses := testing_losses r;
     testing_accuracies := testing_accuracies r;
     training_classification_results :=
       training_classification_results r ++ [x];
     testing_classification_results := testing_classification_results r |}.

Definition append_testing_classification_result (x : MakeUp)
    (r : NeuralNetworkExperimentResult) : NeuralNetworkExperimentResult :=
  {| learning_rate := learning_rate r;
     training_batch_size := training_batch_size r;
     optimizer_name := optimizer_name r;
     criterion_name := criterion_name r;
     epochs := epochs r;
     training_losses := training_losses r;
     training_accuracies := training_accuracies r;
     testing_losses := testing_losses r;
     testing_accuracies := testing_accuracies r;
     training_classification_results := training_classification_results r;
     testing_classification_results :=
       testing_classification_results r ++ [x] |}.

(** [make_up[i][j] += 1] on the nested default dictionary. *)
Definition make_up_incr (make_up : MakeUp) (i j : Z) : MakeUp :=
  let inner := default ∅ (make_up !! i) in
  <[i := <[j := S (default 0 (inner !! j))]> inner]> make_up.

(** The sum of all the counts of a confusion breakdown. *)
Definition inner_total (inner : gmap Z nat) : nat :=
  map_fold (λ _ c acc, c + acc) 0 inner.
Definition make_up_total (make_up : MakeUp) : nat :=
  map_fold (λ _ inner acc, inner_total inner + acc) 0 make_up.

(** [(predicted == text_labels).sum().item()], with the broadcasting of a
    one-element tensor; other shapes that differ do not compare. *)
Definition eq_sum (predicted text_labels : list Z) : result nat :=
  let count l := length (filter (λ p, p.1 = p.2) l) in
  if bool_decide (length predicted = length text_labels) then
    Ok (count (zip predicted text_labels))
  else
    match predicted, text_labels with
    | [p], _ => Ok (count ((λ l, (p, l)) <$> text_labels))
    | _, [l] => Ok (count ((λ p, (p, l)) <$> predicted))
    | _, _ => Raise RuntimeError
    end.

(** [a / b] on two [int]s, a [float]; the conversion of the operands is
    exact below 2^53. *)
Definition int_truediv (a b : nat) : result spec_float :=
  if bool_decide (b = 0) then Raise ZeroDivisionError
  else Ok (F64.div (F64.of_Z (Z.of_nat a)) (F64.of_Z (Z.of_nat b))).

(** [x / n] on a [float] and an [int]. *)
Definition float_div_int (x : spec_float) (n : nat) : result spec_float :=
  if bool_decide (n = 0) then Raise ZeroDivisionError
  else Ok (F64.div x (F64.of_Z (Z.of_nat n))).

(** ** [NNBaseModel] and the training loop *)

Section NNBaseModel.
Context {W X G : Type} `{!Network W X} `{!RandomSampler G} `{!TorchOps}.

Local Abbreviation St := (State W G).

(** [self.eval()] and [self.train()] *)
Definition eval : M St () := modify (set_training false).
Definition train : M St () := modify (set_training true).

(** [self(text_vectors)]: the forward pass under the current weights and
    mode. *)
Definition call (text_vectors : list X) : M St Tensor2 :=
  λ s, (forward (weights s) (training s) text_vectors, s).

(** [for batch in data_loader]: the batches of one pass, in the order of
    the dataset or, for a shuffling loader, of a fresh permutation.
    Starting the pass draws its base seed from the generator, whether the
    loader shuffles or not. *)
Definition iter_batches (data_loader : DataLoader X)
  : M St (list (list (X * Z))) :=
  λ s,
    let b := Pos.to_nat (batch_size data_loader) in
    let g := base_seed (generator s) in
    if shuffle data_loader then
      let '(perm, g) := randperm (length (dataset data_loader)) g in
      (Ok (chunks b (omap (λ i, dataset data_loader !! i) perm)),
       set_generator g s)
    else (Ok (chunks b (dataset data_loader)), set_generator g s).

(** The body of the loop of [compute_accuracy] over the batches. *)
Definition accuracy_step (acc : nat * MakeUp) (batch : list (X * Z))
  : M St (nat * MakeUp) :=
  let '(correct, make_up) := acc in
  let text_vectors := batch.*1 in
  let text_labels := batch.*2 in
  outputs ← call text_vectors;
  let normalized_outputs := softmax <$> outputs in
  let predicted := argmax <$> normalized_outputs in
  n ← lift (eq_sum predicted text_labels);
  let make_up :=
    foldl (λ m p, make_up_incr m p.1 p.2) make_up
      (zip predicted text_labels) in
  mret (correct + n, make_up).

(** [compute_accuracy] *)
Definition compute_accuracy (data_loader : DataLoader X)
  : M St (nat * nat * spec_float * MakeUp) :=
  batches ← iter_batches data_loader;
  '(correct, make_up) ← for_eachM accuracy_step (0, ∅) batches;
  let total_items := length (dataset data_loader) in
  accuracy ← lift (int_truediv correct total_items);
  mret (correct, total_items, accuracy, make_up).

(** The body of the loop of [compute_loss] over the batches. *)
Definition loss_step (loss : spec_float) (batch : list (X * Z))
  : M St spec_float :=
  let text_vectors := batch.*1 in
  let text_labels := batch.*2 in
  outputs ← call text_vectors;
  l ← lift (criterion outputs text_labels);
  mret (F64.add loss l).

(** [compute_loss] *)
Definition compute_loss (data_loader : DataLoader X) : M St spec_float :=
  batches ← iter_batches data_loader;
  loss ← for_eachM loss_step F64.zero batches;
  lift (float_div_int loss (loader_len data_loader)).

(** [validation_context], the generator-based context manager, around a
    body: [with self.validation_context(): body]. *)
Definition validation_context {A} (body : M St A) : M St A :=
  try_finally (eval;; body) train.

Definition update_exp_result
    (f : NeuralNetworkExperimentResult → NeuralNetworkExperimentResult)
  : M St () :=
  modify (λ s, set_exp_result (f (exp_result s)) s).

(** [_validate_after_epoch] *)
Definition _validate_after_epoch (epoch : nat)
    (train_loader test_loader : DataLoader X) : M St () :=
  training_loss ← compute_loss train_loader;
  update_exp_result (append_training_loss training_loss);;
  '(_, _, training_accuracy, tr_make_up) ← compute_accuracy train_loader;
  update_exp_result (append_training_accuracy training_accuracy);;
  testing_loss ← compute_loss test_loader;
  update_exp_result (append_testing_loss testing_loss);;
  '(_, _, testing_accuracy, test_make_up) ← compute_accuracy test_loader;
  update_exp_result (append_testing_accuracy testing_accuracy);;
  update_exp_result (append_training_classification_result tr_make_up);;
  update_exp_result (append_testing_classification_result test_make_up).

(** [validate_after_epoch] *)
Definition validate_after_epoch (epoch : nat)
    (train_loader test_loader : DataLoader X) : M St () :=
  validation_context (_validate_after_epoch epoch train_loader test_loader).

(** One step of gradient descent on a batch: [optimizer.zero_grad()],
    the forward pass, the loss, [loss.backward()], [optimizer.step()]. *)
Definition train_step (batch : list (X * Z)) : M St () :=
  let text_vectors := batch.*1 in
  let text_labels := batch.*2 in
  outputs ← call text_vectors;
  loss ← lift (criterion outputs text_labels);
  modify (λ s, set_weights
                 (backward_step (weights s) text_vectors text_labels) s).

(** One epoch: the training steps, then the validation. *)
Definition run_epoch (train_loader test_loader : DataLoader X)
    (epoch : nat) : M St () :=
  batches ← iter_batches train_loader;
  for_eachM (λ _ batch, train_step batch) () batches;;
  validate_after_epoch epoch train_loader test_loader.

(** [for epoch in tqdm(range(epochs)): ...] *)
Definition training_loop (train_loader test_loader : DataLoader X)
    (epochs : nat) : M St () :=
  for_eachM (λ _ epoch, run_epoch train_loader test_loader epoch) ()
    (seq 0 epochs).

(** [run_training], the same loop in [LogisticRegression], [SimpleMLP],
    [CNN2D] and [CNNLstm]. *)
Definition run_training (train_dataset test_dataset : list (X * Z))
    (epochs : nat) : M St NeuralNetworkExperimentResult :=
  let training_batch_size := 32%positive in
  train_loader ← lift (new_loader train_dataset training_batch_size true);
  test_loader ← lift (new_loader test_dataset 32%positive false);
  modify (set_exp_result
            (new_experiment_result model_learning_rate
               (Pos.to_nat training_batch_size)
               model_optimizer_name model_criterion_name epochs));;
  training_loop train_loader test_loader epochs;;
  gets exp_result.

End NNBaseModel.

(** ** The registry of models ([NNBaseModel.__init_subclass__]) *)

(** [registry] maps the name of a class to the class; a subclass is
    entered under its name when it is defined, unless the name is taken.
    A class is known here by its name and by what else tells it apart. *)
Definition __init_subclass__ {C} (__name__ : C → string) (cls : C)
    (registry : gmap string C) : gmap string C :=
  if bool_decide (__name__ cls ∉ dom registry)
  then <[__name__ cls := cls]> registry
  else registry.

(** The registry after the class statements of a module, in the order of
    the file. *)
Definition define_classes {C} (__name__ : C → string) (classes : list C)
    (registry : gmap string C) : gmap string C :=
  foldl (λ registry cls, __init_subclass__ __name__ cls registry)
    registry classes.

(** ** Image dimensions after a convolutional block *)

(** [a // b] on two [int]s: the floor of the quotient; a zero divisor
    raises. *)
Definition floordiv (a b : Z) : result Z :=
  if bool_decide (b = 0%Z) then Raise ZeroDivisionError
  else Ok (a `div` b)%Z.

(** [get_cnn_image_dimensions] *)
Definition get_cnn_image_dimensions
    (image_height image_width padding kernel_size stride pool_stride : Z)
  : result (Z * Z) :=
  qh ← floordiv (image_height - kernel_size + 2 * padding) stride;
  let new_height := (qh + 1)%Z in
  qw ← floordiv (image_width - kernel_size + 2 * padding) stride;
  let new_width := (qw + 1)%Z in
  h ← floordiv new_height pool_stride;
  w ← floordiv new_width pool_stride;
  Ok (h, w).

Module CNN2D.

(** The dimension calculator that [convolutional_block] returns beside
    the layers:
    [partial(get_cnn_image_dimensions, kernel_size=kernel_size,
             stride=stride, padding=0, pool_stride=2)]. *)
Definition new_dim_calc (kernel_size stride : Z)
    (image_height image_width : Z) : result (Z * Z) :=
  get_cnn_image_dimensions image_height image_width 0 kernel_size stride 2.

(** [flatten_output_dim] of [__init__]: the input width of the fully
    connected part, after a block of kernel [kernel_size] and a block of
    kernel 5, both of stride 1, the second with 6 output channels. *)
Definition flatten_output_dim (image_height image_width kernel_size : Z)
  : result Z :=
  let new_dims_after_one := new_dim_calc kernel_size 1 in
  let new_dims_after_second := new_dim_calc 5 1 in
  '(h1, w1) ← new_dims_after_one image_height image_width;
  '(final_h, final_w) ← new_dims_after_second h1 w1;
  Ok (6 * final_h * final_w)%Z.

End CNN2D.

Module CNNLstm.

(** [cnn_output_dim] of [__init__] *)
Definition cnn_output_dim (image_height image_width kernel_size : Z)
  : Z * Z :=
  ((image_height - kernel_size + 1) `div` 2,
   (image_width - kernel_size + 1) `div` 2)%Z.

(** [cnn_flatten_dim] of [__init__] *)
Definition cnn_flatten_dim (image_height image_width kernel_size
    out_channels : Z) : Z :=
  let d := cnn_output_dim image_height image_width kernel_size in
  (out_channels * d.1 * d.2)%Z.

End CNNLstm.

(** The state in which [run_training] enters its loop over the epochs:
    the record of the run has just been built. *)
Definition at_loop_entry {W X G} `{!Network W X} (epochs : nat)
    (s : State W G) : State W G :=
  set_exp_result
    (new_experiment_result model_learning_rate 32
       model_optimizer_name model_criterion_name epochs) s.

(** The same network consulted in inference mode only: its [forward]
    ignores the training flag and answers as under [eval()]. *)
Definition inference_network {W X} (N : Network W X) : Network W X :=
  {| forward := λ w _ xs, forward w false xs;
     forward_rows := λ w _ xs out, forward_rows w false xs out;
     criterion := criterion;
     backward_step := backward_step;
     model_learning_rate := model_learning_rate;
     model_optimizer_name := model_optimizer_name;
     model_criterion_name := model_criterion_name |}.

(** ** Binary32 values as real numbers *)

(** The real number denoted by a mantissa and an exponent, and by a
    finite value of the format; the statements on the arithmetic of the
    projection are about these numbers. *)
Definition bpow (e : Z) : R := powerRZ 2 e.
Definition F2R (m e : Z) : R := (IZR m * bpow e)%R.
Definition B2R (x : spec_float) : R :=
  match x with
  | S754_finite s m e => F2R (cond_Zopp s (Zpos m)) e
  | _ => 0%R
  end.

(** Where a real [x] lies with respect to the slice [[m, m+1) * 2^e]. *)
Definition loc_ok (x : R) (m e : Z) (l : location) : Prop :=
  match l with
  | loc_Exact => x = F2R m e
  | loc_Inexact Lt => (F2R m e < x ∧ 2 * x < F2R (2 * m + 1) e)%R
  | loc_Inexact Eq => (2 * x = F2R (2 * m + 1) e)%R
  | loc_Inexact Gt => (F2R (2 * m + 1) e < 2 * x ∧ x < F2R (m + 1) e)%R
  end.

Definition rec_ok (x : R) (mrs : shr_record) (e : Z) : Prop :=
  loc_ok x (shr_m mrs) e (loc_of_shr_record mrs).

(** A slice [[m, m+1) * 2^e] of the grid of binary32 around a
    nonnegative real. *)
Definition slice_ok (m e : Z) : Prop :=
  (0 ≤ m < 2 ^ 24 ∧ -149 ≤ e ∧ (e = -149 ∨ 2 ^ 23 ≤ m))%Z.

(** The side of the slice chosen by rounding to nearest, ties to even. *)
Definition nearest_choice (x : R) (m1 e1 m2 : Z) : Prop :=
  (m2 = m1 ∧ (2 * x < F2R (2 * m1 + 1) e1
              ∨ (2 * x = F2R (2 * m1 + 1) e1 ∧ Z.even m1 = true))%R)
  ∨ (m2 = (m1 + 1)%Z
     ∧ (F2R (2 * m1 + 1) e1 < 2 * x
        ∨ (2 * x = F2R (2 * m1 + 1) e1 ∧ Z.even m1 = false))%R).

(** The float standing for the rounded value [m2 * 2^e1]. *)
Definition round_result (m2 e1 : Z) (res : spec_float) : Prop :=
  (m2 = 0%Z ∧ ∃ s, res = S754_zero s)
  ∨ (∃ m e, res = S754_finite false m e
            ∧ SpecFloat.bounded F32.prec F32.emax m e = true
            ∧ F2R (Zpos m) e = F2R m2 e1)
  ∨ (res = S754_infinity false ∧ (bpow 128 <= F2R m2 e1)%R).

(** [res] is the binary32 rounding of the nonnegative real [x]. *)
Definition rounded (x : R) (res : spec_float) : Prop :=
  ∃ m1 e1 m2,
    slice_ok m1 e1
    ∧ (F2R m1 e1 <= x < F2R (m1 + 1) e1)%R
    ∧ nearest_choice x m1 e1 m2
    ∧ round_result m2 e1 res.

(** A finite binary32 value: a zero, or a mantissa and an exponent within
    the bounds of the format. *)
Definition finite_valid (x : spec_float) : Prop :=
  match x with
  | S754_zero _ => True
  | S754_finite _ m e => SpecFloat.bounded F32.prec F32.emax m e = true
  | _ => False
  end.

(** A finite binary32 value that is a zero or positive. *)
Definition nonneg_float (x : spec_float) : Prop :=
  match x with
  | S754_zero _ => True
  | S754_finite false m e => SpecFloat.bounded F32.prec F32.emax m e = true
  | _ => False
  end.

(** ** Vocabulary of the statements *)

(** A finite value of binary32: neither an infinity nor a NaN, and within
    the bounds of the format. *)
Definition finite_float32 (x : spec_float) : bool :=
  F32.is_finite x && F32.valid x.

(** A square matrix of side [n]. *)
Definition square (n : nat) (m : Tensor2) : Prop :=
  length m = n ∧ Forall (λ r, length r = n) m.



(** The six series of a record of results, cut after the first [k]
    entries. *)
Definition series_upto (k : nat) (r : NeuralNetworkExperimentResult)
  : list spec_float * list spec_float * list spec_float * list spec_float
    * list MakeUp * list MakeUp :=
  (take k (training_losses r), take k (training_accuracies r),
   take k (testing_losses r), take k (testing_accuracies r),
   take k (training_classification_results r),
   take k (testing_classification_results r)).

(** A computation keeps a relation between the state it starts from and
    the state it ends in, whether it returns or raises. *)
Definition keeps {S A} (R : relation S) (m : M S A) : Prop :=
  ∀ s, R s (m s).2.

(** The evaluation leaves the mode and the record of results alone; the
    mode alone is what the bookkeeping of the results leaves alone. *)
Definition same_mode_and_record {W G} : relation (State W G) :=
  λ s s', training s' = training s ∧ exp_result s' = exp_result s.
Definition same_mode {W G} : relation (State W G) :=
  λ s s', training s' = training s.

(** Two computations that do the same from any state in inference
    mode. *)
Definition agree_in_eval {W G A} (m m' : M (State W G) A) : Prop :=
  ∀ s, training s = false → m s = m' s.

(** One entry has been appended to each of the six series. *)
Definition appended_once (r r' : NeuralNetworkExperimentResult) : Prop :=
  ∃ l1 a1 l2 a2 mk1 mk2,
    r' = append_testing_classification_result mk2
           (append_training_classification_result mk1
              (append_testing_accuracy a2
                 (append_testing_loss l2
                    (append_training_accuracy a1
                       (append_training_loss l1 r))))).

(** The six series have [n] entries each. *)
Definition aligned (n : nat) (r : NeuralNetworkExperimentResult) : Prop :=
  length (training_losses r) = n
  ∧ length (training_accuracies r) = n
  ∧ length (testing_losses r) = n
  ∧ length (testing_accuracies r) = n
  ∧ length (training_classification_results r) = n
  ∧ length (testing_classification_results r) = n.

(** The rank of a label: the number of distinct labels of the column
    that are strictly below it. *)
Definition label_rank (labels : list Z) (k : Z) : nat :=
  size (filter (λ w, (w < k)%Z) (list_to_set labels : gset Z)).

(** The labels and the feature columns that [from_raw_data] computes for
    raw data whose embeddings have [d] entries each. *)
Definition raw_labels (raw_data : list LabeledRecord) : list Z :=
  (λ r, Z.of_nat (default 0 (find_classnum_mapping raw_data !! r_type r)))
    <$> raw_data.
Definition raw_features `{!ArticleEmbedder} (raw_data : list LabeledRecord)
    (d : nat) : DataFrame :=
  (λ i, ("f" +:+ pretty i,
         Float (HumanChatBotDataset.column_of
                  ((λ r, embed (r_text r)) <$> raw_data) i)))
    <$> seq 0 d.

(** The count on the diagonal of a confusion breakdown: the samples whose
    predicted class is their true class. *)
Definition make_up_diagonal (make_up : MakeUp) : nat :=
  map_fold (λ i inner acc, default 0 (inner !! i) + acc) 0 make_up.

(** What the evaluation may change in a state is the generator, from
    which every pass over a loader draws: the weights, the mode and the
    record stay; the bookkeeping of the results leaves the weights. *)
Definition same_model {W G} : relation (State W G) :=
  λ s s', weights s' = weights s ∧ training s' = training s
          ∧ exp_result s' = exp_result s.
Definition same_weights {W G} : relation (State W G) :=
  λ s s', weights s' = weights s.

(** The metadata of a record of results. *)
Definition metadata (r : NeuralNetworkExperimentResult)
  : spec_float * nat * string * string * nat :=
  (learning_rate r, training_batch_size r, optimizer_name r,
   criterion_name r, epochs r).

(** ** Sample collaborators *)

(** Concrete stand-ins for what the repository takes from outside, on
    which the statements below are exercised. *)

(** An embedder of width 2: the length of the text, and one. *)
Definition length_embedder : ArticleEmbedder :=
  λ text, [F32.of_Z (Z.of_nat (String.length text)); F32.one].

(** Nearest-neighbour resampling of a matrix to [DEFAULT_IMAGE_SHAPE]. *)
Definition nearest_resize : ResizeTransform :=
  λ image,
    let '(h, w) := DEFAULT_IMAGE_SHAPE in
    (λ i, let r := default [] (image !! (i * length image / h)) in
          (λ j, default F32.zero (r !! (j * length r / w))) <$> seq 0 w)
      <$> seq 0 h.

(** A sampler that rotates the indices by its state, one step further on
    each draw. *)
Definition rotating_sampler : RandomSampler nat.
Proof.
  refine {| base_seed := S; randperm := λ n g, (rotate g (seq 0 n), S g) |}.
  intros n g. simpl. unfold rotate.
  generalize (g `mod` length (seq 0 n)). intros k.
  etrans; [apply Permutation_app_comm|]. by rewrite take_drop.
Defined.

(** The index of the first largest element, and the identity in place of
    the softmax, which does not change where the largest element is. *)
Fixpoint first_argmax (best : Z) (x : spec_float) (i : Z) (l : Tensor1) : Z :=
  match l with
  | [] => best
  | y :: l' =>
      if F32.ltb x y then first_argmax i y (i + 1) l'
      else first_argmax best x (i + 1) l'
  end.

Definition plain_torch_ops : TorchOps :=
  {| softmax := λ row, row;
     argmax := λ row,
       match row with
       | [] => 0%Z
       | x :: row' => first_argmax 0 x 1 row'
       end |}.

(** A network of two classes whose outputs are its two weights plus the
    first feature, and which moves its second weight at each step. *)
Definition toy_forward (w : Z * Z) (mode : bool) (xs : list Tensor1)
  : result Tensor2 :=
  Ok ((λ x, [F32.of_Z w.1; F32.of_Z (w.2 + (if mode then 1 else 0))]) <$> xs).

Definition toy_network : Network (Z * Z) Tensor1.
Proof.
  refine
    {| forward := toy_forward;
       criterion := λ outputs labels,
         Ok (F64.of_Z (Z.of_nat (length outputs)));
       backward_step := λ w xs labels, (w.1, (w.2 + 1)%Z);
       model_learning_rate := F64.zero;
       model_optimizer_name := "SGD";
       model_criterion_name := "CrossEntropyLoss" |}.
  intros w b xs out [= <-]. apply length_fmap.
Defined.

(** A disk of text files with a CSV layer in the manner of polars.  A
    frame is written as a header of column names and one line per row,
    the fields separated by commas: an integer in decimal, a
    floating-point number by its exact decimal expansion, a string as it
    is.  On reading, the type of a column is inferred from its fields: a
    column all of whose fields read as integers is an integer column, one
    all of whose fields read as numbers is a floating-point column, and
    any other column, as every column of a file without rows, is a column
    of strings.  A number is read with one rounding, to the nearest
    binary64 value. *)
Module TextCsv.

Definition first_char (s : string) : Ascii.ascii :=
  match s with
  | String c _ => c
  | EmptyString => Ascii.zero
  end.

Definition comma : Ascii.ascii := first_char ",".
Definition point : Ascii.ascii := first_char ".".
Definition minus_sign : Ascii.ascii := first_char "-".
Definition newline : Ascii.ascii := Ascii.ascii_of_nat 10.

(** *** Writing *)

Definition show_sign (neg : bool) : string := if neg then "-" else "".

Fixpoint zeros (n : nat) : string :=
  match n with
  | 0 => ""
  | S n' => "0" +:+ zeros n'
  end.

(** [n / 10^k] with the zeros at the end of its fraction left out, but
    for one digit. *)
Fixpoint shorten (k : nat) (n : Z) : Z * nat :=
  match k with
  | S (S _ as k') =>
      if bool_decide (n `mod` 10 = 0)%Z then shorten k' (n `div` 10)%Z
      else (n, k)
  | _ => (n, k)
  end.

(** The decimal notation of [n / 10^k], for [n] not negative. *)
Definition show_decimal (n : Z) (k : nat) : string :=
  let digits := pretty (n `mod` 10 ^ Z.of_nat k)%Z in
  pretty (n `div` 10 ^ Z.of_nat k)%Z +:+ "."
  +:+ zeros (k - String.length digits) +:+ digits.

(** [m * 2^e] is [m * 2^e] over 1 for [e] not negative, and
    [m * 5^(-e)] over [10^(-e)] otherwise. *)
Definition show_float (x : spec_float) : string :=
  match x with
  | S754_nan => "NaN"
  | S754_infinity neg => show_sign neg +:+ "inf"
  | S754_zero neg => show_sign neg +:+ "0.0"
  | S754_finite neg m e =>
      let '(n, k) :=
        shorten (Z.to_nat (- e))
          (Z.pos m * 2 ^ Z.max 0 e * 5 ^ Z.max 0 (- e))%Z in
      show_sign neg +:+ show_decimal n k
  end.

Definition show_cell (c : Cell) : string :=
  match c with
  | CInt z => pretty z
  | CFloat x => show_float x
  | CStr s => s
  end.

Definition show_line (fields : list string) : string :=
  String.concat "," fields +:+ String newline "".

Definition show_csv (df : DataFrame) : string :=
  show_line (columns df)
  +:+ String.concat ""
        ((λ i, show_line
                 (show_cell
                    <$> default [] (mapM (λ c, series_get c.2 i) df)))
           <$> seq 0 (height df)).

(** *** Reading *)

Fixpoint split_on (sep : Ascii.ascii) (s : string) : list string :=
  match s with
  | EmptyString => [EmptyString]
  | String c s' =>
      if Ascii.eqb c sep then EmptyString :: split_on sep s'
      else match split_on sep s' with
           | w :: ws => String c w :: ws
           | [] => [String c EmptyString]
           end
  end.

(** The lines of a text whose last line ends with a newline. *)
Definition lines (text : string) : list string :=
  match reverse (split_on newline text) with
  | EmptyString :: ls => reverse ls
  | ls => reverse ls
  end.

Definition read_digit (c : Ascii.ascii) : option Z :=
  let n := (Z.of_nat (Ascii.nat_of_ascii c) - 48)%Z in
  if bool_decide (0 ≤ n ≤ 9)%Z then Some n else None.

Fixpoint read_digits_from (acc : Z) (s : string) : option Z :=
  match s with
  | EmptyString => Some acc
  | String c s' => d ← read_digit c; read_digits_from (10 * acc + d) s'
  end.

Definition read_digits (s : string) : option Z :=
  match s with
  | EmptyString => None
  | _ => read_digits_from 0 s
  end.

Definition read_sign (s : string) : bool * string :=
  match s with
  | String c s' => if Ascii.eqb c minus_sign then (true, s') else (false, s)
  | EmptyString => (false, s)
  end.

Definition read_int (s : string) : option Z :=
  let '(neg, s) := read_sign s in
  n ← read_digits s;
  Some (if neg : bool then - n else n)%Z.

(** The binary64 value nearest to [n / 10^k], for [n] not negative, with
    the sign asked for. *)
Definition decimal (neg : bool) (n : Z) (k : nat) : spec_float :=
  match n with
  | Zpos p =>
      SFdiv F64.prec F64.emax (S754_finite neg p 0)
        (S754_finite false (Z.to_pos (10 ^ Z.of_nat k)) 0)
  | _ => S754_zero neg
  end.

Definition read_float (s : string) : option spec_float :=
  if bool_decide (s = "NaN") then Some S754_nan
  else if bool_decide (s = "inf") then Some (S754_infinity false)
  else if bool_decide (s = "-inf") then Some (S754_infinity true)
  else
    let '(neg, s) := read_sign s in
    match split_on point s with
    | [whole; fraction] =>
        _ ← read_digits whole;
        _ ← read_digits fraction;
        n ← read_digits (whole +:+ fraction);
        Some (decimal neg n (String.length fraction))
    | _ => None
    end.

Definition infer_column (fields : list string) : Series :=
  match fields with
  | [] => Utf8 []
  | _ =>
      match mapM read_int fields with
      | Some l => Int64 l
      | None =>
          match mapM read_float fields with
          | Some l => Float l
          | None => Utf8 fields
          end
      end
  end.

Definition parse_csv (text : string) : result DataFrame :=
  match lines text with
  | [] => Raise RuntimeError
  | header :: rows =>
      let names := split_on comma header in
      let rows := split_on comma <$> rows in
      if forallb (λ r : list string, length r =? length names) rows then
        Ok (zip names
              ((λ j, infer_column
                       ((λ r : list string, default "" (r !! j)) <$> rows))
                 <$> seq 0 (length names)))
      else Raise RuntimeError
  end.

Definition disk : CsvFiles (gmap string string) :=
  {| write_csv := λ df path fs, <[path := show_csv df]> fs;
     read_csv := λ path fs,
       match fs !! path with
       | Some text => parse_csv text
       | None => Raise RuntimeError
       end |}.

End TextCsv.

(** Four samples of width 2 with two classes. *)
Definition sample_frame : DataFrame :=
  [ ("type", Utf8 ["human"; "bot"; "human"; "bot"]);
    ("label", Int64 [7; 3; 7; 3]%Z);
    ("f0", Float [F64.of_Z 1; F64.of_Z 0; F64.of_Z 2; F64.of_Z 5]);
    ("f1", Float [F64.of_Z 0; F64.of_Z 1; F64.of_Z 3; F64.of_Z 4]) ].


Definition sample_records : list LabeledRecord :=
  [ {| r_type := "human"; r_text := "hello" |};
    {| r_type := "bot"; r_text := "beep" |};
    {| r_type := "human"; r_text := "hi" |} ].

Definition sample_dataset : list (Tensor1 * Z) :=
  [ ([F32.one; F32.zero], 0%Z); ([F32.zero; F32.one], 1%Z);
    ([F32.one; F32.one], 0%Z) ].

Definition sample_state : State (Z * Z) nat :=
  {| weights := (0, 0)%Z; training := true; generator := 1;
     exp_result := new_experiment_result F64.zero 0 "" "" 0 |}.

(** * Part II: the properties *)

(** ** The arithmetic of binary32 *)

Section bpow.
Local Open Scope R_scope.

Lemma bpow_pos e : 0 < bpow e.
Proof. apply powerRZ_lt. lra. Qed.

Lemma bpow_add a b : bpow (a + b) = bpow a * bpow b.
Proof. apply powerRZ_add. lra. Qed.

Lemma bpow_0 : bpow 0 = 1.
Proof. reflexivity. Qed.

Lemma bpow_1 : bpow 1 = 2.
Proof. unfold bpow. simpl. lra. Qed.

Lemma bpow_succ e : bpow (e + 1) = 2 * bpow e.
Proof. rewrite bpow_add, bpow_1. lra. Qed.

Lemma bpow_IZR k : (0 ≤ k)%Z → bpow k = IZR (2 ^ k).
Proof.
  intros Hk. unfold bpow.
  rewrite <- (Z2Nat.id k) by done.
  rewrite <- pow_powerRZ, pow_IZR. done.
Qed.

Lemma bpow_le a b : (a ≤ b)%Z → bpow a <= bpow b.
Proof.
  intros Hab. replace b with (a + (b - a))%Z by lia.
  rewrite bpow_add, (bpow_IZR (b - a)) by lia.
  assert (1 <= IZR (2 ^ (b - a))).
  { apply IZR_le. assert (0 < 2 ^ (b - a))%Z by (apply Z.pow_pos_nonneg; lia). lia. }
  pose proof (bpow_pos a). nra.
Qed.

Lemma bpow_lt a b : (a < b)%Z → bpow a < bpow b.
Proof.
  intros Hab. replace b with (a + 1 + (b - a - 1))%Z by lia.
  pose proof (bpow_le (a + 1) (a + 1 + (b - a - 1)) ltac:(lia)) as H.
  rewrite bpow_succ in H at 1. pose proof (bpow_pos a). lra.
Qed.

Lemma bpow_lt_inv a b : bpow a < bpow b → (a < b)%Z.
Proof.
  intros H. destruct (Z_lt_le_dec a b) as [|Hle]; [done|].
  apply bpow_le in Hle. lra.
Qed.

Lemma F2R_shift m e k : (0 ≤ k)%Z → F2R m (e + k) = F2R (m * 2 ^ k) e.
Proof.
  intros Hk. unfold F2R. rewrite bpow_add, (bpow_IZR k), mult_IZR by done. lra.
Qed.

Lemma F2R_le m1 m2 e : (m1 ≤ m2)%Z ↔ F2R m1 e <= F2R m2 e.
Proof.
  unfold F2R. pose proof (bpow_pos e). split.
  - intros H1%IZR_le. nra.
  - intros H1. apply le_IZR. nra.
Qed.

Lemma F2R_lt m1 m2 e : (m1 < m2)%Z ↔ F2R m1 e < F2R m2 e.
Proof.
  unfold F2R. pose proof (bpow_pos e). split.
  - intros H1%IZR_lt. nra.
  - intros H1. apply lt_IZR. nra.
Qed.

Lemma F2R_eq m1 m2 e : F2R m1 e = F2R m2 e → m1 = m2.
Proof.
  unfold F2R. pose proof (bpow_pos e). intros H1. apply eq_IZR. nra.
Qed.

Lemma F2R_0 e : F2R 0 e = 0.
Proof. unfold F2R. lra. Qed.

Lemma F2R_plus m1 m2 e : F2R (m1 + m2) e = F2R m1 e + F2R m2 e.
Proof. unfold F2R. rewrite plus_IZR. lra. Qed.

Lemma F2R_bpow e : F2R 1 e = bpow e.
Proof. unfold F2R. lra. Qed.

End bpow.

(** digits *)
Section digits.
Local Open Scope Z_scope.

Lemma digits2_pos_bounds p :
  2 ^ (Zpos (digits2_pos p) - 1) ≤ Zpos p < 2 ^ Zpos (digits2_pos p).
Proof.
  induction p as [p IH|p IH|]; simpl digits2_pos.
  - rewrite Pos2Z.inj_succ.
    replace (Z.succ (Zpos (digits2_pos p)) - 1) with (Z.succ (Zpos (digits2_pos p) - 1)) by lia.
    rewrite !Z.pow_succ_r by lia. lia.
  - rewrite Pos2Z.inj_succ.
    replace (Z.succ (Zpos (digits2_pos p)) - 1) with (Z.succ (Zpos (digits2_pos p) - 1)) by lia.
    rewrite !Z.pow_succ_r by lia. lia.
  - simpl. lia.
Qed.

Lemma Zdigits2_bounds m :
  0 < m → 2 ^ (Zdigits2 m - 1) ≤ m < 2 ^ Zdigits2 m.
Proof. destruct m as [|p|p]; try lia. intros _. apply digits2_pos_bounds. Qed.

Lemma Zdigits2_pos m : 0 < m → 0 < Zdigits2 m.
Proof. destruct m; simpl; lia. Qed.

Lemma Zdigits2_nonneg m : 0 ≤ Zdigits2 m.
Proof. destruct m; simpl; lia. Qed.

Lemma digits_unique m d :
  0 < d → 2 ^ (d - 1) ≤ m < 2 ^ d → Zdigits2 m = d.
Proof.
  intros Hd [Hlo Hhi].
  assert (0 < m) as Hm.
  { assert (0 < 2 ^ (d - 1)) by (apply Z.pow_pos_nonneg; lia). lia. }
  pose proof (Zdigits2_bounds m Hm) as [Hlo' Hhi'].
  pose proof (Zdigits2_pos m Hm) as Hd'.
  destruct (Z.lt_trichotomy (Zdigits2 m) d) as [Hlt|[->|Hgt]]; [|done|].
  - assert (2 ^ Zdigits2 m ≤ 2 ^ (d - 1)) by (apply Z.pow_le_mono_r; lia). lia.
  - assert (2 ^ d ≤ 2 ^ (Zdigits2 m - 1)) by (apply Z.pow_le_mono_r; lia). lia.
Qed.

(** digits of a quotient by a power of two *)
Lemma Zdigits2_div_pow2 m n :
  0 < m → 0 ≤ n → n < Zdigits2 m → Zdigits2 (m / 2 ^ n) = Zdigits2 m - n.
Proof.
  intros Hm Hn Hlt. pose proof (Zdigits2_bounds m Hm) as [Hlo Hhi].
  assert (0 < 2 ^ n) as Hp by (apply Z.pow_pos_nonneg; lia).
  apply digits_unique; [lia|]. split.
  - apply Z.div_le_lower_bound; [done|].
    rewrite <- Z.pow_add_r by lia.
    replace (n + (Zdigits2 m - n - 1)) with (Zdigits2 m - 1) by lia. done.
  - apply Z.div_lt_upper_bound; [done|].
    rewrite <- Z.pow_add_r by lia.
    replace (n + (Zdigits2 m - n)) with (Zdigits2 m) by lia. done.
Qed.

Lemma div_pow2_small m n :
  0 ≤ m → 0 ≤ n → Zdigits2 m ≤ n → m / 2 ^ n = 0.
Proof.
  intros Hm Hn Hd. apply Z.div_small. split; [done|].
  destruct (Z.eq_dec m 0) as [->|Hne]; [apply Z.pow_pos_nonneg; lia|].
  pose proof (Zdigits2_bounds m ltac:(lia)) as [_ Hhi].
  assert (2 ^ Zdigits2 m ≤ 2 ^ n) by (apply Z.pow_le_mono_r; lia). lia.
Qed.

Lemma Zdigits2_mul_pow2 m k :
  0 < m → 0 ≤ k → Zdigits2 (m * 2 ^ k) = Zdigits2 m + k.
Proof.
  intros Hm Hk. pose proof (Zdigits2_bounds m Hm) as [Hlo Hhi].
  pose proof (Zdigits2_pos m Hm).
  assert (0 < 2 ^ k) as Hp by (apply Z.pow_pos_nonneg; lia).
  apply digits_unique; [lia|]. split.
  - replace (Zdigits2 m + k - 1) with (Zdigits2 m - 1 + k) by lia.
    rewrite Z.pow_add_r by lia. nia.
  - rewrite Z.pow_add_r by lia. nia.
Qed.

End digits.

(** the binary32 format *)
Section format.
Local Open Scope Z_scope.

Lemma fexp32 e : fexp F32.prec F32.emax e = Z.max (e - 24) (-149).
Proof. reflexivity. Qed.

Lemma bounded_spec m e :
  SpecFloat.bounded F32.prec F32.emax m e = true
  ↔ Z.max (Zpos (digits2_pos m) + e - 24) (-149) = e ∧ e ≤ 104.
Proof.
  unfold SpecFloat.bounded, canonical_mantissa. rewrite andb_true_iff, fexp32.
  rewrite Z.eqb_eq, Z.leb_le. done.
Qed.

End format.

Ltac push_IZR :=
  repeat first [rewrite plus_IZR in * | rewrite mult_IZR in *
               | rewrite minus_IZR in * | rewrite opp_IZR in *].

Section shr.

Lemma loc_ok_bounds x m e l :
  loc_ok x m e l → (F2R m e <= x < F2R (m + 1) e)%R.
Proof.
  unfold F2R. pose proof (bpow_pos e).
  destruct l as [|[]]; simpl; unfold F2R;
    rewrite ?plus_IZR, ?mult_IZR; intros; nra.
Qed.

Lemma shr_1_ok x mrs e :
  (0 ≤ shr_m mrs)%Z → rec_ok x mrs e →
  rec_ok x (shr_1 mrs) (e + 1) ∧ shr_m (shr_1 mrs) = (shr_m mrs / 2)%Z.
Proof.
  destruct mrs as [m r s]. unfold rec_ok. simpl shr_m at 1 2.
  intros Hm Hok. pose proof (bpow_pos e) as Hb.
  destruct m as [|p|p]; [| |lia].
  - split; [|done]. destruct r, s; simpl in *; unfold F2R in *;
      rewrite bpow_succ; push_IZR; simpl; lra.
  - destruct p as [p|p|].
    + split.
      * change (Zpos p~1) with (2 * Zpos p + 1)%Z in Hok.
        destruct r, s; simpl in *; unfold F2R in *;
          rewrite bpow_succ; push_IZR; simpl; nra.
      * simpl shr_m. apply (Z.div_unique_pos _ 2 _ 1); lia.
    + split.
      * change (Zpos p~0) with (2 * Zpos p)%Z in Hok.
        destruct r, s; simpl in *; unfold F2R in *;
          rewrite bpow_succ; push_IZR; simpl; nra.
      * simpl shr_m. apply (Z.div_unique_pos _ 2 _ 0); lia.
    + split; [|done].
      destruct r, s; simpl in *; unfold F2R in *;
        rewrite bpow_succ; push_IZR; simpl; nra.
Qed.

Lemma shr_1_nonneg mrs : (0 ≤ shr_m mrs)%Z → (0 ≤ shr_m (shr_1 mrs))%Z.
Proof.
  destruct mrs as [[|[p|p|]|p] r s]; simpl; lia.
Qed.

Lemma iter_shr_ok x p : ∀ mrs e,
  (0 ≤ shr_m mrs)%Z → rec_ok x mrs e →
  rec_ok x (SpecFloat.iter_pos shr_1 p mrs) (e + Zpos p)
  ∧ shr_m (SpecFloat.iter_pos shr_1 p mrs) = (shr_m mrs / 2 ^ Zpos p)%Z
  ∧ (0 ≤ shr_m (SpecFloat.iter_pos shr_1 p mrs))%Z.
Proof.
  induction p as [p IH|p IH|]; intros mrs e Hm Hok; simpl SpecFloat.iter_pos.
  - destruct (shr_1_ok x mrs e Hm Hok) as [Hok1 Hm1].
    pose proof (shr_1_nonneg mrs Hm) as Hn1.
    destruct (IH _ _ Hn1 Hok1) as (Hok2 & Hm2 & Hn2).
    destruct (IH _ _ Hn2 Hok2) as (Hok3 & Hm3 & Hn3).
    split; [|split; [|done]].
    + replace (e + Zpos p~1)%Z with (e + 1 + Zpos p + Zpos p)%Z by lia. done.
    + rewrite Hm3, Hm2, Hm1.
      rewrite !Z.div_div by (try apply Z.pow_pos_nonneg; lia).
      f_equal. rewrite <- Z.pow_add_r by lia.
      change 2%Z with (2 ^ 1)%Z at 1. rewrite <- Z.pow_add_r by lia.
      f_equal. lia.
  - destruct (IH _ _ Hm Hok) as (Hok2 & Hm2 & Hn2).
    destruct (IH _ _ Hn2 Hok2) as (Hok3 & Hm3 & Hn3).
    split; [|split; [|done]].
    + replace (e + Zpos p~0)%Z with (e + Zpos p + Zpos p)%Z by lia. done.
    + rewrite Hm3, Hm2.
      rewrite !Z.div_div by (try apply Z.pow_pos_nonneg; lia).
      f_equal. rewrite <- Z.pow_add_r by lia. f_equal. lia.
  - destruct (shr_1_ok x mrs e Hm Hok) as [Hok1 Hm1].
    split; [done|]. split; [by rewrite Hm1|by apply shr_1_nonneg].
Qed.

Lemma shr_record_of_loc_ok m l :
  shr_m (shr_record_of_loc m l) = m
  ∧ loc_of_shr_record (shr_record_of_loc m l) = l.
Proof. by destruct l as [|[]]. Qed.

(** [shr]: after a shift by [n >= 0], the mantissa is the quotient. *)
Lemma shr_ok x m l e n :
  (0 ≤ m)%Z → loc_ok x m e l → (0 ≤ n)%Z →
  let '(mrs', e') := shr (shr_record_of_loc m l) e n in
  e' = (e + n)%Z
  ∧ rec_ok x mrs' e'
  ∧ shr_m mrs' = (m / 2 ^ n)%Z.
Proof.
  intros Hm Hok Hn. destruct (shr_record_of_loc_ok m l) as [E1 E2].
  unfold shr. destruct n as [|p|p]; [| |lia].
  - rewrite Z.add_0_r. split; [done|]. unfold rec_ok. rewrite E1, E2.
    split; [done|]. by rewrite Z.pow_0_r, Z.div_1_r.
  - destruct (iter_shr_ok x p (shr_record_of_loc m l) e) as (H1 & H2 & _).
    + by rewrite E1.
    + unfold rec_ok. by rewrite E1, E2.
    + split; [done|]. split; [done|]. by rewrite H2, E1.
Qed.

End shr.

(** ** Rounding to nearest, ties to even, in binary32 *)

Section rounding.
Local Open Scope Z_scope.

Lemma round_nearest_even_choice x m1 e1 l :
  loc_ok x m1 e1 l →
  nearest_choice x m1 e1 (round_nearest_even m1 l).
Proof.
  unfold nearest_choice. pose proof (bpow_pos e1) as Hb.
  destruct l as [|[]]; simpl; unfold F2R; push_IZR.
  - intros ->. left. split; [done|]. left. lra.
  - intros Heq. destruct (Z.even m1) eqn:Hev.
    + left. split; [done|]. right. split; [lra|done].
    + right. split; [done|]. right. split; [lra|done].
  - intros [H1 H2]. left. split; [done|]. left. lra.
  - intros [H1 H2]. right. split; [done|]. left. lra.
Qed.

(** The first shift of [binary_round_aux]. *)
Lemma shr_fexp_first x mx ex lx :
  0 ≤ mx → loc_ok x mx ex lx →
  ex ≤ fexp F32.prec F32.emax (Zdigits2 mx + ex) →
  ∃ mrs' e1,
    shr_fexp F32.prec F32.emax mx ex lx = (mrs', e1)
    ∧ e1 = fexp F32.prec F32.emax (Zdigits2 mx + ex)
    ∧ rec_ok x mrs' e1
    ∧ slice_ok (shr_m mrs') e1.
Proof.
  intros Hmx Hok Hn. unfold shr_fexp.
  set (e1 := fexp F32.prec F32.emax (Zdigits2 mx + ex)) in *.
  pose proof (shr_ok x mx lx ex (e1 - ex) Hmx Hok ltac:(lia)) as Hshr.
  destruct (shr _ _ _) as [mrs' e'].
  destruct Hshr as (-> & Hrec & Hm).
  exists mrs', e1. replace (ex + (e1 - ex)) with e1 by lia.
  replace (ex + (e1 - ex)) with e1 in Hrec by lia.
  split; [done|]. split; [done|]. split; [done|].
  rewrite Hm. unfold slice_ok. unfold e1 in *. rewrite fexp32 in *.
  set (n := Z.max (Zdigits2 mx + ex - 24) (-149) - ex) in *.
  assert (0 ≤ n) as Hn0 by lia.
  assert (0 < 2 ^ n) as Hp by (apply Z.pow_pos_nonneg; lia).
  destruct (Z.eq_dec mx 0) as [->|Hne].
  { rewrite Z.div_0_l by lia. simpl Zdigits2 in *. split; [lia|]. lia. }
  pose proof (Zdigits2_bounds mx ltac:(lia)) as [Hlo Hhi].
  pose proof (Zdigits2_pos mx ltac:(lia)) as Hd.
  split; [split|].
  - apply Z.div_pos; lia.
  - destruct (Z_lt_le_dec n (Zdigits2 mx)) as [Hlt|Hge].
    + pose proof (Zdigits2_div_pow2 mx n ltac:(lia) Hn0 Hlt) as Hdq.
      assert (0 < mx / 2 ^ n) as Hq.
      { apply Z.div_str_pos. split; [done|].
        etrans; [|apply Hlo]. apply Z.pow_le_mono_r; lia. }
      pose proof (Zdigits2_bounds _ Hq) as [_ Hhi'].
      rewrite Hdq in Hhi'.
      eapply Z.lt_le_trans; [apply Hhi'|]. apply Z.pow_le_mono_r; lia.
    + rewrite div_pow2_small by lia. done.
  - split; [lia|].
    destruct (Z_le_gt_dec (Zdigits2 mx + ex - 24) (-149)) as [Hle|Hgt].
    + left. lia.
    + right. replace n with (Zdigits2 mx - 24) by lia.
      apply Z.div_le_lower_bound; [apply Z.pow_pos_nonneg; lia|].
      rewrite <- Z.pow_add_r by lia.
      replace (Zdigits2 mx - 24 + 23) with (Zdigits2 mx - 1) by lia. done.
Qed.

(** The second shift of [binary_round_aux], which renormalises a
    mantissa that the rounding has carried to [2^24]. *)
Lemma shr_fexp_second m2 e1 :
  0 ≤ m2 ≤ 2 ^ 24 → -149 ≤ e1 → (e1 = -149 ∨ 2 ^ 23 ≤ m2) →
  ∃ mrs'' e2,
    shr_fexp F32.prec F32.emax m2 e1 loc_Exact = (mrs'', e2)
    ∧ 0 ≤ shr_m mrs''
    ∧ F2R (shr_m mrs'') e2 = F2R m2 e1
    ∧ (m2 = 0 → shr_m mrs'' = 0)
    ∧ (0 < m2 →
       0 < shr_m mrs''
       ∧ Z.max (Zdigits2 (shr_m mrs'') + e2 - 24) (-149) = e2
       ∧ (104 < e2 → 2 ^ 23 ≤ shr_m mrs'')).
Proof.
  intros [Hlo Hhi] He1 Hnorm. unfold shr_fexp. rewrite fexp32.
  destruct (Z.eq_dec m2 0) as [->|Hne].
  { simpl Zdigits2. unfold shr.
    destruct (Z.max (0 + e1 - 24) (-149) - e1) eqn:E; try lia;
      eexists _, _; (split; [done|]); simpl; (split; [lia|]);
      (split; [done|]); split; [done|lia]. }
  pose proof (Zdigits2_bounds m2 ltac:(lia)) as [Hdlo Hdhi].
  pose proof (Zdigits2_pos m2 ltac:(lia)) as Hd.
  destruct (Z.eq_dec m2 (2 ^ 24)) as [->|Hne24].
  - change (2 ^ 24) with 16777216 in *.
    change (Zdigits2 16777216) with 25 in *.
    replace (Z.max (25 + e1 - 24) (-149) - e1) with 1 by lia.
    exists {| shr_m := 8388608; shr_r := false; shr_s := false |}, (e1 + 1).
    split; [reflexivity|]. cbn [shr_m].
    split; [lia|]. split.
    { rewrite F2R_shift by lia. f_equal. }
    split; [lia|]. intros _. split; [lia|]. split; [|lia].
    change (Zdigits2 8388608) with 24. lia.
  - assert (m2 < 2 ^ 24) as Hlt by lia.
    assert (Zdigits2 m2 ≤ 24) as Hd24.
    { destruct (Z_le_gt_dec (Zdigits2 m2) 24) as [|Hgt]; [done|].
      assert (2 ^ 24 ≤ 2 ^ (Zdigits2 m2 - 1)) by (apply Z.pow_le_mono_r; lia).
      lia. }
    assert (Z.max (Zdigits2 m2 + e1 - 24) (-149) - e1 ≤ 0) as Hn by lia.
    unfold shr.
    assert (Z.max (Zdigits2 m2 + e1 - 24) (-149) = e1) as Hcanon.
    { destruct Hnorm as [->|H23]; [lia|].
      assert (Zdigits2 m2 = 24); [|lia].
      apply digits_unique; [lia|]. split; [done|lia]. }
    destruct (Z.max (Zdigits2 m2 + e1 - 24) (-149) - e1) eqn:E; try lia;
      eexists _, _; (split; [done|]); simpl shr_m; (split; [lia|]);
      (split; [done|]); (split; [lia|]); intros _; (split; [lia|]);
      (split; [done|]); intros ?; destruct Hnorm; lia.
Qed.

(** The rounding at the heart of every operation: for a nonnegative
    mantissa with the position of the real [x] in its slice, given at an
    exponent not above the one of the format, [binary_round_aux] returns
    the rounding of [x]. *)
Lemma binary_round_aux_rounded x mx ex lx :
  0 ≤ mx → loc_ok x mx ex lx →
  ex ≤ fexp F32.prec F32.emax (Zdigits2 mx + ex) →
  rounded x (binary_round_aux F32.prec F32.emax false mx ex lx).
Proof.
  intros Hmx Hok Hn.
  destruct (shr_fexp_first x mx ex lx Hmx Hok Hn)
    as (mrs' & e1 & Hshr1 & He1 & Hrec & Hslice).
  unfold binary_round_aux. rewrite Hshr1.
  set (m1 := shr_m mrs') in *. set (l1 := loc_of_shr_record mrs') in *.
  pose proof (round_nearest_even_choice x m1 e1 l1 Hrec) as Hchoice.
  set (m2 := round_nearest_even m1 l1) in *.
  destruct Hslice as ([Hm1lo Hm1hi] & He1lo & Hnorm).
  assert (0 ≤ m2 ≤ 2 ^ 24) as Hm2 by (destruct Hchoice as [[-> _]|[-> _]]; lia).
  assert (e1 = -149 ∨ 2 ^ 23 ≤ m2) as Hnorm2
    by (destruct Hchoice as [[-> _]|[-> _]]; lia).
  destruct (shr_fexp_second m2 e1 Hm2 He1lo Hnorm2)
    as (mrs'' & e2 & Hshr2 & Hnn & Hval & Hzero & Hpos).
  rewrite Hshr2. exists m1, e1, m2.
  split; [done|]. split; [by apply loc_ok_bounds in Hrec|]. split; [done|].
  unfold round_result.
  destruct (shr_m mrs'') as [|m|m] eqn:Em; [| |lia].
  - left. split; [|by eexists]. destruct (Z.eq_dec m2 0); [done|].
    destruct Hpos; lia.
  - right. assert (0 < m2) as Hm2pos.
    { destruct (Z.eq_dec m2 0) as [E0|]; [|lia]. specialize (Hzero E0). lia. }
    destruct (Hpos Hm2pos) as (_ & Hcanon & Hbig).
    destruct (Z.leb_spec e2 (F32.emax - F32.prec)) as [Hle|Hgt].
    + left. exists m, e2. split; [done|]. split; [|done].
      apply bounded_spec. split; [done|]. unfold F32.emax, F32.prec in Hle. lia.
    + right. split; [done|]. rewrite <- Hval.
      unfold F32.emax, F32.prec in Hgt.
      specialize (Hbig ltac:(lia)).
      apply Rle_trans with (F2R (2 ^ 23) e2).
      * unfold F2R. rewrite <- (bpow_IZR 23), <- bpow_add by lia.
        apply bpow_le. lia.
      * by apply F2R_le.
Qed.

End rounding.

Section grid.
Local Open Scope R_scope.

Lemma slice_big_exponent m e e' :
  slice_ok m e → (-149 ≤ e' < e)%Z → F2R (2 ^ 24) e' <= F2R m e.
Proof.
  intros (Hm & He & Hnorm) Hlt.
  replace e with (e' + (e - e'))%Z by lia. rewrite F2R_shift by lia.
  apply F2R_le.
  assert (2 ^ 1 ≤ 2 ^ (e - e'))%Z by (apply Z.pow_le_mono_r; lia).
  change (2 ^ 24)%Z with (2 ^ 23 * 2 ^ 1)%Z. nia.
Qed.

(** No point of the grid lies strictly inside a slice. *)
Lemma slice_no_grid_point m1 e1 mB eB :
  slice_ok m1 e1 → slice_ok mB eB →
  ¬ (F2R m1 e1 < F2R mB eB < F2R (m1 + 1) e1).
Proof.
  intros H1 HB [Hlo Hhi].
  destruct (Z_lt_le_dec eB e1) as [Hlt|Hge].
  - pose proof (slice_big_exponent m1 e1 eB H1) as Hbig.
    destruct HB as ([_ HmB] & HeB & _). specialize (Hbig ltac:(lia)).
    apply (F2R_lt mB (2 ^ 24) eB) in HmB. lra.
  - replace eB with (e1 + (eB - e1))%Z in Hlo, Hhi by lia.
    rewrite F2R_shift in Hlo, Hhi by lia.
    apply F2R_lt in Hlo, Hhi. lia.
Qed.

Lemma slice_unique m e m' e' :
  slice_ok m e → slice_ok m' e' → F2R m e = F2R m' e' → m = m' ∧ e = e'.
Proof.
  intros H1 H2 Heq.
  destruct (Z.lt_trichotomy e e') as [Hlt|[->|Hgt]].
  - pose proof (slice_big_exponent m' e' e H2) as Hbig.
    destruct H1 as ([_ Hm] & He & _). specialize (Hbig ltac:(lia)).
    apply (F2R_lt m (2 ^ 24) e) in Hm. lra.
  - split; [|done]. by apply F2R_eq in Heq.
  - pose proof (slice_big_exponent m e e' H1) as Hbig.
    destruct H2 as ([_ Hm] & He & _). specialize (Hbig ltac:(lia)).
    apply (F2R_lt m' (2 ^ 24) e') in Hm. lra.
Qed.

(** The upper end of a slice is a point of the grid. *)
Lemma slice_upper_on_grid m e :
  slice_ok m e → ∃ m' e', slice_ok m' e' ∧ F2R (m + 1) e = F2R m' e'.
Proof.
  intros (Hm & He & Hnorm).
  destruct (Z.eq_dec (m + 1) (2 ^ 24)) as [Heq|Hne].
  - exists (2 ^ 23)%Z, (e + 1)%Z. split.
    + unfold slice_ok. change (2 ^ 23)%Z with 8388608%Z.
      change (2 ^ 24)%Z with 16777216%Z. lia.
    + rewrite F2R_shift by lia. f_equal. rewrite Heq. reflexivity.
  - exists (m + 1)%Z, e. split; [|done]. unfold slice_ok. lia.
Qed.

(** Rounding to nearest is monotone. *)
Lemma nearest_choice_mono u v m1 e1 m2 m1' e1' m2' :
  slice_ok m1 e1 → slice_ok m1' e1' →
  F2R m1 e1 <= u < F2R (m1 + 1) e1 →
  F2R m1' e1' <= v < F2R (m1' + 1) e1' →
  nearest_choice u m1 e1 m2 → nearest_choice v m1' e1' m2' →
  u <= v →
  F2R m2 e1 <= F2R m2' e1'.
Proof.
  intros Hs Hs' [Hlu Huu] [Hlv Huv] Hcu Hcv Huv'.
  destruct (slice_upper_on_grid m1 e1 Hs) as (mU & eU & HsU & HU).
  destruct (slice_upper_on_grid m1' e1' Hs') as (mV & eV & HsV & HV).
  pose proof (slice_no_grid_point m1 e1 m1' e1' Hs Hs') as N1.
  pose proof (slice_no_grid_point m1 e1 mV eV Hs HsV) as N2.
  pose proof (slice_no_grid_point m1' e1' m1 e1 Hs' Hs) as N3.
  pose proof (slice_no_grid_point m1' e1' mU eU Hs' HsU) as N4.
  rewrite <- HV in N2. rewrite <- HU in N4.
  destruct (Rle_or_lt (F2R m2 e1) (F2R m2' e1')) as [|Hgt]; [done|].
  exfalso.
  destruct Hcv as [[-> Hdown]|[-> Hup']].
  - destruct Hcu as [[-> Hdown']|[-> Hup]].
    + apply N3. lra.
    + assert (F2R m1 e1 = F2R m1' e1') as Heq.
      { destruct (Rtotal_order (F2R m1 e1) (F2R m1' e1')) as [Hlt|[|Hlt]];
          [|done|].
        - exfalso. apply N1. lra.
        - exfalso. apply N3. lra. }
      destruct (slice_unique _ _ _ _ Hs Hs' Heq) as [<- <-].
      destruct Hdown as [Hd|[Hd Hev]], Hup as [Hu|[Hu Hod]]; try lra.
      congruence.
  - destruct Hcu as [[-> Hdown']|[-> Hup]].
    + apply N4. rewrite HU. lra.
    + apply N2. lra.
Qed.

End grid.

(** ** Binary32 values *)

Section values.
Local Open Scope R_scope.

Lemma bounded_slice m e :
  SpecFloat.bounded F32.prec F32.emax m e = true →
  slice_ok (Zpos m) e ∧ (e ≤ 104)%Z.
Proof.
  intros [Hc He]%bounded_spec. split; [|done].
  pose proof (digits2_pos_bounds m) as [Hlo Hhi].
  assert (0 < Zpos (digits2_pos m))%Z as Hd by lia.
  unfold slice_ok. split; [split; [lia|]|split; [lia|]].
  - eapply Z.lt_le_trans; [apply Hhi|]. apply Z.pow_le_mono_r; lia.
  - destruct (Z.eq_dec e (-149)) as [|Hne]; [by left|right].
    assert (Zpos (digits2_pos m) = 24)%Z as Hd24 by lia.
    rewrite Hd24 in Hlo. done.
Qed.

Lemma F2R_pos m e : 0 < F2R (Zpos m) e.
Proof.
  unfold F2R. pose proof (bpow_pos e).
  assert (0 < IZR (Zpos m)) by (apply IZR_lt; lia). nra.
Qed.

Lemma bounded_lt_max m e :
  SpecFloat.bounded F32.prec F32.emax m e = true → F2R (Zpos m) e < bpow 128.
Proof.
  intros [(Hm & _) He]%bounded_slice.
  apply Rlt_le_trans with (F2R (2 ^ 24) e).
  - apply F2R_lt. lia.
  - unfold F2R. rewrite <- (bpow_IZR 24), <- bpow_add by lia.
    apply bpow_le. lia.
Qed.

Lemma nonneg_float_finite_valid x : nonneg_float x → finite_valid x.
Proof. by destruct x as [| | |[] ? ?]. Qed.

Lemma nonneg_float_B2R x : nonneg_float x → 0 <= B2R x.
Proof.
  destruct x as [| | |[] m e]; simpl; try done; try lra.
  intros _. pose proof (F2R_pos m e). lra.
Qed.

Lemma rounded_zero s : rounded 0 (S754_zero s).
Proof.
  exists 0%Z, (-149)%Z, 0%Z. split; [|split; [|split]].
  - unfold slice_ok. change (2 ^ 24)%Z with 16777216%Z. lia.
  - change (0 + 1)%Z with 1%Z. rewrite F2R_0, F2R_bpow.
    pose proof (bpow_pos (-149)). lra.
  - left. split; [done|]. left. change (2 * 0 + 1)%Z with 1%Z.
    rewrite F2R_bpow. pose proof (bpow_pos (-149)). lra.
  - left. split; [done|]. by exists s.
Qed.

Lemma rounded_exact m e :
  SpecFloat.bounded F32.prec F32.emax m e = true →
  rounded (F2R (Zpos m) e) (S754_finite false m e).
Proof.
  intros Hb. destruct (bounded_slice m e Hb) as [Hs _].
  exists (Zpos m), e, (Zpos m). pose proof (bpow_pos e).
  split; [done|]. split; [|split].
  - unfold F2R. push_IZR. lra.
  - left. split; [done|]. left. unfold F2R. push_IZR. lra.
  - right. left. by exists m, e.
Qed.

Lemma rounded_nonneg_float x :
  nonneg_float x → rounded (B2R x) x.
Proof.
  destruct x as [s| | |[] m e]; simpl; try done.
  - intros _. apply rounded_zero.
  - apply rounded_exact.
Qed.

Lemma rounded_nonneg x res : rounded x res → 0 <= x.
Proof.
  intros (m1 & e1 & m2 & (Hm & _) & [Hlo _] & _).
  apply Rle_trans with (F2R m1 e1); [|done].
  rewrite <- (F2R_0 e1). apply F2R_le. lia.
Qed.

(** The value of the result of a rounding that is finite. *)
Lemma round_result_value m2 e1 res :
  round_result m2 e1 res → F32.is_finite res = true →
  nonneg_float res ∧ B2R res = F2R m2 e1.
Proof.
  intros [(-> & s & ->)|[(m & e & -> & Hb & Hv)|[-> _]]] Hfin; simpl in *.
  - by rewrite F2R_0.
  - done.
  - done.
Qed.

(** Rounding is monotone: of two nonnegative reals, the smaller has the
    smaller rounding, as far as the larger one is finite. *)
Lemma rounded_mono u v a d :
  rounded u a → rounded v d → u <= v → F32.is_finite d = true →
  nonneg_float a ∧ B2R a <= B2R d.
Proof.
  intros (m1 & e1 & m2 & Hs & Hu & Hc & Hr)
         (m1' & e1' & m2' & Hs' & Hv & Hc' & Hr') Huv Hfin.
  pose proof (nearest_choice_mono u v _ _ _ _ _ _ Hs Hs' Hu Hv Hc Hc' Huv)
    as Hle.
  destruct (round_result_value _ _ _ Hr' Hfin) as [Hnd Hvd].
  assert (F32.is_finite a = true) as Hfa.
  { destruct Hr as [(-> & s & ->)|[(m & e & -> & Hb & Hval)|[-> Hinf]]];
      [done|done|].
    exfalso. rewrite <- Hvd in Hle.
    destruct d as [| | |[] md ed]; cbn [B2R cond_Zopp nonneg_float] in *;
      try done.
    - pose proof (bpow_pos 128). lra.
    - pose proof (bounded_lt_max md ed Hnd). lra. }
  destruct (round_result_value _ _ _ Hr Hfa) as [Hna Hva].
  split; [done|]. by rewrite Hva, Hvd.
Qed.

(** A rounding stays below any binary32 value that the real is below. *)
Lemma rounded_le_float x res b :
  rounded x res → nonneg_float b → x <= B2R b →
  nonneg_float res ∧ B2R res <= B2R b.
Proof.
  intros Hx Hb Hle.
  apply (rounded_mono x (B2R b) res b); [done| |done|].
  - by apply rounded_nonneg_float.
  - by destruct b as [| | |[] ? ?].
Qed.

(** A real at least as large as the smallest positive binary32 value does
    not round to zero. *)
Lemma rounded_not_zero x res :
  rounded x res → bpow (-149) <= x → ∀ s, res ≠ S754_zero s.
Proof.
  intros (m1 & e1 & m2 & Hs & [_ Hu] & Hc & Hr) Hx s ->.
  destruct Hr as [(-> & _)|[(m & e & [=] & _)|[[=] _]]].
  destruct Hs as (Hm & He & Hnorm).
  assert (m1 = 0%Z) as -> by (destruct Hc as [[? _]|[? _]]; lia).
  assert (e1 = (-149)%Z) as ->.
  { destruct Hnorm as [|Hbig]; [done|].
    change (2 ^ 23)%Z with 8388608%Z in Hbig. lia. }
  change (0 + 1)%Z with 1%Z in Hu. rewrite F2R_bpow in Hu. lra.
Qed.

End values.

(** ** The operations *)

Section operations.
Local Open Scope Z_scope.

Lemma Zdigits2_mul_lower a b :
  0 < a → 0 < b → Zdigits2 a + Zdigits2 b - 1 ≤ Zdigits2 (a * b).
Proof.
  intros Ha Hb.
  pose proof (Zdigits2_bounds a Ha) as [Hal _].
  pose proof (Zdigits2_bounds b Hb) as [Hbl _].
  pose proof (Zdigits2_bounds (a * b) ltac:(nia)) as [_ Hh].
  pose proof (Zdigits2_pos a Ha). pose proof (Zdigits2_pos b Hb).
  destruct (Z_le_gt_dec (Zdigits2 a + Zdigits2 b - 1) (Zdigits2 (a * b)))
    as [|Hgt]; [done|].
  assert (2 ^ Zdigits2 (a * b) ≤ 2 ^ (Zdigits2 a - 1 + (Zdigits2 b - 1)))
    by (apply Z.pow_le_mono_r; lia).
  rewrite Z.pow_add_r in * by lia.
  assert (0 < 2 ^ (Zdigits2 a - 1)) by (apply Z.pow_pos_nonneg; lia).
  assert (0 < 2 ^ (Zdigits2 b - 1)) by (apply Z.pow_pos_nonneg; lia).
  nia.
Qed.

Lemma Zdigits2_div_lower a b :
  0 < a → 0 < b → Zdigits2 a - Zdigits2 b ≤ Zdigits2 (a / b).
Proof.
  intros Ha Hb.
  pose proof (Zdigits2_bounds a Ha) as [Hal _].
  pose proof (Zdigits2_bounds b Hb) as [_ Hbh].
  pose proof (Zdigits2_pos a Ha). pose proof (Zdigits2_pos b Hb).
  pose proof (Zdigits2_nonneg (a / b)).
  destruct (Z_le_gt_dec (Zdigits2 a - Zdigits2 b) 0) as [|Hgt]; [lia|].
  assert (2 ^ (Zdigits2 a - Zdigits2 b - 1) ≤ a / b) as Hq.
  { apply Z.div_le_lower_bound; [done|].
    assert (0 < 2 ^ (Zdigits2 a - Zdigits2 b - 1))
      by (apply Z.pow_pos_nonneg; lia).
    replace (Zdigits2 a - 1) with (Zdigits2 b + (Zdigits2 a - Zdigits2 b - 1))
      in Hal by lia.
    rewrite Z.pow_add_r in Hal by lia. nia. }
  assert (0 < a / b) as Hpos.
  { assert (0 < 2 ^ (Zdigits2 a - Zdigits2 b - 1))
      by (apply Z.pow_pos_nonneg; lia). lia. }
  pose proof (Zdigits2_bounds (a / b) Hpos) as [_ Hh].
  destruct (Z_le_gt_dec (Zdigits2 a - Zdigits2 b) (Zdigits2 (a / b)))
    as [|Hgt']; [done|].
  assert (2 ^ Zdigits2 (a / b) ≤ 2 ^ (Zdigits2 a - Zdigits2 b - 1))
    by (apply Z.pow_le_mono_r; lia).
  lia.
Qed.

Lemma bounded_digits m e :
  SpecFloat.bounded F32.prec F32.emax m e = true →
  -149 ≤ e ≤ 104 ∧ Zdigits2 (Zpos m) ≤ 24
  ∧ (e = -149 ∨ Zdigits2 (Zpos m) = 24).
Proof. intros [Hc He]%bounded_spec. simpl. lia. Qed.

(** The product. *)
Lemma mul_rounded x y :
  nonneg_float x → nonneg_float y →
  rounded (B2R x * B2R y) (F32.mul x y).
Proof.
  destruct x as [sx| | |[] mx ex], y as [sy| | |[] my ey]; try done;
    cbn [B2R nonneg_float cond_Zopp]; intros Hx Hy.
  - rewrite Rmult_0_l. apply rounded_zero.
  - rewrite Rmult_0_l. apply rounded_zero.
  - rewrite Rmult_0_r. apply rounded_zero.
  - unfold F32.mul, SFmul. cbn [xorb].
    apply binary_round_aux_rounded.
    + lia.
    + cbn [loc_ok]. unfold F2R. rewrite Pos2Z.inj_mul, mult_IZR, bpow_add.
      lra.
    + rewrite fexp32.
      destruct (bounded_digits mx ex Hx) as (Hex & Hdx & Hnx).
      destruct (bounded_digits my ey Hy) as (Hey & Hdy & Hny).
      pose proof (Zdigits2_mul_lower (Zpos mx) (Zpos my) ltac:(lia) ltac:(lia))
        as Hd.
      pose proof (Zdigits2_pos (Zpos mx) ltac:(lia)).
      pose proof (Zdigits2_pos (Zpos my) ltac:(lia)).
      rewrite Pos2Z.inj_mul. lia.
Qed.

Lemma new_location_spec nb k :
  0 < nb → 0 ≤ k < nb →
  new_location nb k
  = if k =? 0 then loc_Exact else loc_Inexact (2 * k ?= nb).
Proof.
  intros Hnb Hk. unfold new_location, new_location_even, new_location_odd.
  destruct (Z.even nb) eqn:Hev; [done|].
  destruct (k =? 0); [done|]. f_equal.
  assert (Z.odd nb = true) as Hodd by (by rewrite <- Z.negb_even, Hev).
  apply Z.odd_spec in Hodd as [h Hh].
  destruct (Z.compare_spec (2 * k + 1) nb), (Z.compare_spec (2 * k) nb);
    try done; lia.
Qed.

(** The quotient of two positive mantissas, with the position of the
    exact quotient. *)
Lemma div_core m1 e1 m2 e2 :
  0 < m1 → 0 < m2 →
  ∃ q e' l,
    SFdiv_core_binary F32.prec F32.emax m1 e1 m2 e2 = (q, e', l)
    ∧ 0 ≤ q
    ∧ loc_ok (F2R m1 e1 / F2R m2 e2) q e' l
    ∧ e' ≤ fexp F32.prec F32.emax (Zdigits2 q + e').
Proof.
  intros Hm1 Hm2. unfold SFdiv_core_binary. rewrite !fexp32.
  set (e' := Z.min (Z.max (Zdigits2 m1 + e1 - (Zdigits2 m2 + e2) - 24) (-149))
               (e1 - e2)).
  set (s := e1 - e2 - e').
  assert (0 ≤ s) as Hs by (unfold s, e'; lia).
  set (m' := match s with Z.pos _ => Z.shiftl m1 s | 0 => m1 | _ => 0 end).
  assert (m' = m1 * 2 ^ s) as Hm'.
  { unfold m'. destruct s as [|p|p] eqn:Es; [| |lia].
    - rewrite Z.pow_0_r. lia.
    - by rewrite Z.shiftl_mul_pow2. }
  clearbody m'. subst m'.
  assert (0 < 2 ^ s) as Hp by (apply Z.pow_pos_nonneg; lia).
  pose proof (Z_div_mod (m1 * 2 ^ s) m2 ltac:(lia)) as Hdm.
  destruct (Z.div_eucl (m1 * 2 ^ s) m2) as [q r] eqn:Hqr.
  destruct Hdm as [Heq Hr].
  assert (0 ≤ q) as Hq by nia.
  exists q, e', (new_location m2 r). split; [done|]. split; [done|].
  split.
  - rewrite new_location_spec by lia.
    set (x := (F2R m1 e1 / F2R m2 e2)%R).
    pose proof (bpow_pos e') as Hb. pose proof (bpow_pos e2) as Hb2.
    assert (0 < IZR m2)%R as HM2 by (apply IZR_lt; lia).
    assert (x * IZR m2 = (IZR q * IZR m2 + IZR r) * bpow e')%R as Hx.
    { unfold x, F2R. replace e1 with (e' + s + e2) by (unfold s; lia).
      rewrite !bpow_add, (bpow_IZR s) by lia.
      replace (IZR q * IZR m2 + IZR r)%R with (IZR (m1 * 2 ^ s)).
      - rewrite mult_IZR. field. lra.
      - rewrite Heq. push_IZR. lra. }
    assert (0 <= IZR r)%R as Hr0 by (apply IZR_le; lia).
    destruct (Z.eqb_spec r 0) as [->|Hne].
    + cbn [loc_ok]. unfold F2R. nra.
    + assert (0 < IZR r)%R as Hrpos by (apply IZR_lt; lia).
      assert (IZR r < IZR m2)%R as Hrlt by (apply IZR_lt; lia).
      assert (∀ a c : R, (a * IZR m2 < c * IZR m2 → a < c)%R) as Hreg.
      { intros a c Hac. by apply (Rmult_lt_reg_r (IZR m2)). }
      destruct (Z.compare_spec (2 * r) m2) as [Hc|Hc|Hc]; cbn [loc_ok];
        unfold F2R; push_IZR.
      * apply (f_equal IZR) in Hc. push_IZR.
        apply (Rmult_eq_reg_r (IZR m2)); [|lra].
        replace (2 * x * IZR m2)%R with (2 * (x * IZR m2))%R by ring.
        rewrite Hx. nra.
      * apply IZR_lt in Hc. push_IZR. split; apply Hreg.
        -- rewrite Hx. nra.
        -- replace (2 * x * IZR m2)%R with (2 * (x * IZR m2))%R by ring.
           rewrite Hx. nra.
      * apply IZR_lt in Hc. push_IZR. split; apply Hreg.
        -- replace (2 * x * IZR m2)%R with (2 * (x * IZR m2))%R by ring.
           rewrite Hx. nra.
        -- rewrite Hx. nra.
  - rewrite fexp32. destruct (Z_le_gt_dec e' (-149)) as [|Hgt]; [lia|].
    assert (e' ≤ Zdigits2 m1 + e1 - (Zdigits2 m2 + e2) - 24) as He'
      by (unfold e' in *; lia).
    pose proof (Zdigits2_div_lower (m1 * 2 ^ s) m2 ltac:(nia) Hm2) as Hd.
    rewrite Zdigits2_mul_pow2 in Hd by lia.
    assert (q = m1 * 2 ^ s / m2) as -> by (by rewrite (surjective_pairing (Z.div_eucl _ _)) in Hqr; injection Hqr as <- _).
    unfold s in *. lia.
Qed.

(** The quotient of two positive values. *)
Lemma div_rounded mx ex my ey :
  rounded (F2R (Zpos mx) ex / F2R (Zpos my) ey)
    (F32.div (S754_finite false mx ex) (S754_finite false my ey)).
Proof.
  unfold F32.div, SFdiv. cbn [xorb].
  destruct (div_core (Zpos mx) ex (Zpos my) ey ltac:(lia) ltac:(lia))
    as (q & e' & l & -> & Hq & Hloc & Hn).
  by apply binary_round_aux_rounded.
Qed.

Lemma pos_iter_xO m d : Zpos (Pos.iter xO m d) = Zpos m * 2 ^ Zpos d.
Proof.
  induction d as [|d IH] using Pos.peano_ind.
  - simpl. lia.
  - rewrite Pos.iter_succ, Pos2Z.inj_succ, Z.pow_succ_r by lia.
    rewrite Pos2Z.inj_xO, IH. lia.
Qed.

Lemma shl_align_spec mx ex ex' :
  let '(m', e') := shl_align mx ex ex' in
  e' = Z.min ex ex' ∧ Zpos m' = Zpos mx * 2 ^ (ex - e').
Proof.
  unfold shl_align. destruct (ex' - ex) as [|d|d] eqn:Ed.
  - split; [lia|]. rewrite Z.sub_diag, Z.pow_0_r. lia.
  - split; [lia|]. rewrite Z.sub_diag, Z.pow_0_r. lia.
  - split; [lia|]. rewrite pos_iter_xO. f_equal. f_equal. lia.
Qed.

Lemma shl_align_fst mx ex ez :
  ez ≤ ex → Zpos (fst (shl_align mx ex ez)) = Zpos mx * 2 ^ (ex - ez).
Proof.
  intros Hle. pose proof (shl_align_spec mx ex ez) as Hs.
  destruct (shl_align mx ex ez) as [m' e']. destruct Hs as [-> Hm].
  simpl. rewrite Hm. f_equal. f_equal. lia.
Qed.

(** The rounding of a positive mantissa at any exponent. *)
Lemma binary_round_rounded mx ex :
  rounded (F2R (Zpos mx) ex) (binary_round F32.prec F32.emax false mx ex).
Proof.
  unfold binary_round.
  pose proof (shl_align_spec mx ex
                (fexp F32.prec F32.emax (Zpos (digits2_pos mx) + ex))) as Hs.
  destruct (shl_align _ _ _) as [mz ez]. destruct Hs as [Hez Hmz].
  assert (0 ≤ ex - ez) as Hk by lia.
  apply binary_round_aux_rounded.
  - lia.
  - cbn [loc_ok]. rewrite Hmz.
    replace ex with (ez + (ex - ez)) at 1 by lia. by rewrite F2R_shift.
  - rewrite Hmz, Zdigits2_mul_pow2 by lia.
    replace (Zdigits2 (Zpos mx) + (ex - ez) + ez)
      with (Zpos (digits2_pos mx) + ex) by (simpl; lia).
    lia.
Qed.

Lemma F2R_cond_Zopp s m e :
  F2R (cond_Zopp s m) e = (if s then - F2R m e else F2R m e)%R.
Proof. destruct s; simpl; [|done]. unfold F2R. rewrite opp_IZR. lra. Qed.

(** The difference of two finite values, the first one at least as large
    as the second: it is the rounding of the exact difference, and it is
    a zero only if the two are equal. *)
Lemma sub_rounded x y :
  finite_valid x → finite_valid y → (B2R y <= B2R x)%R →
  rounded (B2R x - B2R y) (F32.sub x y)
  ∧ ((B2R y < B2R x)%R → ∀ s, F32.sub x y ≠ S754_zero s).
Proof.
  destruct x as [sx| | |sx mx ex], y as [sy| | |sy my ey]; try done;
    cbn [B2R finite_valid]; intros Hx Hy Hle.
  - split; [|lra]. rewrite Rminus_0_r.
    destruct sx, sy; apply rounded_zero.
  - pose proof (F2R_pos my ey) as Hpos. rewrite F2R_cond_Zopp in *.
    destruct sy; [|lra]. cbn [F32.sub SFsub negb]. split; [|done].
    replace (0 - - F2R (Zpos my) ey)%R with (F2R (Zpos my) ey) by lra.
    by apply rounded_exact.
  - pose proof (F2R_pos mx ex) as Hpos. rewrite F2R_cond_Zopp in *.
    destruct sx; [lra|]. cbn [F32.sub SFsub]. split; [|done].
    rewrite Rminus_0_r. by apply rounded_exact.
  - unfold F32.sub, SFsub.
    set (ez := Z.min ex ey).
    rewrite (shl_align_fst mx ex ez), (shl_align_fst my ey ez)
      by (unfold ez; lia).
    set (Δ := cond_Zopp sx (Zpos mx * 2 ^ (ex - ez))
              - cond_Zopp sy (Zpos my * 2 ^ (ey - ez))).
    assert (F2R Δ ez
            = (F2R (cond_Zopp sx (Zpos mx)) ex
               - F2R (cond_Zopp sy (Zpos my)) ey)%R) as HΔ.
    { unfold Δ. unfold F2R at 1. rewrite minus_IZR, Rmult_minus_distr_r.
      fold (F2R (cond_Zopp sx (Zpos mx * 2 ^ (ex - ez))) ez).
      fold (F2R (cond_Zopp sy (Zpos my * 2 ^ (ey - ez))) ez).
      rewrite !F2R_cond_Zopp.
      rewrite <- !F2R_shift by (unfold ez; lia).
      replace (ez + (ex - ez)) with ex by lia.
      replace (ez + (ey - ez)) with ey by lia. done. }
    rewrite <- HΔ.
    assert (0 ≤ Δ) as HΔ0.
    { apply (F2R_le 0 Δ ez). rewrite F2R_0, HΔ. lra. }
    destruct (bounded_digits mx ex Hx) as (Hex & _).
    destruct (bounded_digits my ey Hy) as (Hey & _).
    clearbody Δ. destruct Δ as [|p|p]; [| |lia]; cbn [binary_normalize].
    + rewrite F2R_0. split; [apply rounded_zero|].
      rewrite F2R_0 in HΔ. lra.
    + pose proof (binary_round_rounded p ez) as Hr. split; [done|].
      intros _. apply (rounded_not_zero _ _ Hr).
      rewrite <- F2R_bpow.
      apply Rle_trans with (F2R 1 ez).
      * rewrite !F2R_bpow. apply bpow_le. unfold ez. lia.
      * apply F2R_le. lia.
Qed.

End operations.

(** ** Comparison *)

Section comparison.
Local Open Scope R_scope.

Lemma compare_positive m1 e1 m2 e2 :
  SpecFloat.bounded F32.prec F32.emax m1 e1 = true →
  SpecFloat.bounded F32.prec F32.emax m2 e2 = true →
  let c := match (e1 ?= e2)%Z with
           | Lt => Lt
           | Gt => Gt
           | Eq => Pos.compare_cont Eq m1 m2
           end in
  (c = Lt → F2R (Zpos m1) e1 < F2R (Zpos m2) e2)
  ∧ (c = Eq → F2R (Zpos m1) e1 = F2R (Zpos m2) e2)
  ∧ (c = Gt → F2R (Zpos m2) e2 < F2R (Zpos m1) e1).
Proof.
  intros [Hs1 _]%bounded_slice [Hs2 _]%bounded_slice.
  destruct (Z.compare_spec e1 e2) as [->|Hlt|Hgt]; cbn zeta.
  - change (Pos.compare_cont Eq m1 m2) with (Pos.compare m1 m2).
    destruct (Pos.compare_spec m1 m2) as [->|Hm|Hm];
      (split; [|split]); try done; intros _; apply F2R_lt; lia.
  - split; [|split]; try done. intros _.
    pose proof (slice_big_exponent _ _ e1 Hs2) as Hbig.
    destruct Hs1 as ([_ Hm] & He & _). specialize (Hbig ltac:(lia)).
    apply (F2R_lt (Zpos m1) (2 ^ 24) e1) in Hm. lra.
  - split; [|split]; try done. intros _.
    pose proof (slice_big_exponent _ _ e2 Hs1) as Hbig.
    destruct Hs2 as ([_ Hm] & He & _). specialize (Hbig ltac:(lia)).
    apply (F2R_lt (Zpos m2) (2 ^ 24) e2) in Hm. lra.
Qed.

(** On finite values, the comparison of the format is the comparison of
    the reals. *)
Lemma compare_finite x y :
  finite_valid x → finite_valid y →
  ∃ c, SFcompare x y = Some c
       ∧ (c = Lt → B2R x < B2R y)
       ∧ (c = Eq → B2R x = B2R y)
       ∧ (c = Gt → B2R y < B2R x).
Proof.
  destruct x as [sx| | |sx mx ex], y as [sy| | |sy my ey]; try done;
    cbn [B2R finite_valid SFcompare]; intros Hx Hy.
  - exists Eq. by repeat split.
  - pose proof (F2R_pos my ey). rewrite F2R_cond_Zopp.
    destruct sy; eexists; (split; [done|]); repeat split; try done; lra.
  - pose proof (F2R_pos mx ex). rewrite F2R_cond_Zopp.
    destruct sx; eexists; (split; [done|]); repeat split; try done; lra.
  - pose proof (F2R_pos mx ex). pose proof (F2R_pos my ey).
    rewrite !F2R_cond_Zopp.
    destruct sx, sy.
    + pose proof (compare_positive mx ex my ey Hx Hy) as (H1 & H2 & H3).
      cbn zeta in *. eexists. split; [done|].
      destruct (match (ex ?= ey)%Z with
                | Eq => Pos.compare_cont Eq mx my | Lt => Lt | Gt => Gt end)
        eqn:E.
      * destruct (ex ?= ey)%Z; simpl; try done.
        rewrite E. simpl. repeat split; try done. intros _.
        rewrite H2; done.
      * assert (match (ex ?= ey)%Z with
                | Eq => CompOpp (Pos.compare_cont Eq mx my)
                | Lt => Gt | Gt => Lt end = Gt) as ->.
        { destruct (ex ?= ey)%Z; try done. by rewrite E. }
        repeat split; try done. intros _. specialize (H1 eq_refl). lra.
      * assert (match (ex ?= ey)%Z with
                | Eq => CompOpp (Pos.compare_cont Eq mx my)
                | Lt => Gt | Gt => Lt end = Lt) as ->.
        { destruct (ex ?= ey)%Z; try done. by rewrite E. }
        repeat split; try done. intros _. specialize (H3 eq_refl). lra.
    + eexists. split; [done|]. repeat split; try done. lra.
    + eexists. split; [done|]. repeat split; try done. lra.
    + pose proof (compare_positive mx ex my ey Hx Hy) as (H1 & H2 & H3).
      cbn zeta in *. eexists. split; [done|]. done.
Qed.

Lemma ltb_finite x y :
  finite_valid x → finite_valid y → F32.ltb x y = true ↔ B2R x < B2R y.
Proof.
  intros Hx Hy. destruct (compare_finite x y Hx Hy) as (c & Hc & H1 & H2 & H3).
  unfold F32.ltb, SFltb. rewrite Hc.
  destruct c; split; try done; try (intros _; by apply H1); intros Hlt.
  - specialize (H2 eq_refl). lra.
  - specialize (H3 eq_refl). lra.
Qed.

Lemma leb_finite x y :
  finite_valid x → finite_valid y → F32.leb x y = true ↔ B2R x <= B2R y.
Proof.
  intros Hx Hy. destruct (compare_finite x y Hx Hy) as (c & Hc & H1 & H2 & H3).
  unfold F32.leb, SFleb. rewrite Hc.
  destruct c; split; try done; intros Hle.
  - specialize (H2 eq_refl). lra.
  - specialize (H1 eq_refl). lra.
  - specialize (H3 eq_refl). lra.
Qed.

Lemma eqb_finite x y :
  finite_valid x → finite_valid y → F32.eqb x y = true ↔ B2R x = B2R y.
Proof.
  intros Hx Hy. destruct (compare_finite x y Hx Hy) as (c & Hc & H1 & H2 & H3).
  unfold F32.eqb, SFeqb. rewrite Hc.
  destruct c; split; try done; try (intros _; by apply H2); intros Heq.
  - specialize (H1 eq_refl). lra.
  - specialize (H3 eq_refl). lra.
Qed.

End comparison.

(** ** Image projection on a constant vector *)

Lemma foldl_min2_replicate c n : foldl F32.min2 c (replicate n c) = c.
Proof.
  induction n as [|n IH]; simpl; [done|].
  replace (F32.min2 c c) with c; [done|].
  unfold F32.min2. destruct c as [s|s| |s m e]; simpl; try done.
  - by destruct (F32.ltb _ _).
  - by destruct (F32.ltb _ _).
Qed.

Lemma foldl_max2_replicate c n : foldl F32.max2 c (replicate n c) = c.
Proof.
  induction n as [|n IH]; simpl; [done|].
  replace (F32.max2 c c) with c; [done|].
  unfold F32.max2. destruct c as [s|s| |s m e]; simpl; try done.
  - by destruct (F32.ltb _ _).
  - by destruct (F32.ltb _ _).
Qed.

(** [0/0], and anything built on a NaN, is NaN: the normalised value of
    each element of a constant vector. *)
Lemma div_sub_self_nan c : F32.div (F32.sub c c) (F32.sub c c) = S754_nan.
Proof.
  destruct c as [[]|[]| |s m e]; try reflexivity.
  unfold F32.sub, SFsub. rewrite Z.sub_diag. reflexivity.
Qed.

(** C1 (evaluation of the code): on the constant vector with [n + 1]
    entries equal to [c], whatever the value [c], the image projection
    answers normally with the square image of side [n + 1] all of whose
    entries are NaN; the division by [max - min = 0] is not handled. *)
Theorem constant_vector_projects_to_nan (c : spec_float) (n : nat) :
  get_embedding_as_image_tensor (replicate (S n) c)
  = Ok (replicate (S n) (replicate (S n) S754_nan)).
Proof.
  unfold get_embedding_as_image_tensor. simpl tensor_min. simpl tensor_max.
  rewrite foldl_min2_replicate, foldl_max2_replicate.
  unfold mbind, result_bind, min_max_normalize, outer.
  rewrite fmap_replicate, div_sub_self_nan.
  repeat (rewrite fmap_replicate; cbv beta). reflexivity.
Qed.

(** The failing input of C1: [torch.tensor([1.0, 1.0])]. *)
Example constant_vector_example :
  get_embedding_as_image_tensor [F32.one; F32.one]
  = Ok [[S754_nan; S754_nan]; [S754_nan; S754_nan]].
Proof. reflexivity. Qed.

(** ** Image projection on a vector that is not constant *)

Section projection.
Local Open Scope R_scope.

Lemma finite_float32_valid x : finite_float32 x = true ↔ finite_valid x.
Proof.
  unfold finite_float32, F32.valid.
  destruct x as [| | |s m e]; simpl; rewrite ?andb_true_iff;
    intuition congruence.
Qed.

Lemma nonneg_one : nonneg_float F32.one ∧ B2R F32.one = 1.
Proof.
  split; [reflexivity|]. unfold F32.one, B2R, cond_Zopp, F2R.
  change 8388608%Z with (2 ^ 23)%Z.
  rewrite <- (bpow_IZR 23), <- bpow_add by lia. reflexivity.
Qed.

Lemma nonneg_c255 : nonneg_float F32.c255 ∧ B2R F32.c255 = 255.
Proof.
  split; [reflexivity|]. unfold F32.c255, B2R, cond_Zopp.
  change 16711680%Z with (255 * 2 ^ 16)%Z.
  rewrite <- (F2R_shift 255 (-16) 16) by lia. unfold F2R. simpl. lra.
Qed.

(** The product of the format is commutative. *)
Lemma mul_comm x y : F32.mul x y = F32.mul y x.
Proof.
  unfold F32.mul, SFmul.
  destruct x as [sx|sx| |sx mx ex], y as [sy|sy| |sy my ey];
    rewrite ?(xorb_comm sx sy); try done.
  by rewrite Pos.mul_comm, Z.add_comm.
Qed.

Lemma min2_finite x y :
  finite_valid x → finite_valid y →
  (F32.min2 x y = x ∨ F32.min2 x y = y)
  ∧ B2R (F32.min2 x y) <= B2R x ∧ B2R (F32.min2 x y) <= B2R y.
Proof.
  intros Hx Hy. unfold F32.min2.
  assert (F32.is_nan x = false) as -> by (by destruct x).
  assert (F32.is_nan y = false) as -> by (by destruct y).
  destruct (F32.ltb y x) eqn:E.
  - apply ltb_finite in E; [|done..]. split; [by right|lra].
  - split; [by left|]. split; [lra|].
    destruct (Rle_or_lt (B2R x) (B2R y)) as [|Hlt]; [done|].
    apply ltb_finite in Hlt; [|done..]. congruence.
Qed.

Lemma max2_finite x y :
  finite_valid x → finite_valid y →
  (F32.max2 x y = x ∨ F32.max2 x y = y)
  ∧ B2R x <= B2R (F32.max2 x y) ∧ B2R y <= B2R (F32.max2 x y).
Proof.
  intros Hx Hy. unfold F32.max2.
  assert (F32.is_nan x = false) as -> by (by destruct x).
  assert (F32.is_nan y = false) as -> by (by destruct y).
  destruct (F32.ltb x y) eqn:E.
  - apply ltb_finite in E; [|done..]. split; [by right|lra].
  - split; [by left|]. split; [lra|].
    destruct (Rle_or_lt (B2R y) (B2R x)) as [|Hlt]; [done|].
    apply ltb_finite in Hlt; [|done..]. congruence.
Qed.

(** The minimum of finite values is one of them, below all of them. *)
Lemma foldl_min2_finite (l : Tensor1) x :
  finite_valid x → Forall finite_valid l →
  finite_valid (foldl F32.min2 x l)
  ∧ foldl F32.min2 x l ∈ x :: l
  ∧ Forall (λ y, B2R (foldl F32.min2 x l) <= B2R y) (x :: l).
Proof.
  revert x. induction l as [|y l IH]; intros x Hx Hl; simpl.
  - split; [done|]. split; [by left|]. apply Forall_cons. split; [lra|done].
  - apply Forall_cons in Hl as [Hy Hl].
    destruct (min2_finite x y Hx Hy) as (Hor & Hlx & Hly).
    assert (finite_valid (F32.min2 x y)) as Hm
      by (destruct Hor as [-> | ->]; done).
    destruct (IH _ Hm Hl) as (Hf & Hin & Hall).
    apply Forall_cons in Hall as [Hall0 Hall].
    split; [done|]. split.
    + apply elem_of_cons in Hin as [->|Hin].
      * destruct Hor as [-> | ->]; [by left|by right; left].
      * by right; right.
    + apply Forall_cons. split; [lra|]. apply Forall_cons. split; [lra|done].
Qed.

Lemma foldl_max2_finite (l : Tensor1) x :
  finite_valid x → Forall finite_valid l →
  finite_valid (foldl F32.max2 x l)
  ∧ foldl F32.max2 x l ∈ x :: l
  ∧ Forall (λ y, B2R y <= B2R (foldl F32.max2 x l)) (x :: l).
Proof.
  revert x. induction l as [|y l IH]; intros x Hx Hl; simpl.
  - split; [done|]. split; [by left|]. apply Forall_cons. split; [lra|done].
  - apply Forall_cons in Hl as [Hy Hl].
    destruct (max2_finite x y Hx Hy) as (Hor & Hlx & Hly).
    assert (finite_valid (F32.max2 x y)) as Hm
      by (destruct Hor as [-> | ->]; done).
    destruct (IH _ Hm Hl) as (Hf & Hin & Hall).
    apply Forall_cons in Hall as [Hall0 Hall].
    split; [done|]. split.
    + apply elem_of_cons in Hin as [->|Hin].
      * destruct Hor as [-> | ->]; [by left|by right; left].
      * by right; right.
    + apply Forall_cons. split; [lra|]. apply Forall_cons. split; [lra|done].
Qed.

(** The normalised value of an element between the minimum and the
    maximum lies between zero and one. *)
Lemma normalized_in_unit x lo hi :
  finite_valid x → finite_valid lo → finite_valid hi →
  B2R lo <= B2R x <= B2R hi → B2R lo < B2R hi →
  F32.is_finite (F32.sub hi lo) = true →
  nonneg_float (F32.div (F32.sub x lo) (F32.sub hi lo))
  ∧ B2R (F32.div (F32.sub x lo) (F32.sub hi lo)) <= 1.
Proof.
  intros Hx Hlo Hhi [Hlx Hxh] Hlh Hfin.
  destruct (sub_rounded hi lo Hhi Hlo ltac:(lra)) as [HD HD0].
  destruct (sub_rounded x lo Hx Hlo Hlx) as [Ha _].
  specialize (HD0 Hlh).
  destruct (rounded_mono _ _ _ _ Ha HD ltac:(lra) Hfin) as [Hna Hle].
  destruct (rounded_mono _ _ _ _ HD HD ltac:(lra) Hfin) as [HnD _].
  destruct (F32.sub hi lo) as [sD| | |[] mD eD]; try done.
  { by destruct (HD0 sD). }
  destruct (F32.sub x lo) as [sa| | |[] ma ea]; try done.
  { split; [done|]. simpl. lra. }
  cbn [B2R cond_Zopp nonneg_float] in *.
  pose proof (F2R_pos mD eD) as HDpos. pose proof (F2R_pos ma ea) as Hapos.
  destruct nonneg_one as [H1 H1v].
  rewrite <- H1v.
  apply (rounded_le_float _ _ _ (div_rounded ma ea mD eD) H1).
  rewrite H1v. apply (Rmult_le_reg_r (F2R (Zpos mD) eD)); [done|].
  unfold Rdiv. rewrite Rmult_assoc, Rinv_l by lra. lra.
Qed.

Lemma unit_mul p q :
  nonneg_float p → B2R p <= 1 → nonneg_float q → B2R q <= 1 →
  nonneg_float (F32.mul p q) ∧ B2R (F32.mul p q) <= 1.
Proof.
  intros Hp Hp1 Hq Hq1. destruct nonneg_one as [H1 H1v].
  rewrite <- H1v.
  apply (rounded_le_float _ _ _ (mul_rounded p q Hp Hq) H1).
  rewrite H1v.
  pose proof (nonneg_float_B2R p Hp). pose proof (nonneg_float_B2R q Hq).
  nra.
Qed.

Lemma scale_255 p :
  nonneg_float p → B2R p <= 1 → in_0_255 (F32.mul p F32.c255) = true.
Proof.
  intros Hp Hp1. destruct nonneg_c255 as [Hc Hcv].
  destruct (rounded_le_float _ _ _ (mul_rounded p _ Hp Hc) Hc) as [Hn Hle].
  { rewrite Hcv. pose proof (nonneg_float_B2R p Hp). nra. }
  unfold in_0_255. apply andb_true_iff. split.
  - apply leb_finite; [done|by apply nonneg_float_finite_valid|].
    simpl. by apply nonneg_float_B2R.
  - apply leb_finite;
      [by apply nonneg_float_finite_valid
      |by apply nonneg_float_finite_valid|done].
Qed.

End projection.

Lemma entry_projection (n : Tensor1) i j :
  entry ((λ r : Tensor1, (λ x, F32.mul x F32.c255) <$> r) <$> outer n) i j
  = (a ← n !! i; b ← n !! j; Some (F32.mul (F32.mul a b) F32.c255)).
Proof.
  unfold entry, outer. rewrite !list_lookup_fmap.
  destruct (n !! i) as [a|]; simpl; [|done].
  rewrite !list_lookup_fmap. by destruct (n !! j).
Qed.

(** Whatever the vector, when the projection returns, its image is square
    of the side of the vector and symmetric. *)
Lemma projection_square_symmetric (embedding : Tensor1) (image : Tensor2) :
  get_embedding_as_image_tensor embedding = Ok image →
  square (length embedding) image
  ∧ ∀ i j, entry image i j = entry image j i.
Proof.
  unfold get_embedding_as_image_tensor.
  destruct (tensor_min embedding) as [lo|]; simpl; [|done].
  destruct (tensor_max embedding) as [hi|]; simpl; [|done].
  intros [= <-]. set (n := min_max_normalize embedding lo hi).
  assert (length n = length embedding) as Hn
    by (unfold n, min_max_normalize; by rewrite length_fmap).
  split; [split|].
  - unfold outer. by rewrite !length_fmap.
  - unfold outer. rewrite <- list_fmap_compose. apply Forall_fmap.
    apply Forall_forall. intros x _. simpl. by rewrite !length_fmap.
  - intros i j. rewrite !entry_projection.
    destruct (n !! i) as [a|], (n !! j) as [b|]; simpl; try done.
    by rewrite (mul_comm a b).
Qed.

(** C3, as amended: for every vector of finite binary32 values whose
    maximum differs from its minimum and whose range [max - min] does not
    overflow, the projection returns an image (the same for the same
    vector: it is a function) that is square of the side of the vector,
    symmetric, and has all its entries in [0, 255]. *)
Theorem projection_symmetric_in_range (embedding : Tensor1)
    (lo hi : spec_float) :
  Forall (λ x, finite_float32 x = true) embedding →
  tensor_min embedding = Ok lo →
  tensor_max embedding = Ok hi →
  F32.eqb hi lo = false →
  F32.is_finite (F32.sub hi lo) = true →
  ∃ image,
    get_embedding_as_image_tensor embedding = Ok image
    ∧ square (length embedding) image
    ∧ (∀ i j, entry image i j = entry image j i)
    ∧ Forall (Forall (λ x, in_0_255 x = true)) image.
Proof.
  intros Hfin Hmin Hmax Hne Hrange.
  assert (Forall finite_valid embedding) as Hfv.
  { eapply Forall_impl; [done|]. intros x. apply finite_float32_valid. }
  destruct embedding as [|x0 l]; [done|].
  simpl in Hmin, Hmax. injection Hmin as <-. injection Hmax as <-.
  pose proof Hfv as Hall. apply Forall_cons in Hfv as [Hx0 Hl].
  destruct (foldl_min2_finite l x0 Hx0 Hl) as (Hlo & Hlo_in & Hlo_le).
  destruct (foldl_max2_finite l x0 Hx0 Hl) as (Hhi & Hhi_in & Hhi_le).
  set (lo := foldl F32.min2 x0 l) in *. set (hi := foldl F32.max2 x0 l) in *.
  rewrite Forall_forall in Hlo_le, Hhi_le, Hall.
  assert (B2R lo < B2R hi)%R as Hlt.
  { destruct (Hhi_le lo Hlo_in) as [|Heq]; [done|]. symmetry in Heq.
    apply (eqb_finite hi lo Hhi Hlo) in Heq. congruence. }
  set (n := min_max_normalize (x0 :: l) lo hi).
  assert (get_embedding_as_image_tensor (x0 :: l)
          = Ok ((λ r : Tensor1, (λ x, F32.mul x F32.c255) <$> r) <$> outer n))
    as Himg by reflexivity.
  eexists. split; [exact Himg|].
  destruct (projection_square_symmetric _ _ Himg) as [Hsq Hsym].
  split; [done|]. split; [done|].
  assert (∀ a, a ∈ n → nonneg_float a ∧ (B2R a <= 1)%R) as Hunit.
  { intros a Ha. unfold n, min_max_normalize in Ha.
    apply list_elem_of_fmap in Ha as (x & -> & Hx).
    apply normalized_in_unit; try done; [by apply Hall|].
    split; [by apply Hlo_le|by apply Hhi_le]. }
  clearbody n. apply Forall_forall. intros row Hrow.
  apply list_elem_of_fmap in Hrow as (r0 & -> & Hr0). unfold outer in Hr0.
  apply list_elem_of_fmap in Hr0 as (a & -> & Ha).
  apply Forall_forall. intros x Hx.
  apply list_elem_of_fmap in Hx as (p & -> & Hp).
  apply list_elem_of_fmap in Hp as (b & -> & Hb).
  destruct (Hunit a Ha) as [Hna Ha1]. destruct (Hunit b Hb) as [Hnb Hb1].
  destruct (unit_mul a b Hna Ha1 Hnb Hb1) as [Hnp Hp1].
  by apply scale_255.
Qed.

Lemma projection_symmetric_in_range_witness :
  ∃ image,
    get_embedding_as_image_tensor [F32.one; F32.zero; F32.c255] = Ok image
    ∧ square 3 image
    ∧ (∀ i j, entry image i j = entry image j i)
    ∧ Forall (Forall (λ x, in_0_255 x = true)) image.
Proof.
  apply (projection_symmetric_in_range [F32.one; F32.zero; F32.c255]
           F32.zero F32.c255); [repeat constructor|reflexivity..].
Defined.

(** C3 as stated fails: the vector of the largest finite binary32 value
    and its opposite has finite entries and a maximum that differs from
    its minimum, but [max - min] overflows to infinity, the normalised
    maximum is [inf / inf], and the image has NaN entries, which are not
    in [0, 255]. *)
Lemma projection_range_overflow_counterexample :
  let embedding := [F32.max_float; SFopp F32.max_float] in
  ∃ lo hi image,
    Forall (λ x, finite_float32 x = true) embedding
    ∧ tensor_min embedding = Ok lo
    ∧ tensor_max embedding = Ok hi
    ∧ F32.eqb hi lo = false
    ∧ F32.sub hi lo = S754_infinity false
    ∧ get_embedding_as_image_tensor embedding = Ok image
    ∧ entry image 0 0 = Some S754_nan
    ∧ ¬ Forall (Forall (λ x, in_0_255 x = true)) image.
Proof.
  eexists _, _, _. split; [repeat constructor|].
  split; [reflexivity|]. split; [reflexivity|]. split; [reflexivity|].
  split; [reflexivity|]. split; [reflexivity|]. split; [reflexivity|].
  intros Hall. apply Forall_cons in Hall as [Hrow _].
  apply Forall_cons in Hrow as [Hnan _]. discriminate Hnan.
Qed.

(** ** The class mapping *)

(** The order of Python on strings is a total order. *)
Lemma string_compare_refl s : String.compare s s = Eq.
Proof.
  induction s as [|a s IH]; simpl; [done|].
  unfold Ascii.compare. by rewrite N.compare_refl.
Qed.

Lemma string_compare_trans c s1 s2 s3 :
  String.compare s1 s2 = c → String.compare s2 s3 = c →
  String.compare s1 s3 = c.
Proof.
  revert s2 s3. induction s1 as [|a1 s1 IH]; intros [|a2 s2] [|a3 s3];
    simpl; try congruence.
  unfold Ascii.compare.
  destruct (N.compare_spec (Ascii.N_of_ascii a1) (Ascii.N_of_ascii a2)) as [E12|L12|G12];
  destruct (N.compare_spec (Ascii.N_of_ascii a2) (Ascii.N_of_ascii a3)) as [E23|L23|G23];
    intros H1 H2; subst; try congruence.
  - rewrite E12, E23, N.compare_refl. eauto.
  - rewrite E12. by apply N.compare_lt_iff in L23 as ->.
  - rewrite E12. by apply N.compare_gt_iff in G23 as ->.
  - rewrite <- E23. by apply N.compare_lt_iff in L12 as ->.
  - assert (Ascii.N_of_ascii a1 < Ascii.N_of_ascii a3)%N as L by lia.
    by apply N.compare_lt_iff in L as ->.
  - rewrite <- E23. by apply N.compare_gt_iff in G12 as ->.
  - assert (Ascii.N_of_ascii a3 < Ascii.N_of_ascii a1)%N as L by lia.
    by apply N.compare_gt_iff in L as ->.
Qed.

#[global] Instance string_le_po : PartialOrder string_le.
Proof.
  split; [split|].
  - intros s. unfold string_le, String.leb. by rewrite string_compare_refl.
  - intros s1 s2 s3. unfold string_le, String.leb.
    destruct (String.compare s1 s2) eqn:E12; [| |done];
    destruct (String.compare s2 s3) eqn:E23; try done; intros _ _.
    + by rewrite (string_compare_trans Eq s1 s2 s3).
    + apply String.compare_eq_iff in E12 as ->. by rewrite E23.
    + apply String.compare_eq_iff in E23 as <-. by rewrite E12.
    + by rewrite (string_compare_trans Lt s1 s2 s3).
  - intros s1 s2. apply String.leb_antisym.
Qed.

#[global] Instance string_le_total : Total string_le.
Proof. intros s1 s2. apply String.leb_total. Qed.

Section class_mapping.
Context `{Countable K} (R : relation K).
Context `{!RelDecision R, !PartialOrder R, !Total R}.

Lemma sorted_unique_sorted (l : list K) : StronglySorted R (sorted_unique R l).
Proof. apply StronglySorted_merge_sort; apply _. Qed.

Lemma sorted_unique_NoDup (l : list K) : NoDup (sorted_unique R l).
Proof.
  unfold sorted_unique. rewrite merge_sort_Permutation.
  apply NoDup_remove_dups.
Qed.

Lemma elem_of_sorted_unique (l : list K) x : x ∈ sorted_unique R l ↔ x ∈ l.
Proof.
  unfold sorted_unique. rewrite merge_sort_Permutation.
  apply elem_of_remove_dups.
Qed.

Lemma length_sorted_unique (l : list K) :
  length (sorted_unique R l) = size (list_to_set l : gset K).
Proof.
  rewrite <- (size_list_to_set (C:=gset K)) by apply sorted_unique_NoDup.
  f_equal. apply set_eq. intros x.
  by rewrite !elem_of_list_to_set, elem_of_sorted_unique.
Qed.

Lemma foldl_enumerate_lookup (l : list K) a (m : gmap K nat) k i :
  NoDup l →
  (foldl (λ m p, <[p.2 := p.1]> m) m (zip (seq a (length l)) l)) !! k
    = Some i
  ↔ ((∃ j, l !! j = Some k ∧ i = a + j) ∨ ((k ∉ l) ∧ m !! k = Some i)).
Proof.
  revert a m. induction l as [|x l IH]; intros a m Hnd; simpl.
  - split; [intros ?; right; split; [apply not_elem_of_nil|done]|].
    intros [(j & Hj & _)|[_ ?]]; [by rewrite lookup_nil in Hj|done].
  - apply NoDup_cons in Hnd as [Hx Hnd]. rewrite IH by done. split.
    + intros [(j & Hj & ->)|[Hk Hm]].
      * left. exists (S j). split; [done|lia].
      * destruct (decide (k = x)) as [->|Hne].
        -- rewrite lookup_insert_eq in Hm. injection Hm as <-.
           left. exists 0. split; [done|lia].
        -- rewrite lookup_insert_ne in Hm by done. right.
           split; [|done]. rewrite elem_of_cons. tauto.
    + intros [(j & Hj & ->)|[Hk Hm]].
      * destruct j as [|j]; simpl in Hj.
        -- injection Hj as ->. right. split; [done|].
           rewrite lookup_insert_eq. f_equal. lia.
        -- left. exists j. split; [done|lia].
      * right. rewrite elem_of_cons in Hk. split; [tauto|].
        rewrite lookup_insert_ne; [done|]. intros ->. tauto.
Qed.

Lemma enumerate_dict_lookup (l : list K) k i :
  NoDup l → enumerate_dict l !! k = Some i ↔ l !! i = Some k.
Proof.
  intros Hnd. unfold enumerate_dict. rewrite foldl_enumerate_lookup by done.
  split.
  - intros [(j & Hj & ->)|[_ Hm]]; [done|by rewrite lookup_empty in Hm].
  - intros Hi. left. by exists i.
Qed.

(** In a sorted list without duplicates, the position of a value is the
    number of values strictly below it. *)
Lemma sorted_position_rank (l : list K) i v :
  StronglySorted R l → NoDup l → l !! i = Some v →
  size (filter (λ w, strict R w v) (list_to_set l : gset K)) = i.
Proof.
  intros Hs Hnd Hi.
  assert (i < length l) as Hlt by (by eapply lookup_lt_Some).
  rewrite <- (take_drop_middle l i v Hi) in Hs, Hnd.
  apply NoDup_app in Hnd as (Hnd1 & Hdisj & Hnd2).
  apply NoDup_cons in Hnd2 as [Hv2 Hnd2].
  assert (filter (λ w, strict R w v) (list_to_set l : gset K)
          = list_to_set (take i l)) as ->.
  { apply set_eq. intros w.
    rewrite elem_of_filter, !elem_of_list_to_set.
    rewrite <- (take_drop_middle l i v Hi) at 1.
    rewrite elem_of_app, elem_of_cons. split.
    - intros [[Hwv Hvw] [Hw|[->|Hw]]]; [done| |].
      + by destruct Hvw.
      + destruct Hvw. apply StronglySorted_app_1_r in Hs.
        apply StronglySorted_cons in Hs as [Hall _].
        rewrite Forall_forall in Hall. by apply Hall.
    - intros Hw. split; [|by left].
      assert (R w v) as Hwv.
      { eapply (StronglySorted_app_1_elem_of R); [done|done|]. by left. }
      split; [done|]. intros Hvw.
      assert (w = v) as -> by (by apply (anti_symm R)).
      apply (Hdisj v Hw). by left. }
  rewrite size_list_to_set by done. rewrite length_take. lia.
Qed.

End class_mapping.

(** C4: [find_classnum_mapping] sends each distinct type to its position
    in ascending sorted order, that is to the number of distinct types
    strictly below it; it is defined on the types of the records and on
    nothing else; with [n] distinct types its image is exactly
    [{0, ..., n-1}]; and it is strictly increasing. *)
Theorem find_classnum_mapping_sorted_positions (data : list LabeledRecord) :
  let mapping := find_classnum_mapping data in
  let types : gset string := list_to_set (r_type <$> data) in
  let n := size types in
  (∀ v, v ∈ types →
     mapping !! v = Some (size (filter (λ w, string_lt w v) types)))
  ∧ (∀ v, v ∉ types → mapping !! v = None)
  ∧ (∀ i, i < n ↔ ∃ v, mapping !! v = Some i)
  ∧ (∀ v1 v2 i1 i2,
       mapping !! v1 = Some i1 → mapping !! v2 = Some i2 →
       string_lt v1 v2 → i1 < i2).
Proof.
  intros mapping types n.
  set (l := sorted_unique string_le (r_type <$> data)).
  assert (NoDup l) as Hnd by apply sorted_unique_NoDup.
  assert (StronglySorted string_le l) as Hs
    by (apply sorted_unique_sorted; apply _).
  assert (∀ v, v ∈ l ↔ v ∈ types) as Hel.
  { intros v. unfold l, types.
    by rewrite elem_of_sorted_unique, elem_of_list_to_set. }
  assert (types = list_to_set l) as Htypes.
  { apply set_eq. intros v. by rewrite elem_of_list_to_set, Hel. }
  assert (length l = n) as Hlen.
  { unfold n. rewrite Htypes. symmetry. by apply size_list_to_set. }
  assert (∀ v i, mapping !! v = Some i ↔ l !! i = Some v) as Hmap.
  { intros v i. by apply enumerate_dict_lookup. }
  split; [|split; [|split]].
  - intros v Hv. apply Hel in Hv.
    apply list_elem_of_lookup in Hv as [i Hi].
    rewrite Htypes.
    rewrite (sorted_position_rank string_le l i v Hs Hnd Hi).
    by apply Hmap.
  - intros v Hv. destruct (mapping !! v) as [i|] eqn:E; [|done].
    apply Hmap in E. destruct Hv. apply Hel.
    apply list_elem_of_lookup. by exists i.
  - intros i. rewrite <- Hlen. split.
    + intros Hi. apply lookup_lt_is_Some in Hi as [v Hv].
      exists v. by apply Hmap.
    + intros [v Hv]. apply Hmap in Hv. by eapply lookup_lt_Some.
  - intros v1 v2 i1 i2 H1 H2 Hlt.
    apply Hmap in H1. apply Hmap in H2.
    destruct (decide (i1 < i2)) as [|Hge]; [done|].
    assert (i2 ≤ i1) as Hle by lia.
    destruct Hlt as [H12 H21]. destruct H21.
    destruct (decide (i1 = i2)) as [->|Hne].
    { rewrite H1 in H2. injection H2 as ->. done. }
    assert (i2 < i1) as Hlt' by lia.
    rewrite <- (take_drop_middle l i2 v2 H2) in Hs.
    apply StronglySorted_app_1_r in Hs.
    apply StronglySorted_cons in Hs as [Hall _].
    rewrite Forall_forall in Hall. apply Hall.
    apply list_elem_of_lookup. exists (i1 - S i2).
    rewrite lookup_drop. rewrite <- H1. f_equal. lia.
Qed.

Example find_classnum_mapping_example :
  find_classnum_mapping
    [ {| r_type := "human"; r_text := "a" |};
      {| r_type := "bot"; r_text := "b" |};
      {| r_type := "human"; r_text := "c" |};
      {| r_type := "gpt"; r_text := "d" |} ]
  = {[ "bot" := 0; "gpt" := 1; "human" := 2 ]}.
Proof. by vm_compute. Qed.

(** ** The lazy dataset *)

(** The types with no class number: those of the records that are not
    keys of the mapping. *)
Lemma missing_types_spec (data : list LabeledRecord) (m : gmap string Z) t :
  t ∈ (list_to_set (remove_dups (r_type <$> data)) ∖ dom m : gset string)
  ↔ (∃ r, r ∈ data ∧ r_type r = t) ∧ m !! t = None.
Proof.
  rewrite elem_of_difference, elem_of_list_to_set, elem_of_remove_dups.
  rewrite list_elem_of_fmap, not_elem_of_dom.
  split; intros [(r & H1 & H2) Hm]; (split; [|done]); exists r; done.
Qed.

(** With every type covered, the constructor keeps what it was given. *)
Lemma lazy_post_init_covered (data : list LabeledRecord)
    (mapping : gmap string Z) :
  (∀ r, r ∈ data → is_Some (mapping !! r_type r)) →
  LazyHumanChatBotDataset.__post_init__ data mapping
  = Ok {| LazyHumanChatBotDataset.data := data;
          LazyHumanChatBotDataset.article_type_to_classnum := mapping |}.
Proof.
  intros Hall. unfold LazyHumanChatBotDataset.__post_init__.
  rewrite bool_decide_eq_false_2; [done|].
  intros Hne. apply Hne. apply set_eq. intros t.
  rewrite missing_types_spec. split; [|by intros ?%not_elem_of_empty].
  intros [(r & Hr & <-) Hnone]. destruct (Hall r Hr) as [? ?]. congruence.
Qed.

(** C2: the constructor of the lazy dataset raises, with the set of the
    missing types, exactly when a record has a type with no entry in the
    mapping, and this set is then not empty; it succeeds, keeping the
    records and the mapping as given, exactly when every type of the
    records has an entry.  The check is the constructor's own: no item is
    read and nothing is embedded to reach the verdict.  (The exception is
    Python's [ValueError], with the message "Missing classnumber for
    types: ..."; this is the error the design calls MissingMappingError.) *)
Theorem lazy_construction_checks_mapping (data : list LabeledRecord)
    (mapping : gmap string Z) :
  ((∃ r, r ∈ data ∧ mapping !! r_type r = None)
     ↔ ∃ missing, LazyHumanChatBotDataset.__post_init__ data mapping
                  = Raise (ValueError missing)
                  ∧ missing ≠ ∅
                  ∧ ∀ t, t ∈ missing
                      ↔ (∃ r, r ∈ data ∧ r_type r = t) ∧ mapping !! t = None)
  ∧ ((∀ r, r ∈ data → is_Some (mapping !! r_type r))
     ↔ LazyHumanChatBotDataset.__post_init__ data mapping
       = Ok {| LazyHumanChatBotDataset.data := data;
               LazyHumanChatBotDataset.article_type_to_classnum := mapping |}).
Proof.
  unfold LazyHumanChatBotDataset.__post_init__.
  pose proof (missing_types_spec data mapping) as Hspec.
  set (missing := list_to_set (remove_dups (r_type <$> data)) ∖ dom mapping)
    in *.
  split.
  - split.
    + intros (r & Hr & Hnone).
      assert (r_type r ∈ missing) as Hin by (apply Hspec; eauto).
      assert (missing ≠ ∅) as Hne.
      { intros Hempty. rewrite Hempty in Hin. by apply not_elem_of_empty in Hin. }
      rewrite bool_decide_eq_true_2 by done.
      exists missing. done.
    + intros (ms & Heq & Hne & Hms). case_bool_decide as Hd; [|done].
      injection Heq as <-.
      apply set_choose_L in Hne as [t Ht].
      apply Hspec in Ht as [(r & Hr & <-) Hnone]. eauto.
  - split.
    + fold (LazyHumanChatBotDataset.__post_init__ data mapping).
      apply lazy_post_init_covered.
    + case_bool_decide as Hd; [done|]. intros _ r Hr.
      destruct (mapping !! r_type r) eqn:E; [done|].
      assert (r_type r ∈ missing) as Hin by (apply Hspec; eauto).
      assert (missing = ∅) as Hempty.
      { destruct (decide (missing = ∅)) as [|Hne]; [done|by destruct Hd]. }
      rewrite Hempty in Hin. by apply not_elem_of_empty in Hin.
Qed.

Example lazy_construction_missing_type :
  LazyHumanChatBotDataset.__post_init__
    [ {| r_type := "human"; r_text := "a" |};
      {| r_type := "bot"; r_text := "b" |} ]
    {[ "human" := 0%Z ]}
  = Raise (ValueError {[ "bot" ]}).
Proof. by vm_compute. Qed.

(** C10: when the keys of the mapping cover the types of the records, the
    constructor of the lazy dataset accepts the mapping whatever its
    values, and reading the item at the index of a record returns the
    embedding of its text together with the value that the mapping gives
    to its type, unchanged. *)
Theorem lazy_labels_are_raw_mapping_values `{!ArticleEmbedder}
    (data : list LabeledRecord) (mapping : gmap string Z) :
  (∀ r, r ∈ data → is_Some (mapping !! r_type r)) →
  ∃ ds, LazyHumanChatBotDataset.__post_init__ data mapping = Ok ds
        ∧ LazyHumanChatBotDataset.__len__ ds = length data
        ∧ ∀ idx r, data !! idx = Some r →
            ∃ label, mapping !! r_type r = Some label
                     ∧ LazyHumanChatBotDataset.__getitem__ ds idx
                       = Ok (embed (r_text r), label).
Proof.
  intros Hall.
  eexists. split; [by apply lazy_post_init_covered|]. split; [done|].
  intros idx r Hr.
  destruct (Hall r) as [label Hlabel]; [by eapply list_elem_of_lookup_2|].
  exists label. split; [done|].
  unfold LazyHumanChatBotDataset.__getitem__,
    LazyHumanChatBotDataset.get_class_num. simpl.
  by rewrite Hr, Hlabel.
Qed.

(** ** The image dataset: cached and on-demand projection *)

Section image_dataset.
Context `{!ResizeTransform}.
Import ImageByCrossMultiplicationDataset.

Lemma precompute_step_Ok ds rz (c0 c1 : gmap nat Tensor2) a :
  precompute_step ds rz c0 a = Ok c1 →
  ∃ embedding label image,
    HumanChatBotDataset.__getitem__ ds a = Ok (embedding, label)
    ∧ project rz embedding = Ok image
    ∧ c1 = <[a := image]> c0.
Proof.
  unfold precompute_step.
  destruct (HumanChatBotDataset.__getitem__ ds a) as [[e lab]|?] eqn:Hget;
    simpl; [|done].
  destruct (project rz e) as [img|?] eqn:Himg; simpl; [|done].
  intros [= <-]. by exists e, lab, img.
Qed.

Lemma precompute_step_Raise ds rz (c0 : gmap nat Tensor2) a e :
  precompute_step ds rz c0 a = Raise e →
  ('(embedding, label) ← HumanChatBotDataset.__getitem__ ds a;
   image ← project rz embedding; Ok (image, label)) = Raise e.
Proof.
  unfold precompute_step.
  destruct (HumanChatBotDataset.__getitem__ ds a) as [[em lab]|?]; simpl;
    [|by intros [= ->]].
  destruct (project rz em) as [img|?]; simpl; [done|by intros [= ->]].
Qed.

(** What the precomputation loop leaves in the cache: under each index it
    has run over, the image of that sample; elsewhere, what was there. *)
Lemma precompute_loop_cache ds rz (l : list nat) (c0 c : gmap nat Tensor2) :
  for_each (precompute_step ds rz) c0 l = Ok c →
  (∀ i, i ∈ l →
     ∃ embedding label image,
       HumanChatBotDataset.__getitem__ ds i = Ok (embedding, label)
       ∧ project rz embedding = Ok image
       ∧ c !! i = Some image)
  ∧ (∀ i, i ∉ l → c !! i = c0 !! i).
Proof.
  revert c0. induction l as [|a l IH]; intros c0; simpl.
  - intros [= <-]. split; [by intros i ?%not_elem_of_nil|done].
  - destruct (precompute_step ds rz c0 a) as [c1|] eqn:Hstep; simpl; [|done].
    apply precompute_step_Ok in Hstep as (e & lab & img & Hget & Himg & ->).
    intros Hloop. destruct (IH _ Hloop) as [Hin Hout]. split.
    + intros i Hi. destruct (decide (i ∈ l)) as [|Hnl]; [by apply Hin|].
      apply elem_of_cons in Hi as [->|]; [|done].
      exists e, lab, img. rewrite (Hout a Hnl), lookup_insert_eq. done.
    + intros i Hi. apply not_elem_of_cons in Hi as [Hne Hnl].
      rewrite (Hout i Hnl). by rewrite lookup_insert_ne.
Qed.

(** When the precomputation loop raises, the item it was working on is
    one whose on-demand computation raises the same exception. *)
Lemma precompute_loop_raises ds rz (l : list nat) (c0 : gmap nat Tensor2) e :
  for_each (precompute_step ds rz) c0 l = Raise e →
  ∃ i, i ∈ l ∧
    ('(embedding, label) ← HumanChatBotDataset.__getitem__ ds i;
     image ← project rz embedding; Ok (image, label)) = Raise e.
Proof.
  revert c0. induction l as [|a l IH]; intros c0; simpl; [done|].
  destruct (precompute_step ds rz c0 a) as [c1|e1] eqn:Hstep; simpl.
  - intros (i & Hi & Hr)%IH. exists i. split; [by right|done].
  - intros [= <-]. exists a. split; [by left|].
    by apply precompute_step_Raise in Hstep.
Qed.

(** C8: for a store [ds] and either value of the resize flag, if the
    image dataset can be built with precomputation, then it can be built
    without, and at every index below the length of the store the two
    datasets return the same pair of an image and a label. *)
Theorem precompute_getitem_agree (ds : HumanChatBotDataset.t) (rz : bool)
    (cached : ImageByCrossMultiplicationDataset.t) :
  __post_init__ ds rz true = Ok cached →
  ∃ on_demand,
    __post_init__ ds rz false = Ok on_demand
    ∧ ∀ idx, idx < HumanChatBotDataset.__len__ ds →
        ∃ image label,
          __getitem__ cached idx = Ok (image, label)
          ∧ __getitem__ on_demand idx = Ok (image, label).
Proof.
  unfold __post_init__.
  destruct (if rz then DEFAULT_IMAGE_SHAPE else _) as [h w].
  destruct (for_each _ _ _) as [c|] eqn:Hloop; simpl; [|done].
  intros [= <-]. eexists. split; [done|].
  intros idx Hidx. apply precompute_loop_cache in Hloop as [Hin _].
  destruct (Hin idx) as (e & lab & img & Hget & Himg & Hc).
  { apply elem_of_seq. lia. }
  exists img, lab. unfold __getitem__; simpl. rewrite Hget; simpl.
  rewrite Himg; simpl. split; [|done].
  rewrite bool_decide_eq_true_2.
  - by rewrite Hc.
  - intros Hempty. by rewrite Hempty, lookup_empty in Hc.
Qed.

(** The other case of C8: if building with precomputation raises, some
    item of the dataset built without raises the same exception when it
    is read. *)
Lemma precompute_failure_shows_on_demand (ds : HumanChatBotDataset.t)
    (rz : bool) e :
  __post_init__ ds rz true = Raise e →
  ∃ on_demand idx,
    __post_init__ ds rz false = Ok on_demand
    ∧ idx < HumanChatBotDataset.__len__ ds
    ∧ __getitem__ on_demand idx = Raise e.
Proof.
  unfold __post_init__.
  destruct (if rz then DEFAULT_IMAGE_SHAPE else _) as [h w].
  destruct (for_each _ _ _) as [c|e'] eqn:Hloop; simpl; [done|].
  intros [= <-]. apply precompute_loop_raises in Hloop as (i & Hi & Hr).
  eexists _, i. split; [done|]. apply elem_of_seq in Hi. split; [lia|].
  unfold __getitem__; simpl.
  destruct (HumanChatBotDataset.__getitem__ ds i) as [[em lab]|]; simpl in *;
    [|done].
  by rewrite bool_decide_eq_false_2 by (by intros []).
Qed.

End image_dataset.

(** ** Batches *)

Lemma concat_chunks_aux {A} (fuel n : nat) (l : list A) :
  0 < n → length l ≤ fuel → concat (chunks_aux fuel n l) = l.
Proof.
  intros Hn. revert l. induction fuel as [|fuel IH]; intros l Hl; simpl.
  - destruct l; simpl in *; [done|lia].
  - destruct l as [|x l]; [done|].
    change (concat (?a :: ?b)) with (a ++ concat b).
    rewrite IH; [apply take_drop|].
    rewrite length_drop. simpl in *. lia.
Qed.

(** The batches of a pass, put end to end, are the list they were cut
    from: enough fuel is given for every element to be placed. *)
Lemma concat_chunks {A} (n : nat) (l : list A) :
  0 < n → concat (chunks n l) = l.
Proof. intros Hn. by apply concat_chunks_aux. Qed.

Lemma omap_lookup_seq {A} (l : list A) :
  omap (λ i, l !! i) (seq 0 (length l)) = l.
Proof.
  induction l as [|x l IH] using rev_ind; [done|].
  rewrite length_app. simpl length. rewrite Nat.add_1_r, seq_S.
  rewrite omap_app. simpl.
  rewrite (list_omap_ext _ (λ i, l !! i) _ (seq 0 (length l))).
  - rewrite IH. by rewrite list_lookup_middle.
  - apply Forall2_same_length_lookup_2; [done|].
    intros i a b Ha Hb. rewrite Ha in Hb. injection Hb as <-.
    apply lookup_seq in Ha as [-> Hlt]. by rewrite lookup_app_l.
Qed.

(** ** Confusion breakdowns *)

Lemma map_fold_sum_insert {A} (g : A → nat) (m : gmap Z A) i x :
  map_fold (λ _ c acc, g c + acc) 0 (<[i := x]> m) + from_option g 0 (m !! i)
  = g x + map_fold (λ _ c acc, g c + acc) 0 m.
Proof.
  destruct (m !! i) as [y|] eqn:Hi; simpl.
  - rewrite <- insert_delete_eq.
    rewrite map_fold_insert_L; [|intros; lia|apply lookup_delete_eq].
    rewrite (map_fold_delete_L _ _ i y m); [lia|intros; lia|done].
  - rewrite map_fold_insert_L; [lia|intros; lia|done].
Qed.

Lemma inner_total_empty : inner_total ∅ = 0.
Proof. apply map_fold_empty. Qed.

Lemma make_up_total_empty : make_up_total ∅ = 0.
Proof. apply map_fold_empty. Qed.

Lemma inner_total_insert (inner : gmap Z nat) j x :
  inner_total (<[j := x]> inner) + default 0 (inner !! j)
  = x + inner_total inner.
Proof.
  pose proof (map_fold_sum_insert (λ c, c) inner j x) as Hin.
  unfold inner_total. destruct (inner !! j); simpl in *; lia.
Qed.

(** Counting one more sample adds one to the sum of the counts. *)
Lemma make_up_total_incr (make_up : MakeUp) i j :
  make_up_total (make_up_incr make_up i j) = S (make_up_total make_up).
Proof.
  unfold make_up_total, make_up_incr.
  set (inner := default ∅ (make_up !! i)).
  pose proof (map_fold_sum_insert inner_total make_up i
    (<[j := S (default 0 (inner !! j))]> inner)) as Hout.
  pose proof (inner_total_insert inner j (S (default 0 (inner !! j)))) as Hin.
  assert (from_option inner_total 0 (make_up !! i) = inner_total inner)
    as Hdef.
  { unfold inner. destruct (make_up !! i); simpl;
      [done|by rewrite inner_total_empty]. }
  rewrite Hdef in Hout. lia.
Qed.

Lemma make_up_total_foldl (make_up : MakeUp) (l : list (Z * Z)) :
  make_up_total (foldl (λ m p, make_up_incr m p.1 p.2) make_up l)
  = make_up_total make_up + length l.
Proof.
  revert make_up. induction l as [|p l IH]; intros make_up; simpl; [lia|].
  rewrite IH, make_up_total_incr. lia.
Qed.

(** ** The state-and-exception monad *)

Lemma bind_Ok_inv {S A B} (m : M S A) (f : A → M S B) s b s2 :
  (m ≫= f) s = (Ok b, s2) → ∃ a s1, m s = (Ok a, s1) ∧ f a s1 = (Ok b, s2).
Proof.
  unfold mbind, M_bind. destruct (m s) as [[a|e] s1]; [eauto|done].
Qed.

Lemma bind_eq {S A B} (m : M S A) (f : A → M S B) s :
  (m ≫= f) s
  = match m s with
    | (Ok a, s') => f a s'
    | (Raise e, s') => (Raise e, s')
    end.
Proof. done. Qed.

Lemma for_eachM_app {S A B} (body : B → A → M S B) acc (l1 l2 : list A) s :
  for_eachM body acc (l1 ++ l2) s
  = (acc' ← for_eachM body acc l1; for_eachM body acc' l2) s.
Proof.
  revert acc s. induction l1 as [|a l1 IH]; intros acc s; simpl.
  - done.
  - rewrite !bind_eq. destruct (body acc a s) as [[acc'|e] s1]; [|done].
    by rewrite IH.
Qed.

Section keeps.
Context {S : Type} (R : relation S) `{!PreOrder R}.

Lemma keeps_ret {A} (a : A) : keeps R (mret a).
Proof. intros s. simpl. reflexivity. Qed.

Lemma keeps_lift {A} (r : result A) : keeps R (lift r).
Proof. intros s. simpl. reflexivity. Qed.

Lemma keeps_gets {A} (f : S → A) : keeps R (gets f).
Proof. intros s. simpl. reflexivity. Qed.

Lemma keeps_bind {A B} (m : M S A) (f : A → M S B) :
  keeps R m → (∀ a, keeps R (f a)) → keeps R (m ≫= f).
Proof.
  intros Hm Hf s. rewrite bind_eq. specialize (Hm s).
  destruct (m s) as [[a|e] s1]; simpl in *; [|done].
  etrans; [done|apply Hf].
Qed.

Lemma keeps_for_eachM {A B} (body : B → A → M S B) acc l :
  (∀ b a, keeps R (body b a)) → keeps R (for_eachM body acc l).
Proof.
  intros Hbody. revert acc. induction l as [|a l IH]; intros acc; simpl.
  - apply keeps_ret.
  - apply keeps_bind; [apply Hbody|apply IH].
Qed.

End keeps.

(** ** The evaluation pass and the training loop *)

#[global] Instance same_mode_and_record_po {W G} :
  PreOrder (@same_mode_and_record W G).
Proof.
  split; [done|]. intros s1 s2 s3 [? ?] [? ?]. split; congruence.
Qed.
#[global] Instance same_mode_po {W G} : PreOrder (@same_mode W G).
Proof. split; [done|]. intros s1 s2 s3 ? ?. unfold same_mode in *. congruence. Qed.

Section harness.
Context {W X G : Type} `{!Network W X} `{!RandomSampler G} `{!TorchOps}.

Local Abbreviation St := (State W G).
Local Abbreviation frame := (@same_mode_and_record W G).
Local Abbreviation agree := (@agree_in_eval W G _).

Lemma iter_batches_spec (dl : DataLoader X) (s : St) :
  ∃ batches s',
    iter_batches dl s = (Ok batches, s')
    ∧ concat batches ≡ₚ dataset dl
    ∧ same_mode_and_record s s' ∧ weights s' = weights s.
Proof.
  unfold iter_batches.
  assert (0 < Pos.to_nat (batch_size dl)) as Hb by lia.
  destruct (shuffle dl).
  - pose proof (randperm_Permutation (length (dataset dl))
                  (base_seed (generator s))) as Hperm.
    cbv zeta. destruct (randperm _ _) as [perm g]. simpl in Hperm.
    eexists _, _. split; [done|]. split; [|done].
    rewrite concat_chunks by done. rewrite Hperm.
    by rewrite omap_lookup_seq.
  - eexists _, _. split; [done|]. split; [|done].
    by rewrite concat_chunks.
Qed.

Lemma keeps_iter_batches (dl : DataLoader X) : keeps frame (iter_batches dl).
Proof.
  intros s. destruct (iter_batches_spec dl s) as (b & s' & -> & _ & ? & _).
  done.
Qed.

Lemma keeps_call (xs : list X) : keeps frame (call xs).
Proof. done. Qed.

Lemma keeps_accuracy_step acc (batch : list (X * Z)) :
  keeps frame (accuracy_step acc batch).
Proof.
  destruct acc as [c mk]. unfold accuracy_step.
  apply keeps_bind; [apply _|apply keeps_call|]. intros out.
  apply keeps_bind; [apply _|apply keeps_lift; apply _|]. intros n.
  apply keeps_ret; apply _.
Qed.

Lemma keeps_loss_step loss (batch : list (X * Z)) :
  keeps frame (loss_step loss batch).
Proof.
  unfold loss_step.
  apply keeps_bind; [apply _|apply keeps_call|]. intros out.
  apply keeps_bind; [apply _|apply keeps_lift; apply _|]. intros n.
  apply keeps_ret; apply _.
Qed.

Lemma keeps_compute_accuracy (dl : DataLoader X) :
  keeps frame (compute_accuracy dl).
Proof.
  unfold compute_accuracy.
  apply keeps_bind; [apply _|apply keeps_iter_batches|]. intros batches.
  apply keeps_bind;
    [apply _|apply keeps_for_eachM; [apply _|apply keeps_accuracy_step]|].
  intros [c mk].
  apply keeps_bind; [apply _|apply keeps_lift; apply _|]. intros a.
  apply keeps_ret; apply _.
Qed.

Lemma keeps_compute_loss (dl : DataLoader X) : keeps frame (compute_loss dl).
Proof.
  unfold compute_loss.
  apply keeps_bind; [apply _|apply keeps_iter_batches|]. intros batches.
  apply keeps_bind;
    [apply _|apply keeps_for_eachM; [apply _|apply keeps_loss_step]|].
  intros loss. apply keeps_lift; apply _.
Qed.

(** *** The confusion breakdown *)

Lemma accuracy_step_total acc (batch : list (X * Z)) (s : St) acc' s' :
  accuracy_step acc batch s = (Ok acc', s') →
  make_up_total acc'.2 = make_up_total acc.2 + length batch.
Proof.
  destruct acc as [c mk]. unfold accuracy_step.
  intros (out & s1 & Hcall & Hrest)%bind_Ok_inv.
  apply bind_Ok_inv in Hrest as (n & s2 & Hn & Hret).
  injection Hret as <- <-. simpl.
  unfold call in Hcall. injection Hcall as Hfw _.
  apply forward_rows in Hfw.
  rewrite make_up_total_foldl, length_zip, !length_fmap, Hfw, !length_fmap.
  lia.
Qed.

Lemma accuracy_loop_total (batches : list (list (X * Z))) acc (s : St) acc' s' :
  for_eachM accuracy_step acc batches s = (Ok acc', s') →
  make_up_total acc'.2 = make_up_total acc.2 + length (concat batches).
Proof.
  revert acc s. induction batches as [|b batches IH]; intros acc s; simpl.
  - intros [= <- <-]. lia.
  - intros (acc1 & s1 & Hstep & Hloop)%bind_Ok_inv.
    apply accuracy_step_total in Hstep. apply IH in Hloop.
    rewrite length_app. lia.
Qed.

(** C5: whenever [compute_accuracy] returns from a pass over a loader,
    the counts of the confusion breakdown it returns add up to the number
    of samples of the dataset of the loader, which is also the total it
    reports. *)
Theorem confusion_breakdown_sums_to_sample_count (data_loader : DataLoader X)
    (s s' : St) correct total_items accuracy (make_up : MakeUp) :
  compute_accuracy data_loader s
    = (Ok (correct, total_items, accuracy, make_up), s') →
  make_up_total make_up = length (dataset data_loader)
  ∧ total_items = length (dataset data_loader).
Proof.
  unfold compute_accuracy.
  intros (batches & s1 & Hiter & Hrest)%bind_Ok_inv.
  apply bind_Ok_inv in Hrest as ([c mk] & s2 & Hloop & Hrest).
  apply bind_Ok_inv in Hrest as (a & s3 & Ha & Hret).
  injection Hret as <- <- <- <- <-.
  destruct (iter_batches_spec data_loader s) as (b & s1' & Hiter' & Hperm & _).
  rewrite Hiter in Hiter'. injection Hiter' as <- <-.
  apply accuracy_loop_total in Hloop. simpl in Hloop.
  rewrite make_up_total_empty, Hperm in Hloop. done.
Qed.

(** *** The mode during and after the evaluation *)

Lemma keeps_mode {A} (m : M St A) : keeps frame m → keeps same_mode m.
Proof. intros Hm s. by destruct (Hm s). Qed.

Lemma agree_refl {A} (m : M St A) : agree m m.
Proof. done. Qed.

Lemma agree_bind {A B} (m m' : M St A) (f f' : A → M St B) :
  agree m m' → keeps same_mode m →
  (∀ a, agree (f a) (f' a)) →
  agree (m ≫= f) (m' ≫= f').
Proof.
  intros Hm Hk Hf s Hs. rewrite !bind_eq, <- (Hm s Hs).
  specialize (Hk s). destruct (m s) as [[a|e] s1]; [|done].
  apply Hf. unfold same_mode in Hk. simpl in Hk. congruence.
Qed.

Lemma agree_for_eachM {A B} (body body' : B → A → M St B) acc l :
  (∀ b a, agree (body b a) (body' b a)) →
  (∀ b a, keeps same_mode (body b a)) →
  agree (for_eachM body acc l) (for_eachM body' acc l).
Proof.
  intros Hb Hk. revert acc. induction l as [|a l IH]; intros acc; simpl.
  - apply agree_refl.
  - apply agree_bind; [apply Hb|apply Hk|apply IH].
Qed.

Local Abbreviation inference := (inference_network Network0).

Lemma agree_call (xs : list X) :
  agree (call xs) (call (Network0 := inference) xs).
Proof. intros s Hs. unfold call. simpl. by rewrite Hs. Qed.

Lemma agree_accuracy_step acc (batch : list (X * Z)) :
  agree (accuracy_step acc batch)
    (accuracy_step (Network0 := inference) acc batch).
Proof.
  destruct acc as [c mk]. unfold accuracy_step.
  apply agree_bind; [apply agree_call|apply keeps_mode, keeps_call|].
  intros out. apply agree_refl.
Qed.

Lemma agree_loss_step loss (batch : list (X * Z)) :
  agree (loss_step loss batch)
    (loss_step (Network0 := inference) loss batch).
Proof.
  unfold loss_step.
  apply agree_bind; [apply agree_call|apply keeps_mode, keeps_call|].
  intros out. apply agree_refl.
Qed.

Lemma agree_compute_accuracy (dl : DataLoader X) :
  agree (compute_accuracy dl)
    (compute_accuracy (Network0 := inference) dl).
Proof.
  unfold compute_accuracy.
  apply agree_bind; [apply agree_refl|apply keeps_mode, keeps_iter_batches|].
  intros batches. apply agree_bind; [| |intros; apply agree_refl].
  - apply agree_for_eachM; [apply agree_accuracy_step|].
    intros. apply keeps_mode, keeps_accuracy_step.
  - apply keeps_mode, keeps_for_eachM; [apply _|apply keeps_accuracy_step].
Qed.

Lemma agree_compute_loss (dl : DataLoader X) :
  agree (compute_loss dl) (compute_loss (Network0 := inference) dl).
Proof.
  unfold compute_loss.
  apply agree_bind; [apply agree_refl|apply keeps_mode, keeps_iter_batches|].
  intros batches. apply agree_bind; [| |intros; apply agree_refl].
  - apply agree_for_eachM; [apply agree_loss_step|].
    intros. apply keeps_mode, keeps_loss_step.
  - apply keeps_mode, keeps_for_eachM; [apply _|apply keeps_loss_step].
Qed.

Lemma keeps_update_exp_result f : keeps (@same_mode W G) (update_exp_result f).
Proof. done. Qed.

Lemma agree_validate_body epoch (tl tel : DataLoader X) :
  agree (_validate_after_epoch epoch tl tel)
    (_validate_after_epoch (Network0 := inference) epoch tl tel).
Proof.
  unfold _validate_after_epoch.
  apply agree_bind;
    [apply agree_compute_loss|apply keeps_mode, keeps_compute_loss|].
  intros l1.
  apply agree_bind; [apply agree_refl|apply keeps_update_exp_result|].
  intros _.
  apply agree_bind;
    [apply agree_compute_accuracy|apply keeps_mode, keeps_compute_accuracy|].
  intros [[[? ?] a1] mk1].
  apply agree_bind; [apply agree_refl|apply keeps_update_exp_result|].
  intros _.
  apply agree_bind;
    [apply agree_compute_loss|apply keeps_mode, keeps_compute_loss|].
  intros l2.
  apply agree_bind; [apply agree_refl|apply keeps_update_exp_result|].
  intros _.
  apply agree_bind;
    [apply agree_compute_accuracy|apply keeps_mode, keeps_compute_accuracy|].
  intros [[[? ?] a2] mk2]. apply agree_refl.
Qed.

(** C6: from any state, [validate_after_epoch] ends with the model in
    training mode, whether the evaluation returns or raises; what it
    returns or raises is what [_validate_after_epoch] returns or raises
    when started in inference mode; and the whole evaluation only ever
    consults the network in inference mode: it does exactly what it would
    do with a network whose forward pass ignores the mode and answers as
    under [eval()]. *)
Theorem validate_after_epoch_restores_training_mode (epoch : nat)
    (train_loader test_loader : DataLoader X) (s : St) :
  training (validate_after_epoch epoch train_loader test_loader s).2 = true
  ∧ (validate_after_epoch epoch train_loader test_loader s).1
    = (_validate_after_epoch epoch train_loader test_loader
         (set_training false s)).1
  ∧ validate_after_epoch epoch train_loader test_loader s
    = validate_after_epoch (Network0 := inference)
        epoch train_loader test_loader s.
Proof.
  unfold validate_after_epoch, validation_context, try_finally.
  pose proof (agree_validate_body epoch train_loader test_loader
                (set_training false s) eq_refl) as Hagree.
  rewrite !bind_eq. simpl. rewrite <- Hagree.
  destruct (_validate_after_epoch _ _ _ _) as [r s1]. done.
Qed.

(** *** The series of the record of results *)

Lemma appended_once_aligned n r r' :
  aligned n r → appended_once r r' →
  aligned (S n) r' ∧ ∀ k, k ≤ n → series_upto k r' = series_upto k r.
Proof.
  intros (H1 & H2 & H3 & H4 & H5 & H6) (l1 & a1 & l2 & a2 & mk1 & mk2 & ->).
  split.
  - repeat split; simpl; rewrite length_app; simpl; lia.
  - intros k Hk. unfold series_upto; simpl.
    rewrite !take_app_le by lia. done.
Qed.

Lemma series_upto_le k n r r' :
  k ≤ n → series_upto n r = series_upto n r' →
  series_upto k r = series_upto k r'.
Proof.
  unfold series_upto. intros Hk [= E1 E2 E3 E4 E5 E6].
  rewrite <- (Nat.min_l k n) by lia.
  rewrite <- !take_take. by rewrite E1, E2, E3, E4, E5, E6.
Qed.

Lemma update_exp_result_eq f (s : St) :
  update_exp_result f s = (Ok (), set_exp_result (f (exp_result s)) s).
Proof. done. Qed.

Lemma compute_loss_record (dl : DataLoader X) (s s' : St) r :
  compute_loss dl s = (r, s') → exp_result s' = exp_result s.
Proof. intros E. pose proof (keeps_compute_loss dl s) as [_ Hr]. by rewrite E in Hr. Qed.

Lemma compute_accuracy_record (dl : DataLoader X) (s s' : St) r :
  compute_accuracy dl s = (r, s') → exp_result s' = exp_result s.
Proof.
  intros E. pose proof (keeps_compute_accuracy dl s) as [_ Hr].
  by rewrite E in Hr.
Qed.

(** A validation that returns has appended one entry to each series. *)
Lemma validate_body_appends epoch (tl tel : DataLoader X) (s s' : St) :
  _validate_after_epoch epoch tl tel s = (Ok (), s') →
  appended_once (exp_result s) (exp_result s').
Proof.
  unfold _validate_after_epoch.
  intros (l1 & s1 & E1 & Hr)%bind_Ok_inv.
  apply bind_Ok_inv in Hr as ([] & s2 & U1 & Hr).
  apply bind_Ok_inv in Hr as ([[[? ?] a1] mk1] & s3 & E2 & Hr).
  apply bind_Ok_inv in Hr as ([] & s4 & U2 & Hr).
  apply bind_Ok_inv in Hr as (l2 & s5 & E3 & Hr).
  apply bind_Ok_inv in Hr as ([] & s6 & U3 & Hr).
  apply bind_Ok_inv in Hr as ([[[? ?] a2] mk2] & s7 & E4 & Hr).
  apply bind_Ok_inv in Hr as ([] & s8 & U4 & Hr).
  apply bind_Ok_inv in Hr as ([] & s9 & U5 & U6).
  apply compute_loss_record in E1, E3.
  apply compute_accuracy_record in E2, E4.
  rewrite update_exp_result_eq in U1, U2, U3, U4, U5, U6.
  injection U1 as <-. injection U2 as <-. injection U3 as <-.
  injection U4 as <-. injection U5 as <-. injection U6 as <-.
  exists l1, a1, l2, a2, mk1, mk2. simpl.
  rewrite E4; simpl. rewrite E3; simpl. rewrite E2; simpl. by rewrite E1.
Qed.

Lemma validate_appends epoch (tl tel : DataLoader X) (s s' : St) :
  validate_after_epoch epoch tl tel s = (Ok (), s') →
  appended_once (exp_result s) (exp_result s').
Proof.
  unfold validate_after_epoch, validation_context, try_finally.
  rewrite bind_eq. simpl.
  destruct (_validate_after_epoch _ _ _ _) as [r s1] eqn:E. simpl.
  intros [= -> <-]. by apply validate_body_appends in E.
Qed.

Lemma keeps_train_step (batch : list (X * Z)) : keeps frame (train_step batch).
Proof.
  unfold train_step.
  apply keeps_bind; [apply _|apply keeps_call|]. intros out.
  apply keeps_bind; [apply _|apply keeps_lift; apply _|]. intros l.
  done.
Qed.

(** An epoch that completes has appended one entry to each series. *)
Lemma run_epoch_appends (tl tel : DataLoader X) epoch (s s' : St) :
  run_epoch tl tel epoch s = (Ok (), s') →
  appended_once (exp_result s) (exp_result s').
Proof.
  unfold run_epoch.
  intros (batches & s1 & E1 & Hr)%bind_Ok_inv.
  apply bind_Ok_inv in Hr as ([] & s2 & E2 & Hr).
  apply validate_appends in Hr.
  pose proof (keeps_iter_batches tl s) as [_ K1]. rewrite E1 in K1.
  pose proof (keeps_for_eachM frame (λ _ batch, train_step batch) () batches
                (λ _ b, keeps_train_step b) s1) as [_ K2].
  rewrite E2 in K2. simpl in K1, K2. by rewrite <- K1, <- K2.
Qed.

(** The loop over a list of epochs, from a record whose series have [n]
    entries each: the series end with [length l] entries more, and the
    entries present after the first [k] epochs are the first [n + k]
    entries of the final series. *)
Lemma epochs_loop_series (tl tel : DataLoader X) (l : list nat) n
    (s s' : St) :
  for_eachM (λ _ epoch, run_epoch tl tel epoch) () l s = (Ok (), s') →
  aligned n (exp_result s) →
  aligned (n + length l) (exp_result s')
  ∧ ∀ k, k ≤ length l →
      ∃ sk, for_eachM (λ _ epoch, run_epoch tl tel epoch) () (take k l) s
            = (Ok (), sk)
            ∧ aligned (n + k) (exp_result sk)
            ∧ series_upto (n + k) (exp_result s')
              = series_upto (n + k) (exp_result sk).
Proof.
  revert n s. induction l as [|e l IH]; intros n s; simpl.
  - intros [= <-] Hn. rewrite Nat.add_0_r. split; [done|].
    intros k Hk. exists s. assert (k = 0) as -> by lia.
    by rewrite Nat.add_0_r.
  - intros ([] & s1 & E1 & Hloop)%bind_Ok_inv Hn.
    apply run_epoch_appends in E1 as Happ.
    destruct (appended_once_aligned n _ _ Hn Happ) as [Hn1 Hpre].
    destruct (IH (S n) s1 Hloop Hn1) as [Hfinal Hk].
    split; [by replace (n + S (length l)) with (S n + length l) by lia|].
    intros [|k] Hle; simpl.
    + exists s. rewrite Nat.add_0_r. split; [done|]. split; [done|].
      destruct (Hk 0) as (s0 & E0 & _ & Heq); [lia|].
      injection E0 as <-. rewrite Nat.add_0_r in Heq.
      rewrite <- (Hpre n) by lia.
      apply (series_upto_le n (S n)); [lia|done].
    + destruct (Hk k) as (sk & Ek & Hak & Heq); [lia|].
      exists sk. rewrite bind_eq, E1.
      replace (n + S k) with (S n + k) by lia. done.
Qed.

(** A run that returns had its two loaders made: the training set was
    not empty, and the run is the loop over these loaders. *)
Lemma run_training_Ok_inv (train_dataset test_dataset : list (X * Z))
    (epochs : nat) (s s' : St) (r : NeuralNetworkExperimentResult) :
  run_training train_dataset test_dataset epochs s = (Ok r, s') →
  train_dataset ≠ []
  ∧ (modify (set_exp_result
               (new_experiment_result model_learning_rate 32
                  model_optimizer_name model_criterion_name epochs));;
     training_loop
       {| dataset := train_dataset; batch_size := 32; shuffle := true |}
       {| dataset := test_dataset; batch_size := 32; shuffle := false |}
       epochs;;
     gets exp_result) s = (Ok r, s').
Proof.
  unfold run_training, new_loader. cbv zeta. rewrite bind_eq. unfold lift.
  destruct train_dataset as [|x train_dataset]; [done|].
  rewrite bool_decide_eq_false_2 by done. cbn [andb].
  rewrite bind_eq. cbn [andb]. done.
Qed.

(** C7: when [run_training] returns from a run of [epochs] epochs, each
    of the six series of the record it returns has exactly [epochs]
    entries; and they came one per completed epoch, in epoch order: for
    every [k] up to [epochs], the loop stopped after its first [k] epochs
    has a record whose six series have [k] entries each, and these are
    the first [k] entries of the final series. *)
Theorem run_training_appends_one_entry_per_epoch
    (train_dataset test_dataset : list (X * Z)) (epochs : nat)
    (s s' : St) (r : NeuralNetworkExperimentResult) :
  run_training train_dataset test_dataset epochs s = (Ok r, s') →
  aligned epochs r
  ∧ ∀ k, k ≤ epochs →
      ∃ sk,
        training_loop
          {| dataset := train_dataset; batch_size := 32; shuffle := true |}
          {| dataset := test_dataset; batch_size := 32; shuffle := false |}
          k (at_loop_entry epochs s) = (Ok (), sk)
        ∧ aligned k (exp_result sk)
        ∧ series_upto k r = series_upto k (exp_result sk).
Proof.
  intros [_ Hrun]%run_training_Ok_inv. revert Hrun.
  intros ([] & s0 & E0 & Hr)%bind_Ok_inv.
  apply bind_Ok_inv in Hr as ([] & s1 & Hloop & Hget).
  injection Hget as <- <-. injection E0 as <-.
  unfold training_loop in *.
  apply (epochs_loop_series _ _ _ 0) in Hloop as [Hfinal Hk]; [|done].
  rewrite length_seq in Hfinal, Hk. split; [done|].
  intros k Hle. destruct (Hk k Hle) as (sk & Ek & Hak & Heq).
  exists sk. rewrite take_seq, Nat.min_l in Ek by lia. done.
Qed.

End harness.

(** ** The tabular sample store: construction and persistence *)

Section store.
Import HumanChatBotDataset.

Lemma columns_with_columns_replace name m (df : DataFrame) :
  columns (with_columns_replace name m df) = columns df.
Proof.
  unfold columns, with_columns_replace. rewrite <- list_fmap_compose.
  apply list_fmap_ext. intros i [c v] _. simpl. by case_bool_decide.
Qed.

Lemma get_column_with_columns_replace name m (df : DataFrame) :
  get_column (with_columns_replace name m df) name
  = replace m <$> get_column df name.
Proof.
  unfold get_column, with_columns_replace.
  induction df as [|[c v] df IH]; simpl; [done|].
  destruct (decide (c = name)) as [->|Hne].
  - rewrite !(bool_decide_eq_true_2 (name = name)) by done. by simpl.
  - rewrite !(bool_decide_eq_false_2 (c = name)) by done. simpl.
    apply IH.
Qed.

Lemma columns_drop_in_place name (df : DataFrame) :
  columns (drop_in_place name df) = filter (λ c, c ≠ name) (columns df).
Proof.
  unfold columns, drop_in_place.
  induction df as [|[c v] df IH]; simpl; [done|].
  rewrite !filter_cons. simpl. case_decide; simpl; [f_equal|]; apply IH.
Qed.

Lemma get_column_drop_in_place name other (df : DataFrame) :
  name ≠ other →
  get_column (drop_in_place other df) name = get_column df name.
Proof.
  intros Hne. unfold get_column, drop_in_place.
  induction df as [|[c v] df IH]; simpl; [done|].
  rewrite filter_cons. simpl. case_decide as Hc; simpl.
  - by case_bool_decide.
  - rewrite bool_decide_eq_false_2; [done|]. intros <-. tauto.
Qed.

Lemma drop_in_place_absent name (df : DataFrame) :
  name ∉ columns df → drop_in_place name df = df.
Proof.
  unfold columns, drop_in_place.
  induction df as [|[c v] df IH]; simpl; [done|].
  intros [Hne Hin]%not_elem_of_cons. rewrite filter_cons. simpl.
  rewrite decide_True by done. by rewrite IH.
Qed.

(** The condition under which the constructor rewrites the labels: some
    distinct label is not its own position in ascending order. *)
Lemma should_apply_mappings_false (m : gmap Z nat) :
  should_apply_mappings m = false ↔ ∀ k v, m !! k = Some v → k = Z.of_nat v.
Proof.
  unfold should_apply_mappings. rewrite <- not_true_iff_false.
  rewrite existsb_exists. split.
  - intros Hno k v Hkv. destruct (decide (k = Z.of_nat v)) as [|Hne]; [done|].
    destruct Hno. exists (k, v). split.
    + apply list_elem_of_In. by apply elem_of_map_to_list.
    + simpl. apply negb_true_iff. by apply Z.eqb_neq.
  - intros Hall ([k v] & Hin & Hneq). simpl in Hneq.
    apply list_elem_of_In, elem_of_map_to_list in Hin.
    apply Hall in Hin. apply negb_true_iff, Z.eqb_neq in Hneq. done.
Qed.

(** The dense labels [0, ..., n-1] are left as they are. *)
Lemma dense_labels_fixed (n : nat) :
  should_apply_mappings (enumerate_dict (Z.of_nat <$> seq 0 n)) = false.
Proof.
  apply should_apply_mappings_false. intros k v Hkv.
  apply enumerate_dict_lookup in Hkv.
  - apply list_lookup_fmap_Some in Hkv as (i & -> & Hi).
    apply lookup_seq in Hi as [-> _]. done.
  - apply (NoDup_fmap_2 _). apply NoDup_seq.
Qed.

Lemma StronglySorted_dense a n : StronglySorted Z.le (Z.of_nat <$> seq a n).
Proof.
  revert a. induction n as [|n IH]; intros a; simpl; constructor; [apply IH|].
  apply Forall_forall. intros x Hx.
  apply list_elem_of_fmap in Hx as (i & -> & [? ?]%elem_of_seq). lia.
Qed.

(** Replacing each label by its position yields the dense labels. *)
Lemma sorted_unique_replaced (labels : list Z) :
  let present := sorted_unique Z.le labels in
  sorted_unique Z.le
    ((λ k, from_option Z.of_nat k (enumerate_dict present !! k)) <$> labels)
  = Z.of_nat <$> seq 0 (length present).
Proof.
  intros present.
  assert (NoDup present) as Hnd by apply sorted_unique_NoDup.
  assert (∀ k i, enumerate_dict present !! k = Some i ↔ present !! i = Some k)
    as Hmap by (intros; by apply enumerate_dict_lookup).
  apply (StronglySorted_unique Z.le).
  - apply sorted_unique_sorted; apply _.
  - apply StronglySorted_dense.
  - apply NoDup_Permutation.
    + apply sorted_unique_NoDup.
    + apply (NoDup_fmap_2 _). apply NoDup_seq.
    + intros z. rewrite elem_of_sorted_unique, !list_elem_of_fmap. split.
      * intros (k & -> & Hk).
        apply (elem_of_sorted_unique Z.le) in Hk.
        apply list_elem_of_lookup in Hk as [i Hi].
        exists i. rewrite (proj2 (Hmap k i) Hi). simpl. split; [done|].
        apply elem_of_seq. apply lookup_lt_Some in Hi.
        unfold present. lia.
      * intros (i & -> & [_ Hi]%elem_of_seq).
        destruct (lookup_lt_is_Some_2 present i) as [k Hk]; [lia|].
        exists k. rewrite (proj2 (Hmap k i) Hk). split; [done|].
        apply (elem_of_sorted_unique Z.le). by eapply list_elem_of_lookup_2.
Qed.

(** A frame that the constructor takes as it is: integer labels that are
    their own positions, and no [type] column. *)
Lemma post_init_fixed (df : DataFrame) (labels : list Z) :
  get_column df "label" = Some (Int64 labels) →
  should_apply_mappings (enumerate_dict (sorted_unique Z.le labels)) = false →
  "type" ∉ columns df →
  __post_init__ df
  = Ok {| data := df; n_non_feature_columns := 1;
          number_of_classes := length (sorted_unique Z.le labels) |}.
Proof.
  intros Hcol Hno Htype. unfold __post_init__.
  assert ("label" ∈ columns df) as Hin.
  { unfold get_column, columns in *.
    destruct (find _ df) as [[c v]|] eqn:Hf; [|done].
    apply find_some in Hf as [Hf Hc]. apply bool_decide_eq_true in Hc.
    simpl in Hc. subst c. apply list_elem_of_fmap. exists ("label", v).
    split; [done|]. by apply list_elem_of_In. }
  rewrite bool_decide_eq_true_2 by done. rewrite Hcol, Hno.
  by rewrite bool_decide_eq_false_2.
Qed.

(** What the constructor builds is a frame it takes as it is. *)
Lemma post_init_normalises (df : DataFrame) (s : t) :
  __post_init__ df = Ok s →
  n_non_feature_columns s = 1
  ∧ ∃ labels,
      get_column (data s) "label" = Some (Int64 labels)
      ∧ should_apply_mappings (enumerate_dict (sorted_unique Z.le labels))
        = false
      ∧ ("type" ∉ columns (data s))
      ∧ number_of_classes s = length (sorted_unique Z.le labels).
Proof.
  unfold __post_init__. case_bool_decide as Hlabel; [|done].
  destruct (get_column df "label") as [[labels| |]|] eqn:Hcol; try done.
  set (present := sorted_unique Z.le labels).
  set (mappings := enumerate_dict present).
  set (df1 := if should_apply_mappings mappings then _ else df).
  intros [= <-]. simpl. split; [done|].
  assert (∃ labels1,
            get_column df1 "label" = Some (Int64 labels1)
            ∧ should_apply_mappings
                (enumerate_dict (sorted_unique Z.le labels1)) = false
            ∧ length present = length (sorted_unique Z.le labels1))
    as (labels1 & Hcol1 & Hno1 & Hlen1).
  { unfold df1. destruct (should_apply_mappings mappings) eqn:Happly.
    - eexists. rewrite get_column_with_columns_replace, Hcol. simpl.
      split; [done|]. unfold mappings, present.
      rewrite sorted_unique_replaced. rewrite length_fmap, length_seq.
      split; [apply dense_labels_fixed|done].
    - by exists labels. }
  exists labels1. case_bool_decide as Htype.
  - rewrite get_column_drop_in_place by done.
    rewrite columns_drop_in_place. split; [done|]. split; [done|].
    split; [|done]. rewrite list_elem_of_filter. tauto.
  - done.
Qed.

(** X3: the constructor is idempotent: building a store again from the
    frame of a constructed store gives that same store, with the same
    labels, columns and number of classes. *)
Lemma post_init_idempotent (df : DataFrame) (s : t) :
  __post_init__ df = Ok s → __post_init__ (data s) = Ok s.
Proof.
  intros Hs.
  destruct (post_init_normalises df s Hs) as (Hn & l & Hcol & Hno & Hty & Hc).
  rewrite (post_init_fixed _ l) by done.
  destruct s; simpl in *. by subst.
Qed.




End store.

(** *** Saving and reloading *)

Section persistence.
Import HumanChatBotDataset.
Context `{CsvFiles Disk} (close : relation spec_float).


End persistence.

(** ** The statements at work on the sample collaborators *)

Section samples.
#[local] Existing Instance length_embedder.
#[local] Existing Instance nearest_resize.
#[local] Existing Instance rotating_sampler.
#[local] Existing Instance plain_torch_ops.
#[local] Existing Instance toy_network.
#[local] Existing Instance TextCsv.disk.

(** A mapping that covers the types with values that are neither dense
    nor non-negative is accepted, and its values are the labels. *)
Lemma lazy_labels_are_raw_mapping_values_witness :
  ∃ ds, LazyHumanChatBotDataset.__post_init__ sample_records
          {[ "human" := (-7)%Z; "bot" := 1000%Z ]} = Ok ds
        ∧ LazyHumanChatBotDataset.__len__ ds = length sample_records
        ∧ ∀ idx r, sample_records !! idx = Some r →
            ∃ label,
              ({[ "human" := (-7)%Z; "bot" := 1000%Z ]} : gmap string Z)
                !! r_type r = Some label
              ∧ LazyHumanChatBotDataset.__getitem__ ds idx
                = Ok (embed (r_text r), label).
Proof.
  apply (lazy_labels_are_raw_mapping_values sample_records).
  intros r Hr. unfold sample_records in Hr.
  repeat (apply elem_of_cons in Hr as [->|Hr]);
    [by vm_compute; eexists..|by apply not_elem_of_nil in Hr].
Defined.

Lemma precompute_getitem_agree_witness :
  ∃ store cached,
    HumanChatBotDataset.__post_init__ sample_frame = Ok store
    ∧ ImageByCrossMultiplicationDataset.__post_init__ store true true
      = Ok cached
    ∧ ∃ on_demand,
        ImageByCrossMultiplicationDataset.__post_init__ store true false
        = Ok on_demand
        ∧ ∀ idx, idx < HumanChatBotDataset.__len__ store →
            ∃ image label,
              ImageByCrossMultiplicationDataset.__getitem__ cached idx
              = Ok (image, label)
              ∧ ImageByCrossMultiplicationDataset.__getitem__ on_demand idx
                = Ok (image, label).
Proof.
  eexists _, _. split; [by vm_compute|].
  refine (let H := _ in conj H (precompute_getitem_agree _ _ _ H)).
  by vm_compute.
Defined.

Lemma confusion_breakdown_sums_to_sample_count_witness :
  ∃ correct total_items accuracy make_up s',
    compute_accuracy
      {| dataset := sample_dataset; batch_size := 2; shuffle := true |}
      sample_state
    = (Ok (correct, total_items, accuracy, make_up), s')
    ∧ make_up_total make_up = length sample_dataset
    ∧ total_items = length sample_dataset.
Proof.
  eexists _, _, _, _, _.
  refine (let H := _ in
          conj H (confusion_breakdown_sums_to_sample_count _ _ _ _ _ _ _ H)).
  by vm_compute.
Defined.

Lemma run_training_appends_one_entry_per_epoch_witness :
  ∃ r s',
    run_training sample_dataset sample_dataset 3 sample_state = (Ok r, s')
    ∧ aligned 3 r
    ∧ ∀ k, k ≤ 3 →
        ∃ sk,
          training_loop
            {| dataset := sample_dataset; batch_size := 32; shuffle := true |}
            {| dataset := sample_dataset; batch_size := 32; shuffle := false |}
            k (at_loop_entry 3 sample_state) = (Ok (), sk)
          ∧ aligned k (exp_result sk)
          ∧ series_upto k r = series_upto k (exp_result sk).
Proof.
  eexists _, _.
  refine (let H := _ in
          conj H (run_training_appends_one_entry_per_epoch _ _ _ _ _ _ H)).
  by vm_compute.
Defined.



(** The part asked of the CSV layer is asked frame by frame: a text file
    does not tell a column of strings that are all numerals from a column
    of integers, and a file without rows tells nothing of the types of
    its columns. *)
Example text_csv_infers_types :
  read_csv "frame.csv"
    (write_csv [("label", Int64 [0]%Z); ("f0", Utf8 ["12"])] "frame.csv"
       (∅ : gmap string string))
  = Ok [("label", Int64 [0]%Z); ("f0", Int64 [12]%Z)]
  ∧ read_csv "frame.csv"
      (write_csv [("label", Int64 []); ("f0", Float [])] "frame.csv"
         (∅ : gmap string string))
    = Ok [("label", Utf8 []); ("f0", Utf8 [])].
Proof. split; by vm_compute. Qed.

(** An exit by an exception: with no test sample the evaluation raises
    on the division by the number of batches, and the model is back in
    training mode all the same. *)
Example validate_after_epoch_raising :
  let '(r, s') :=
    validate_after_epoch 0
      {| dataset := sample_dataset; batch_size := 32; shuffle := true |}
      {| dataset := []; batch_size := 32; shuffle := false |}
      sample_state in
  r = Raise ZeroDivisionError ∧ training s' = true.
Proof. by vm_compute. Qed.

(** The store built from the sample frame: the labels 3 and 7 have become
    0 and 1, and the [type] column is gone. *)
Example post_init_example :
  HumanChatBotDataset.data <$> HumanChatBotDataset.__post_init__ sample_frame
  = Ok [ ("label", Int64 [1; 0; 1; 0]%Z);
         ("f0", Float [F64.of_Z 1; F64.of_Z 0; F64.of_Z 2; F64.of_Z 5]);
         ("f1", Float [F64.of_Z 0; F64.of_Z 1; F64.of_Z 3; F64.of_Z 4]) ].
Proof. by vm_compute. Qed.

End samples.
(** ** More on the tabular sample store *)

(** A value of binary32 is its own rounding to binary32: what
    [torch.tensor(values, dtype=torch.float32)] does to a value that came
    out of a [float32] tensor. *)
Lemma of_float_valid x : F32.valid x = true → F32.of_float x = x.
Proof.
  destruct x as [s|s| |s m e]; try done.
  unfold F32.valid, valid_binary, SpecFloat.bounded, canonical_mantissa.
  intros [Hc He]%andb_true_iff. apply Z.eqb_eq in Hc.
  unfold F32.of_float, binary_round, shl_align.
  rewrite Hc, Z.sub_diag.
  unfold binary_round_aux, shr_fexp.
  change (Zdigits2 (Z.pos m)) with (Z.pos (digits2_pos m)).
  rewrite Hc, Z.sub_diag.
  cbn [shr shr_record_of_loc shr_m loc_of_shr_record shr_r shr_s
       round_nearest_even].
  change (Zdigits2 (Z.pos m)) with (Z.pos (digits2_pos m)).
  rewrite Hc, Z.sub_diag. cbn [shr shr_m]. by rewrite He.
Qed.

Section store_labels.
Import HumanChatBotDataset.

Lemma get_column_with_columns_replace_ne name other m (df : DataFrame) :
  name ≠ other →
  get_column (with_columns_replace other m df) name = get_column df name.
Proof.
  intros Hne. unfold get_column, with_columns_replace.
  induction df as [|[c v] df IH]; simpl; [done|].
  destruct (decide (c = other)) as [->|Hc].
  - rewrite (bool_decide_eq_true_2 (other = other)) by done. simpl.
    rewrite (bool_decide_eq_false_2 (other = name)) by done. apply IH.
  - rewrite (bool_decide_eq_false_2 (c = other)) by done. simpl.
    case_bool_decide; [done|apply IH].
Qed.

Lemma get_column_elem_of (df : DataFrame) name s :
  get_column df name = Some s → name ∈ columns df.
Proof.
  unfold get_column, columns.
  destruct (find _ df) as [[c v]|] eqn:Hf; [|done].
  apply find_some in Hf as [Hf Hc]. apply bool_decide_eq_true in Hc.
  simpl in Hc. subst c. intros _. apply list_elem_of_fmap. exists (name, v).
  split; [done|]. by apply list_elem_of_In.
Qed.

Lemma filter_ne_absent (x : string) (l : list string) :
  x ∉ l → filter (λ c, c ≠ x) l = l.
Proof.
  induction l as [|a l IH]; [done|].
  intros [Hne Hin]%not_elem_of_cons. rewrite filter_cons.
  rewrite decide_True by done. by rewrite IH.
Qed.

Lemma length_filter_ne (x : string) (l : list string) :
  NoDup l → x ∈ l → S (length (filter (λ c, c ≠ x) l)) = length l.
Proof.
  induction 1 as [|a l Ha Hnd IH]; [by intros ?%not_elem_of_nil|].
  rewrite filter_cons. intros [->|Hin]%elem_of_cons.
  - rewrite decide_False by tauto. by rewrite filter_ne_absent.
  - rewrite decide_True by (by intros ->). simpl. by rewrite IH.
Qed.

Lemma strict_Z_le w v : strict Z.le w v ↔ (w < v)%Z.
Proof. unfold strict. lia. Qed.

(** The position of a label among the sorted distinct labels is its
    rank. *)
Lemma label_rank_position (labels : list Z) i k :
  sorted_unique Z.le labels !! i = Some k → label_rank labels k = i.
Proof.
  intros Hi. unfold label_rank.
  rewrite <- (sorted_position_rank Z.le (sorted_unique Z.le labels) i k);
    [|apply sorted_unique_sorted; apply _|apply sorted_unique_NoDup|done].
  f_equal. apply set_eq. intros w.
  rewrite !elem_of_filter, !elem_of_list_to_set, strict_Z_le.
  by rewrite elem_of_sorted_unique.
Qed.

Lemma label_rank_lt (labels : list Z) a b :
  a ∈ labels → (a < b)%Z → label_rank labels a < label_rank labels b.
Proof.
  intros Ha Hab. unfold label_rank. apply subset_size.
  apply strict_spec_alt. split.
  - intros w. rewrite !elem_of_filter. intros [? ?]. split; [lia|done].
  - intros Heq. assert (a ∈ filter (λ w, (w < a)%Z)
                          (list_to_set labels : gset Z)) as Hin.
    { rewrite Heq. apply elem_of_filter. split; [done|].
      by apply elem_of_list_to_set. }
    apply elem_of_filter in Hin as [? _]. lia.
Qed.

Lemma label_rank_bound (labels : list Z) k :
  k ∈ labels → label_rank labels k < size (list_to_set labels : gset Z).
Proof.
  intros Hk. unfold label_rank. apply subset_size.
  apply strict_spec_alt. split.
  - intros w. rewrite elem_of_filter. tauto.
  - intros Heq. assert (k ∈ filter (λ w, (w < k)%Z)
                          (list_to_set labels : gset Z)) as Hin.
    { rewrite Heq. by apply elem_of_list_to_set. }
    apply elem_of_filter in Hin as [? _]. lia.
Qed.

(** What the constructor makes of a frame with an integer [label]
    column. *)
Lemma post_init_label_column (df : DataFrame) (labels : list Z) :
  get_column df "label" = Some (Int64 labels) →
  ∃ store,
    __post_init__ df = Ok store
    ∧ get_column (data store) "label"
      = Some (Int64 ((λ k, Z.of_nat (label_rank labels k)) <$> labels))
    ∧ number_of_classes store = size (list_to_set labels : gset Z)
    ∧ n_non_feature_columns store = 1
    ∧ columns (data store) = filter (λ c, c ≠ "type") (columns df)
    ∧ ∀ name, name ≠ "label" → name ≠ "type" →
        get_column (data store) name = get_column df name.
Proof.
  intros Hcol. unfold __post_init__.
  rewrite bool_decide_eq_true_2 by (by eapply get_column_elem_of).
  rewrite Hcol.
  set (present := sorted_unique Z.le labels).
  set (mappings := enumerate_dict present).
  assert (∀ k i, mappings !! k = Some i ↔ present !! i = Some k) as Hmap.
  { intros. apply enumerate_dict_lookup, sorted_unique_NoDup. }
  assert (∀ k, k ∈ labels →
            mappings !! k = Some (label_rank labels k)) as Hrank.
  { intros k Hk. apply (elem_of_sorted_unique Z.le) in Hk.
    apply list_elem_of_lookup in Hk as [i Hi].
    rewrite (label_rank_position labels i k Hi). by apply Hmap. }
  set (df1 := if should_apply_mappings mappings then _ else df).
  assert (get_column df1 "label"
          = Some (Int64 ((λ k, Z.of_nat (label_rank labels k)) <$> labels))
          ∧ columns df1 = columns df
          ∧ ∀ name, name ≠ "label" → get_column df1 name = get_column df name)
    as (Hcol1 & Hcols1 & Hother1).
  { unfold df1. destruct (should_apply_mappings mappings) eqn:Happly.
    - rewrite get_column_with_columns_replace, Hcol,
        columns_with_columns_replace. simpl.
      split; [|split; [done|]].
      + do 2 f_equal. apply list_fmap_ext. intros i k Hk.
        rewrite (Hrank k); [done|]. by eapply list_elem_of_lookup_2.
      + intros name Hne. by apply get_column_with_columns_replace_ne.
    - split; [|done]. rewrite Hcol. do 2 f_equal.
      rewrite <- (list_fmap_id labels) at 1. apply list_fmap_ext.
      intros i k Hk. simpl.
      apply should_apply_mappings_false with (k := k)
        (v := label_rank labels k) in Happly; [done|].
      apply Hrank. by eapply list_elem_of_lookup_2. }
  eexists. split; [done|]. simpl.
  split; [|split; [|split; [done|]]].
  - case_bool_decide; [|done]. by rewrite get_column_drop_in_place.
  - apply length_sorted_unique.
  - case_bool_decide as Hty.
    + rewrite columns_drop_in_place, Hcols1. split; [done|].
      intros name H1 H2. rewrite get_column_drop_in_place by done.
      by apply Hother1.
    + rewrite Hcols1 in Hty |- *. split; [|intros; by apply Hother1].
      by rewrite filter_ne_absent.
Qed.

Lemma post_init_Ok_label_column (df : DataFrame) (store : t) :
  __post_init__ df = Ok store →
  ∃ labels, get_column df "label" = Some (Int64 labels).
Proof.
  unfold __post_init__. case_bool_decide; [|done].
  destruct (get_column df "label") as [[| |]|]; try done. eauto.
Qed.

(** X1: the constructor accepts every frame with an integer [label]
    column and renumbers the labels by rank: each label becomes the number
    of distinct labels below it.  The new labels are therefore exactly the
    numbers from 0 to the number of classes (excluded), which is the number
    of distinct labels, and the renumbering keeps the order of the labels;
    [get_sample_labels] returns them. *)
Theorem post_init_relabels_by_rank (df : DataFrame) (labels : list Z) :
  get_column df "label" = Some (Int64 labels) →
  ∃ store new_labels,
    __post_init__ df = Ok store
    ∧ get_sample_labels store = Ok (Int64 new_labels)
    ∧ new_labels = (λ k, Z.of_nat (label_rank labels k)) <$> labels
    ∧ number_of_classes store = size (list_to_set labels : gset Z)
    ∧ (∀ c, c ∈ new_labels
            ↔ (0 ≤ c < Z.of_nat (number_of_classes store))%Z)
    ∧ (∀ i j a b a' b',
         labels !! i = Some a → labels !! j = Some b →
         new_labels !! i = Some a' → new_labels !! j = Some b' →
         (a < b ↔ a' < b')%Z).
Proof.
  intros Hcol.
  destruct (post_init_label_column df labels Hcol)
    as (store & Hs & Hlab & Hn & _).
  exists store, ((λ k, Z.of_nat (label_rank labels k)) <$> labels).
  split; [done|]. split; [unfold get_sample_labels; by rewrite Hlab|].
  split; [done|]. split; [done|]. split.
  - intros c. rewrite Hn, list_elem_of_fmap. split.
    + intros (k & -> & Hk). pose proof (label_rank_bound labels k Hk). lia.
    + intros [H0 Hc]. rewrite <- (length_sorted_unique Z.le) in Hc.
      destruct (lookup_lt_is_Some_2 (sorted_unique Z.le labels) (Z.to_nat c))
        as [k Hk]; [lia|].
      exists k. rewrite (label_rank_position labels _ k Hk).
      split; [lia|]. apply (elem_of_sorted_unique Z.le).
      by eapply list_elem_of_lookup_2.
  - intros i j a b a' b' Ha Hb. rewrite !list_lookup_fmap, Ha, Hb. simpl.
    intros [= <-] [= <-].
    assert (a ∈ labels) as Hina by (by eapply list_elem_of_lookup_2).
    assert (b ∈ labels) as Hinb by (by eapply list_elem_of_lookup_2).
    split.
    + intros Hab. pose proof (label_rank_lt labels a b Hina Hab). lia.
    + intros Hr. destruct (Z_lt_le_dec a b) as [|Hba]; [done|].
      destruct (decide (a = b)) as [->|Hne]; [lia|].
      pose proof (label_rank_lt labels b a Hinb ltac:(lia)). lia.
Qed.

(** X2: the constructor refuses with the assertion "Missing label column"
    exactly the frames that have no [label] column; from a frame it
    accepts it keeps every column but [type], in the order of the frame,
    and every column other than [label] as it was. *)
Theorem post_init_keeps_all_but_type (df : DataFrame) :
  (__post_init__ df = Raise (AssertionError "Missing label column")
   ↔ "label" ∉ columns df)
  ∧ ∀ store,
      __post_init__ df = Ok store →
      columns (data store) = filter (λ c, c ≠ "type") (columns df)
      ∧ "label" ∈ columns (data store)
      ∧ ∀ name, name ≠ "label" → name ≠ "type" →
          get_column (data store) name = get_column df name.
Proof.
  split.
  - unfold __post_init__. case_bool_decide as Hl; [|done].
    split; [|done]. by destruct (get_column df "label") as [[| |]|].
  - intros store Hs.
    destruct (post_init_Ok_label_column df store Hs) as [labels Hcol].
    destruct (post_init_label_column df labels Hcol)
      as (store' & Hs' & Hlab & _ & _ & Hcols & Hother).
    assert (store' = store) as -> by congruence.
    split; [done|]. split; [by eapply get_column_elem_of|done].
Qed.

Lemma row_length (df : DataFrame) idx r :
  row df idx = Ok r → length r = length df ∧ idx < height df.
Proof.
  unfold row. case_bool_decide; [|done].
  destruct (mapM _ df) as [r'|] eqn:E; [|done]. intros [= <-].
  apply length_mapM in E. done.
Qed.

Lemma tensor_float32_length (values : list Cell) t :
  tensor_float32 values = Ok t → length t = length values.
Proof.
  revert t. induction values as [|c values IH]; intros t; simpl.
  - by intros [= <-].
  - destruct (cell_to_float32 c); [|done]. simpl.
    destruct (tensor_float32 values) as [t'|]; [|done]. simpl.
    intros [= <-]. simpl. f_equal. by apply IH.
Qed.

(** An item that can be read lies within the store and has one entry per
    feature column. *)
Lemma getitem_length ds idx e lab :
  __getitem__ ds idx = Ok (e, lab) →
  idx < __len__ ds ∧ length e = embedding_size ds.
Proof.
  unfold __getitem__.
  destruct (row _ idx) as [r|] eqn:Hrow; [|done].
  apply row_length in Hrow as [Hlen Hidx]. cbn [mbind result_bind].
  destruct (tensor_float32 _) as [e'|] eqn:He; [|done].
  apply tensor_float32_length in He. cbn [mbind result_bind].
  destruct (get_column _ _) as [[l| |]|]; try done.
  destruct (l !! idx); [|done]. intros [= <- <-]. split; [done|].
  unfold embedding_size, columns.
  by rewrite He, length_drop, Hlen, length_fmap.
Qed.

(** The labels of a constructed store are class numbers. *)
Lemma getitem_label_in_range (df : DataFrame) (store : t) idx e label :
  __post_init__ df = Ok store →
  __getitem__ store idx = Ok (e, label) →
  (0 ≤ label < Z.of_nat (number_of_classes store))%Z.
Proof.
  intros Hs.
  destruct (post_init_normalises df store Hs)
    as (Hn & l & Hcol & Hno & Hty & Hc).
  unfold __getitem__.
  destruct (row (data store) idx) as [r|]; [|done]. cbn [mbind result_bind].
  destruct (tensor_float32 _) as [e'|]; [|done]. cbn [mbind result_bind].
  rewrite Hcol. destruct (l !! idx) as [lab|] eqn:Hl; [|done].
  intros [= <- <-].
  assert (lab ∈ sorted_unique Z.le l) as Hin.
  { apply elem_of_sorted_unique. by eapply list_elem_of_lookup_2. }
  apply list_elem_of_lookup in Hin as [i Hi].
  pose proof (lookup_lt_Some _ _ _ Hi) as Hlt.
  apply enumerate_dict_lookup in Hi; [|apply sorted_unique_NoDup].
  rewrite should_apply_mappings_false in Hno. apply Hno in Hi. lia.
Qed.

(** X4: an item that [__getitem__] returns from a constructed store is
    within what the store declares: its index is below the length of the
    store, its vector has [embedding_size] entries, and its label is a
    class number, from 0 to [number_of_classes] excluded. *)
Theorem getitem_within_declared_shape (df : DataFrame) (store : t) idx
    (embedding : Tensor1) (label : Z) :
  __post_init__ df = Ok store →
  __getitem__ store idx = Ok (embedding, label) →
  idx < __len__ store
  ∧ length embedding = embedding_size store
  ∧ (0 ≤ label < Z.of_nat (number_of_classes store))%Z.
Proof.
  intros Hs Hget. destruct (getitem_length store idx _ _ Hget) as [? ?].
  split; [done|]. split; [done|]. by eapply getitem_label_in_range.
Qed.

(** X5: for a store constructed from a frame with distinct column names,
    the feature matrix of [get_samples_as_X] has the columns of the frame
    other than [label] and [type], unchanged and in order, and their
    number is [embedding_size]: the width of the vectors that
    [__getitem__] returns. *)
Theorem samples_as_X_width (df : DataFrame) (store : t) :
  __post_init__ df = Ok store →
  NoDup (columns df) →
  columns (get_samples_as_X store)
  = filter (λ c, c ≠ "label" ∧ c ≠ "type") (columns df)
  ∧ length (columns (get_samples_as_X store)) = embedding_size store
  ∧ ∀ name, name ≠ "label" → name ≠ "type" →
      get_column (get_samples_as_X store) name = get_column df name.
Proof.
  intros Hs Hnd.
  destruct (post_init_Ok_label_column df store Hs) as [labels Hcol].
  destruct (post_init_label_column df labels Hcol)
    as (store' & Hs' & Hlab & _ & Hn & Hcols & Hother).
  assert (store' = store) as -> by congruence.
  unfold get_samples_as_X.
  change (filter _ (data store)) with (drop_in_place "label" (data store)).
  rewrite columns_drop_in_place, Hcols.
  split; [|split].
  - by rewrite list_filter_filter.
  - unfold embedding_size. rewrite Hn, Hcols.
    rewrite <- (length_filter_ne "label" (filter _ (columns df))).
    + lia.
    + by apply NoDup_filter.
    + apply list_elem_of_filter. split; [done|].
      by eapply get_column_elem_of.
  - intros name H1 H2. rewrite <- (Hother name H1 H2).
    by apply get_column_drop_in_place.
Qed.

End store_labels.

(** ** From raw data to a store *)

Section dense_positions.
Context `{Countable K} (R : relation K).
Context `{!RelDecision R, !PartialOrder R, !Total R}.

(** The sorted list of the distinct values depends on the values only,
    not on their order or their number of occurrences. *)
Lemma sorted_unique_ext (l1 l2 : list K) :
  (∀ x, x ∈ l1 ↔ x ∈ l2) → sorted_unique R l1 = sorted_unique R l2.
Proof.
  intros Hel. apply (StronglySorted_unique R).
  - apply sorted_unique_sorted; apply _.
  - apply sorted_unique_sorted; apply _.
  - apply NoDup_Permutation; [apply sorted_unique_NoDup..|].
    intros x. by rewrite !elem_of_sorted_unique.
Qed.

(** The positions of the values of a list in its sorted list of distinct
    values are the dense labels. *)
Lemma sorted_unique_positions (l : list K) :
  let present := sorted_unique R l in
  sorted_unique Z.le
    ((λ k, Z.of_nat (default 0 (enumerate_dict present !! k))) <$> l)
  = Z.of_nat <$> seq 0 (length present).
Proof.
  intros present.
  assert (NoDup present) as Hnd by apply sorted_unique_NoDup.
  assert (∀ k i, enumerate_dict present !! k = Some i ↔ present !! i = Some k)
    as Hmap by (intros; by apply enumerate_dict_lookup).
  apply (StronglySorted_unique Z.le).
  - apply sorted_unique_sorted; apply _.
  - apply StronglySorted_dense.
  - apply NoDup_Permutation.
    + apply sorted_unique_NoDup.
    + apply (NoDup_fmap_2 _). apply NoDup_seq.
    + intros z. rewrite elem_of_sorted_unique, !list_elem_of_fmap. split.
      * intros (k & -> & Hk).
        apply (elem_of_sorted_unique R) in Hk.
        apply list_elem_of_lookup in Hk as [i Hi].
        exists i. rewrite (proj2 (Hmap k i) Hi). simpl. split; [done|].
        apply elem_of_seq. apply lookup_lt_Some in Hi.
        unfold present. lia.
      * intros (i & -> & [_ Hi]%elem_of_seq).
        destruct (lookup_lt_is_Some_2 present i) as [k Hk]; [lia|].
        exists k. rewrite (proj2 (Hmap k i) Hk). split; [done|].
        apply (elem_of_sorted_unique R). by eapply list_elem_of_lookup_2.
Qed.

End dense_positions.

(** The class number of a type that occurs is its rank among the
    types. *)
Lemma find_classnum_mapping_rank (data : list LabeledRecord) t :
  t ∈ r_type <$> data →
  find_classnum_mapping data !! t
  = Some (size (filter (λ w, string_lt w t)
                 (list_to_set (r_type <$> data) : gset string))).
Proof.
  intros Ht. unfold find_classnum_mapping.
  set (l := sorted_unique string_le (r_type <$> data)).
  assert (NoDup l) as Hnd by apply sorted_unique_NoDup.
  assert (StronglySorted string_le l) as Hs
    by (apply sorted_unique_sorted; apply _).
  apply (elem_of_sorted_unique string_le) in Ht.
  apply list_elem_of_lookup in Ht as [i Hi].
  apply enumerate_dict_lookup; [done|].
  rewrite <- (sorted_position_rank string_le l i t Hs Hnd Hi) in Hi.
  rewrite <- Hi. do 3 f_equal. apply set_eq. intros w.
  rewrite !elem_of_list_to_set. unfold l. by rewrite elem_of_sorted_unique.
Qed.

Lemma find_classnum_mapping_dom (data : list LabeledRecord) t :
  is_Some (find_classnum_mapping data !! t) ↔ t ∈ r_type <$> data.
Proof.
  split.
  - unfold find_classnum_mapping. intros [i Hi].
    apply enumerate_dict_lookup in Hi; [|apply sorted_unique_NoDup].
    apply (elem_of_sorted_unique string_le).
    by eapply list_elem_of_lookup_2.
  - intros Ht. by rewrite (find_classnum_mapping_rank data t Ht).
Qed.

(** X24: the class mapping is a function of the set of the types that
    occur: two data sets with the same types, in whatever order and
    number, get the same mapping, and two data sets with the same mapping
    have the same types.  (This is what sorting the types is for.) *)
Theorem find_classnum_mapping_depends_on_types_only
    (data1 data2 : list LabeledRecord) :
  find_classnum_mapping data1 = find_classnum_mapping data2
  ↔ ∀ t, t ∈ r_type <$> data1 ↔ t ∈ r_type <$> data2.
Proof.
  split.
  - intros Heq t. by rewrite <- !find_classnum_mapping_dom, Heq.
  - intros Hel. unfold find_classnum_mapping.
    by rewrite (sorted_unique_ext string_le _ _ Hel).
Qed.

Section from_raw_data.
Context `{!ArticleEmbedder}.
Import HumanChatBotDataset.

Lemma for_each_labels (m : gmap string nat) (l : list LabeledRecord) acc :
  (∀ r, r ∈ l → is_Some (m !! r_type r)) →
  for_each (λ acc r,
      match m !! r_type r with
      | Some label => Ok (acc ++ [Z.of_nat label])
      | None => Raise (KeyError (StrKey (r_type r)))
      end) acc l
  = Ok (acc ++ ((λ r, Z.of_nat (default 0 (m !! r_type r))) <$> l)).
Proof.
  revert acc. induction l as [|r l IH]; intros acc Hall; simpl.
  - by rewrite app_nil_r.
  - destruct (Hall r) as [n Hn]; [by left|]. rewrite Hn. simpl.
    rewrite IH by (intros; apply Hall; by right).
    by rewrite <- app_assoc.
Qed.

Lemma raw_labels_loop (raw_data : list LabeledRecord) :
  for_each (λ acc r,
      match find_classnum_mapping raw_data !! r_type r with
      | Some label => Ok (acc ++ [Z.of_nat label])
      | None => Raise (KeyError (StrKey (r_type r)))
      end) [] raw_data
  = Ok (raw_labels raw_data).
Proof.
  rewrite for_each_labels; [done|].
  intros r Hr. apply find_classnum_mapping_dom, list_elem_of_fmap. eauto.
Qed.

Lemma stack_Ok (ts : list Tensor1) d :
  ts ≠ [] → (∀ t, t ∈ ts → length t = d) → stack ts = Ok ts.
Proof.
  intros Hne Hd. unfold stack. destruct ts as [|t0 ts']; [done|].
  rewrite (proj2 (forallb_forall _ _)); [done|].
  intros t Ht. apply list_elem_of_In in Ht. apply Nat.eqb_eq.
  rewrite (Hd t Ht). symmetry. apply Hd. by left.
Qed.

Lemma stack_ragged (ts : list Tensor1) t t' :
  t ∈ ts → t' ∈ ts → length t ≠ length t' → stack ts = Raise RuntimeError.
Proof.
  intros Ht Ht' Hne. unfold stack. destruct ts as [|t0 ts']; [done|].
  destruct (forallb _ _) eqn:E; [|done].
  rewrite forallb_forall in E.
  pose proof (E t (proj1 (list_elem_of_In _ _) Ht)) as H1.
  pose proof (E t' (proj1 (list_elem_of_In _ _) Ht')) as H2.
  apply Nat.eqb_eq in H1, H2. congruence.
Qed.

Lemma drop_type_features (raw : list LabeledRecord) d :
  drop_in_place "type" (raw_features raw d) = raw_features raw d.
Proof.
  apply drop_in_place_absent. unfold columns, raw_features.
  rewrite <- list_fmap_compose. intros (i & Hi & _)%list_elem_of_fmap.
  simpl in Hi. done.
Qed.

(** The store that [from_raw_data] builds from data that is not empty
    and whose embeddings have [d] entries each. *)
Lemma from_raw_data_frame (raw_data : list LabeledRecord) d :
  raw_data ≠ [] →
  (∀ r, r ∈ raw_data → length (embed (r_text r)) = d) →
  from_raw_data raw_data
  = Ok {| data := ("label", Int64 (raw_labels raw_data))
                  :: raw_features raw_data d;
          n_non_feature_columns := 1;
          number_of_classes :=
            size (list_to_set (r_type <$> raw_data) : gset string) |}.
Proof.
  intros Hne Hd. unfold from_raw_data.
  rewrite raw_labels_loop. cbn [mbind result_bind].
  rewrite (stack_Ok _ d); cycle 1.
  { by destruct raw_data. }
  { intros t (r & -> & Hr)%list_elem_of_fmap. by apply Hd. }
  cbn [mbind result_bind].
  assert (from_option length 0 (head ((λ r, embed (r_text r)) <$> raw_data))
          = d) as ->.
  { destruct raw_data as [|r ?]; [done|]. simpl. apply Hd. by left. }
  assert ((λ i, (default "" (((λ i, "f" +:+ pretty i) <$> seq 0 d) !! i),
                 Float (column_of ((λ r, embed (r_text r)) <$> raw_data) i)))
            <$> seq 0 d
          = raw_features raw_data d) as ->.
  { apply list_fmap_ext. intros j i Hi. apply lookup_seq in Hi as Hj.
    destruct Hj as [-> Hj]. simpl in *.
    by rewrite list_lookup_fmap, Hi. }
  unfold __post_init__.
  rewrite bool_decide_eq_true_2 by (right; left).
  change (get_column _ "label") with (Some (Int64 (raw_labels raw_data))).
  cbv iota beta.
  assert (sorted_unique Z.le (raw_labels raw_data)
          = Z.of_nat <$> seq 0 (size (list_to_set (r_type <$> raw_data)
                                        : gset string))) as ->.
  { unfold raw_labels, find_classnum_mapping.
    transitivity
      (sorted_unique Z.le
         ((λ t, Z.of_nat (default 0 (enumerate_dict
             (sorted_unique string_le (r_type <$> raw_data)) !! t)))
            <$> (r_type <$> raw_data))).
    { by rewrite <- list_fmap_compose. }
    rewrite (sorted_unique_positions string_le).
    by rewrite length_sorted_unique. }
  rewrite dense_labels_fixed.
  rewrite bool_decide_eq_true_2 by left.
  rewrite length_fmap, length_seq. do 2 f_equal.
  unfold drop_in_place. rewrite filter_cons, decide_False by (simpl; tauto).
  rewrite filter_cons, decide_True by done.
  f_equal. apply drop_type_features.
Qed.

Lemma from_raw_data_ragged (raw_data : list LabeledRecord) r r' :
  r ∈ raw_data → r' ∈ raw_data →
  length (embed (r_text r)) ≠ length (embed (r_text r')) →
  from_raw_data raw_data = Raise RuntimeError.
Proof.
  intros Hr Hr' Hne. unfold from_raw_data.
  rewrite raw_labels_loop. cbn [mbind result_bind].
  rewrite (stack_ragged _ (embed (r_text r)) (embed (r_text r'))); try done.
  - apply list_elem_of_fmap. eauto.
  - apply list_elem_of_fmap. eauto.
Qed.

(** The two ways [from_raw_data] can end. *)
Lemma from_raw_data_cases (raw_data : list LabeledRecord) :
  (raw_data ≠ []
   ∧ ∃ d, (∀ r, r ∈ raw_data → length (embed (r_text r)) = d)
          ∧ from_raw_data raw_data
            = Ok {| data := ("label", Int64 (raw_labels raw_data))
                            :: raw_features raw_data d;
                    n_non_feature_columns := 1;
                    number_of_classes :=
                      size (list_to_set (r_type <$> raw_data)
                              : gset string) |})
  ∨ (from_raw_data raw_data = Raise RuntimeError
     ∧ (raw_data = []
        ∨ ∃ r r', r ∈ raw_data ∧ r' ∈ raw_data
                  ∧ length (embed (r_text r)) ≠ length (embed (r_text r')))).
Proof.
  destruct raw_data as [|r0 raw]; [right; split; [done|by left]|].
  set (d := length (embed (r_text r0))).
  destruct (decide (Forall (λ r, length (embed (r_text r)) = d) (r0 :: raw)))
    as [Hall|Hnot].
  - left. split; [done|]. exists d. rewrite Forall_forall in Hall.
    split; [done|]. by apply from_raw_data_frame.
  - right. apply not_Forall_Exists in Hnot; [|apply _].
    apply Exists_exists in Hnot as (r & Hr & Hlen).
    split; [|right; exists r, r0; split; [done|split; [by left|done]]].
    apply (from_raw_data_ragged _ r r0); [done|by left|done].
Qed.

Lemma column_of_lookup (ts : Tensor2) j idx :
  (∀ t, t ∈ ts → j < length t) →
  column_of ts j !! idx = ts !! idx ≫= (λ t, t !! j).
Proof.
  unfold column_of. revert idx. induction ts as [|t ts IH]; intros idx Hall.
  - done.
  - destruct (lookup_lt_is_Some_2 t j) as [x Hx]; [apply Hall; by left|].
    cbn [omap list_omap]. rewrite Hx.
    destruct idx as [|idx]; simpl; [done|].
    apply IH. intros; apply Hall; by right.
Qed.

Lemma tensor_float32_floats (e : Tensor1) :
  Forall (λ x, F32.valid x = true) e → tensor_float32 (CFloat <$> e) = Ok e.
Proof.
  induction 1 as [|x e Hx _ IH]; [done|].
  rewrite fmap_cons. cbn [tensor_float32 cell_to_float32].
  by rewrite of_float_valid, IH.
Qed.

Lemma raw_features_row (raw_data : list LabeledRecord) d idx r :
  (∀ r, r ∈ raw_data → length (embed (r_text r)) = d) →
  raw_data !! idx = Some r →
  mapM (λ c : string * Series, series_get c.2 idx) (raw_features raw_data d)
  = Some (CFloat <$> embed (r_text r)).
Proof.
  intros Hd Hr. apply mapM_Some. unfold raw_features.
  apply Forall2_fmap_l, Forall2_same_length_lookup_2.
  - rewrite length_seq, length_fmap. symmetry. apply Hd.
    by eapply list_elem_of_lookup_2.
  - intros j i c Hi Hc. apply lookup_seq in Hi as [-> Hj]. simpl.
    rewrite column_of_lookup.
    + rewrite list_lookup_fmap, Hr. simpl.
      rewrite list_lookup_fmap in Hc. by destruct (embed (r_text r) !! j).
    + intros t (r' & -> & Hr')%list_elem_of_fmap. by rewrite Hd.
Qed.

Lemma raw_labels_lookup (raw_data : list LabeledRecord) idx r :
  raw_data !! idx = Some r →
  ∃ label, find_classnum_mapping raw_data !! r_type r = Some label
           ∧ raw_labels raw_data !! idx = Some (Z.of_nat label).
Proof.
  intros Hr. unfold raw_labels. rewrite list_lookup_fmap, Hr. simpl.
  rewrite find_classnum_mapping_rank.
  - eexists. done.
  - apply list_elem_of_fmap. exists r. split; [done|].
    by eapply list_elem_of_lookup_2.
Qed.

(** Reading the store of [from_raw_data_frame] at the index of a
    record. *)
Lemma raw_store_getitem (raw_data : list LabeledRecord) d n idx r :
  (∀ r, r ∈ raw_data →
     length (embed (r_text r)) = d
     ∧ Forall (λ x, F32.valid x = true) (embed (r_text r))) →
  raw_data !! idx = Some r →
  ∃ label,
    find_classnum_mapping raw_data !! r_type r = Some label
    ∧ __getitem__
        {| data := ("label", Int64 (raw_labels raw_data))
                   :: raw_features raw_data d;
           n_non_feature_columns := 1;
           number_of_classes := n |} idx
      = Ok (embed (r_text r), Z.of_nat label).
Proof.
  intros Hall Hr.
  destruct (raw_labels_lookup raw_data idx r Hr) as (label & Hm & Hl).
  exists label. split; [done|].
  unfold __getitem__, row, height. cbn [data fst snd series_len].
  rewrite bool_decide_eq_true_2
    by (unfold raw_labels; rewrite length_fmap; by eapply lookup_lt_Some).
  cbn [mapM fst snd series_get]. rewrite Hl.
  rewrite (raw_features_row raw_data d idx r); [|intros; by apply Hall|done].
  cbn [fmap option_fmap option_map mbind option_bind mret option_ret
       result_bind n_non_feature_columns drop].
  change (drop 0 ?l) with l.
  rewrite tensor_float32_floats
    by (apply Hall; by eapply list_elem_of_lookup_2).
  cbn [mbind result_bind].
  change (get_column _ "label") with (Some (Int64 (raw_labels raw_data))).
  cbv iota beta. by rewrite Hl.
Qed.

(** X6: [from_raw_data] fails exactly on raw data that is empty or whose
    texts are embedded with different numbers of entries, and then with
    the [RuntimeError] of [torch.stack]; otherwise it returns a store
    with one row per record and no [type] column. *)
Theorem from_raw_data_outcome (raw_data : list LabeledRecord) :
  match from_raw_data raw_data with
  | Ok store =>
      raw_data ≠ []
      ∧ (∀ r r', r ∈ raw_data → r' ∈ raw_data →
           length (embed (r_text r)) = length (embed (r_text r')))
      ∧ __len__ store = length raw_data
      ∧ "type" ∉ columns (data store)
  | Raise e =>
      e = RuntimeError
      ∧ (raw_data = []
         ∨ ∃ r r', r ∈ raw_data ∧ r' ∈ raw_data
                   ∧ length (embed (r_text r)) ≠ length (embed (r_text r')))
  end.
Proof.
  destruct (from_raw_data_cases raw_data)
    as [(Hne & d & Hd & ->)|[-> Hwhy]]; [|done].
  split; [done|]. split.
  { intros r r' Hr Hr'. by rewrite (Hd r), (Hd r'). }
  split; [apply length_fmap|].
  unfold columns, raw_features. simpl. rewrite <- list_fmap_compose.
  intros [|(i & Hi & _)%list_elem_of_fmap]%elem_of_cons; done.
Qed.

(** X7: from raw data that is not empty and whose texts are embedded as
    [float32] vectors of [d] entries each, [from_raw_data] builds a store
    of as many items as there are records, of embedding size [d], with as
    many classes as there are distinct types; reading it at the index of a
    record returns the embedding of the text of the record, unchanged,
    and the class number that [find_classnum_mapping] gives to its type;
    reading it past the last record fails. *)
Theorem from_raw_data_getitem (raw_data : list LabeledRecord) (d : nat) :
  raw_data ≠ [] →
  (∀ r, r ∈ raw_data →
     length (embed (r_text r)) = d
     ∧ Forall (λ x, F32.valid x = true) (embed (r_text r))) →
  ∃ store,
    from_raw_data raw_data = Ok store
    ∧ __len__ store = length raw_data
    ∧ embedding_size store = d
    ∧ number_of_classes store
      = size (list_to_set (r_type <$> raw_data) : gset string)
    ∧ (∀ idx r, raw_data !! idx = Some r →
         ∃ label,
           find_classnum_mapping raw_data !! r_type r = Some label
           ∧ __getitem__ store idx = Ok (embed (r_text r), Z.of_nat label))
    ∧ (∀ idx, length raw_data ≤ idx → is_Ok (__getitem__ store idx) = false).
Proof.
  intros Hne Hall.
  eexists. split; [apply (from_raw_data_frame raw_data d); [done|]|].
  { intros r Hr. by apply Hall. }
  assert (length (raw_labels raw_data) = length raw_data) as Hlen
    by apply length_fmap.
  split; [done|]. split.
  { unfold embedding_size, columns, raw_features. simpl.
    rewrite !length_fmap, length_seq. lia. }
  split; [done|]. split.
  - intros idx r Hr. by apply raw_store_getitem.
  - intros idx Hidx. unfold __getitem__, row, height.
    cbn [data fst snd series_len].
    rewrite bool_decide_eq_false_2 by (rewrite Hlen; lia). done.
Qed.

(** X8: the two stores of [from_train_test_raw_data] are labelled
    independently of each other.  A record of the training data and a
    record of the test data that have the same type get the same label
    exactly when as many distinct types lie below that type in the
    training data as in the test data; so they do when both splits have
    the same types, and they need not when a type is missing from one. *)
Theorem train_test_labels_agree_iff
    (train_data test_data : list LabeledRecord) (train test : t) :
  from_train_test_raw_data train_data test_data = Ok (train, test) →
  ∃ train_labels test_labels,
    get_sample_labels train = Ok (Int64 train_labels)
    ∧ get_sample_labels test = Ok (Int64 test_labels)
    ∧ ∀ i j r r',
        train_data !! i = Some r → test_data !! j = Some r' →
        r_type r = r_type r' →
        (train_labels !! i = test_labels !! j
         ↔ size (filter (λ w, string_lt w (r_type r))
              (list_to_set (r_type <$> train_data) : gset string))
           = size (filter (λ w, string_lt w (r_type r))
               (list_to_set (r_type <$> test_data) : gset string))).
Proof.
  unfold from_train_test_raw_data.
  destruct (from_raw_data_cases train_data)
    as [(_ & d1 & _ & ->)|[-> _]]; [|done].
  destruct (from_raw_data_cases test_data)
    as [(_ & d2 & _ & ->)|[-> _]]; [|done].
  cbn [mbind result_bind]. intros [= <- <-].
  exists (raw_labels train_data), (raw_labels test_data).
  split; [done|]. split; [done|].
  intros i j r r' Hr Hr' Hty.
  destruct (raw_labels_lookup train_data i r Hr) as (l1 & Hm1 & ->).
  destruct (raw_labels_lookup test_data j r' Hr') as (l2 & Hm2 & ->).
  rewrite find_classnum_mapping_rank in Hm1, Hm2;
    [|apply list_elem_of_fmap; exists r'; split;
        [done|by eapply list_elem_of_lookup_2]
     |apply list_elem_of_fmap; exists r; split;
        [done|by eapply list_elem_of_lookup_2]].
  injection Hm1 as <-. injection Hm2 as <-. rewrite <- Hty.
  split; [intros [= Heq]; lia|by intros ->].
Qed.

(** X9: the lazy dataset and the store agree.  When [from_raw_data] has
    built a store from raw data whose texts are embedded as [float32]
    vectors, the lazy dataset on the same raw data with the mapping of
    [find_classnum_mapping] can be built, has the same length, and
    returns at every index below it the item that the store returns. *)
Theorem lazy_agrees_with_store (raw_data : list LabeledRecord) (store : t) :
  from_raw_data raw_data = Ok store →
  (∀ r, r ∈ raw_data → Forall (λ x, F32.valid x = true) (embed (r_text r))) →
  ∃ lazy,
    LazyHumanChatBotDataset.from_raw_data raw_data
      (Z.of_nat <$> find_classnum_mapping raw_data) = Ok lazy
    ∧ LazyHumanChatBotDataset.__len__ lazy = __len__ store
    ∧ ∀ idx, idx < __len__ store →
        LazyHumanChatBotDataset.__getitem__ lazy idx = __getitem__ store idx.
Proof.
  intros Hstore Hvalid.
  destruct (from_raw_data_cases raw_data)
    as [(Hne & d & Hd & Heq)|[Heq _]]; [|congruence].
  rewrite Heq in Hstore. injection Hstore as <-.
  unfold LazyHumanChatBotDataset.from_raw_data.
  rewrite lazy_post_init_covered; cycle 1.
  { intros r Hr. rewrite lookup_fmap, find_classnum_mapping_rank; [done|].
    apply list_elem_of_fmap. eauto. }
  assert (__len__ {| data := ("label", Int64 (raw_labels raw_data))
                             :: raw_features raw_data d;
                     n_non_feature_columns := 1;
                     number_of_classes :=
                       size (list_to_set (r_type <$> raw_data)
                               : gset string) |}
          = length raw_data) as Hlen by apply length_fmap.
  eexists. split; [done|]. split; [by rewrite Hlen|].
  intros idx Hidx. rewrite Hlen in Hidx.
  destruct (lookup_lt_is_Some_2 raw_data idx Hidx) as [r Hr].
  destruct (raw_store_getitem raw_data d
              (size (list_to_set (r_type <$> raw_data) : gset string))
              idx r) as (label & Hm & ->); [|done|].
  { intros r0 Hr0. split; [by apply Hd|by apply Hvalid]. }
  unfold LazyHumanChatBotDataset.__getitem__,
    LazyHumanChatBotDataset.get_class_num. simpl.
  by rewrite Hr, lookup_fmap, Hm.
Qed.

End from_raw_data.

(** ** More on the image dataset *)

Lemma for_each_app {A S} (body : S → A → result S) s (l1 l2 : list A) :
  for_each body s (l1 ++ l2) = for_each body s l1 ≫= λ s', for_each body s' l2.
Proof.
  revert s. induction l1 as [|a l1 IH]; intros s; simpl; [done|].
  destruct (body s a) as [s1|e]; simpl; [apply IH|done].
Qed.

Section image_items.
Context `{!ResizeTransform}.
Import ImageByCrossMultiplicationDataset.

(** The image and the label of one sample, computed on demand. *)
Local Abbreviation item ds rz idx :=
  ('(embedding, label) ← HumanChatBotDataset.__getitem__ ds idx;
   image ← project rz embedding;
   Ok (image, label)).

Lemma precompute_step_item ds rz (c : gmap nat Tensor2) a :
  precompute_step ds rz c a = (λ p, <[a := p.1]> c) <$> item ds rz a.
Proof.
  unfold precompute_step.
  destruct (HumanChatBotDataset.__getitem__ ds a) as [[e lab]|]; [|done].
  simpl. by destruct (project rz e).
Qed.

Lemma post_init_fields ds rz pre ids :
  __post_init__ ds rz pre = Ok ids →
  human_chatbot_ds ids = ds ∧ resize ids = rz
  ∧ image_height ids
    = (if rz then DEFAULT_IMAGE_SHAPE.1
       else HumanChatBotDataset.embedding_size ds)
  ∧ image_width ids
    = (if rz then DEFAULT_IMAGE_SHAPE.2
       else HumanChatBotDataset.embedding_size ds)
  ∧ (if pre
     then for_each (precompute_step ds rz) ∅
            (seq 0 (HumanChatBotDataset.__len__ ds)) = Ok (cache ids)
     else cache ids = ∅).
Proof.
  unfold __post_init__.
  destruct (if rz then DEFAULT_IMAGE_SHAPE else _) as [h w] eqn:Hhw.
  destruct pre.
  - destruct (for_each _ _ _) as [c|]; simpl; [|done]. intros [= <-].
    simpl. unfold image_height, image_width. simpl.
    by destruct rz; injection Hhw as <- <-.
  - simpl. intros [= <-]. unfold image_height, image_width. simpl.
    by destruct rz; injection Hhw as <- <-.
Qed.

(** Reading a constructed dataset is computing the item on demand. *)
Lemma getitem_item ds rz pre ids idx :
  __post_init__ ds rz pre = Ok ids → __getitem__ ids idx = item ds rz idx.
Proof.
  intros (Hds & Hrz & _ & _ & Hcache)%post_init_fields.
  unfold __getitem__. rewrite Hds.
  destruct (HumanChatBotDataset.__getitem__ ds idx) as [[e lab]|] eqn:Hget;
    [|done].
  cbn [mbind result_bind]. destruct pre.
  - apply precompute_loop_cache in Hcache as [Hin _].
    destruct (getitem_length ds idx e lab Hget) as [Hidx _].
    destruct (Hin idx) as (e' & lab' & img & Hget' & Himg & Hc).
    { apply elem_of_seq. lia. }
    rewrite Hget in Hget'. injection Hget' as <- <-.
    rewrite Himg. cbn [mbind result_bind].
    rewrite bool_decide_eq_true_2; [by rewrite Hc|].
    intros Hempty. by rewrite Hempty, lookup_empty in Hc.
  - rewrite Hcache, Hrz.
    by rewrite bool_decide_eq_false_2 by (by intros []).
Qed.

Lemma store_getitem_int_nonneg (ds : HumanChatBotDataset.t) (idx : Z) :
  (0 ≤ idx)%Z →
  HumanChatBotDataset.getitem_int ds idx
  = HumanChatBotDataset.__getitem__ ds (Z.to_nat idx).
Proof.
  intros Hidx. unfold HumanChatBotDataset.getitem_int, position.
  by rewrite bool_decide_eq_true_2.
Qed.

Lemma getitem_int_nonneg (ids : t) (idx : Z) :
  (0 ≤ idx)%Z → getitem_int ids idx = __getitem__ ids (Z.to_nat idx).
Proof.
  intros Hidx. unfold getitem_int, __getitem__, cache_get.
  rewrite store_getitem_int_nonneg by done.
  destruct (HumanChatBotDataset.__getitem__ _ _) as [[e lab]|]; [|done].
  cbn [mbind result_bind].
  by rewrite (bool_decide_eq_true_2 (0 ≤ idx)%Z), Z2Nat.id.
Qed.

(** X10: a read of a constructed image dataset at any integer index.  The
    store answers first, counting a negative index from the end, and its
    failure is the failure of the read.  When the store answers, the read
    gives what the on-demand path computes, the item of the store
    projected and (if asked) resized with the label of the store,
    whatever the flags, except at a negative index of a precomputed
    dataset: the cache has no negative key, and the read raises a
    [KeyError] of that index. *)
Theorem image_getitem_outcome (ds : HumanChatBotDataset.t)
    (rz pre : bool) (ids : t) (idx : Z) :
  __post_init__ ds rz pre = Ok ids →
  getitem_int ids idx
  = ('(embedding, label) ← HumanChatBotDataset.getitem_int ds idx;
     if pre && bool_decide (idx < 0)%Z then Raise (KeyError (IntKey idx))
     else image ← project rz embedding;
          Ok (image, label)).
Proof.
  intros Hinit. destruct (decide (0 ≤ idx)%Z) as [Hidx|Hidx].
  - rewrite getitem_int_nonneg, store_getitem_int_nonneg by done.
    rewrite (getitem_item _ _ _ _ _ Hinit).
    rewrite (bool_decide_eq_false_2 (idx < 0)%Z) by lia.
    by rewrite andb_false_r.
  - apply post_init_fields in Hinit as (Hds & Hrz & _ & _ & Hcache).
    unfold getitem_int, cache_get. rewrite Hds.
    rewrite (bool_decide_eq_false_2 (0 ≤ idx)%Z) by done.
    rewrite (bool_decide_eq_true_2 (idx < 0)%Z) by lia.
    rewrite andb_true_r.
    destruct (HumanChatBotDataset.getitem_int ds idx) as [[e lab]|] eqn:Hget;
      [|done].
    cbn [mbind result_bind]. destruct pre.
    + rewrite bool_decide_eq_true_2; [done|].
      unfold HumanChatBotDataset.getitem_int in Hget.
      destruct (position _ idx) as [i|]; [|done].
      apply precompute_loop_cache in Hcache as [Hin _].
      destruct (getitem_length ds i e lab Hget) as [Hi _].
      destruct (Hin i) as (e' & lab' & img & _ & _ & Hc).
      { apply elem_of_seq. lia. }
      intros Hempty. by rewrite Hempty, lookup_empty in Hc.
    + rewrite Hcache, Hrz.
      by rewrite bool_decide_eq_false_2 by (by intros []).
Qed.

Lemma precompute_loop_outcome ds rz n :
  match for_each (precompute_step ds rz) ∅ (seq 0 n) with
  | Ok _ => ∀ j, j < n → is_Ok (item ds rz j) = true
  | Raise e =>
      ∃ idx, idx < n ∧ item ds rz idx = Raise e
             ∧ ∀ j, j < idx → is_Ok (item ds rz j) = true
  end.
Proof.
  induction n as [|n IH]; [simpl; intros; lia|].
  rewrite seq_S, for_each_app. simpl.
  destruct (for_each _ _ (seq 0 n)) as [c|e]; simpl.
  - rewrite precompute_step_item.
    destruct (item ds rz n) as [p|e] eqn:Hn; simpl.
    + intros j Hj. destruct (decide (j = n)) as [->|]; [by rewrite Hn|].
      apply IH. lia.
    + exists n. split; [lia|]. split; [done|]. intros j Hj. by apply IH.
  - destruct IH as (idx & Hidx & Hr & Hbefore).
    exists idx. split; [lia|done].
Qed.

(** X11: construction without precomputation never fails; construction
    with precomputation fails exactly when some item cannot be computed
    on demand, and then with the exception of the first such item, in
    index order. *)
Theorem precompute_fails_at_first_bad_item (ds : HumanChatBotDataset.t)
    (rz : bool) :
  ∃ on_demand,
    __post_init__ ds rz false = Ok on_demand
    ∧ (∀ e, __post_init__ ds rz true = Raise e
            ↔ ∃ idx, idx < HumanChatBotDataset.__len__ ds
                     ∧ __getitem__ on_demand idx = Raise e
                     ∧ ∀ j, j < idx → is_Ok (__getitem__ on_demand j) = true)
    ∧ (is_Ok (__post_init__ ds rz true) = true
       ↔ ∀ idx, idx < HumanChatBotDataset.__len__ ds →
           is_Ok (__getitem__ on_demand idx) = true).
Proof.
  destruct (__post_init__ ds rz false) as [od|] eqn:Hod; cycle 1.
  { unfold __post_init__ in Hod.
    by destruct (if rz then DEFAULT_IMAGE_SHAPE else _). }
  exists od. split; [done|].
  assert (∀ idx, __getitem__ od idx = item ds rz idx) as Hitem.
  { intros idx. by rewrite (getitem_item ds rz false od). }
  pose proof (precompute_loop_outcome ds rz (HumanChatBotDataset.__len__ ds))
    as Hloop.
  assert (__post_init__ ds rz true
          = for_each (precompute_step ds rz) ∅
              (seq 0 (HumanChatBotDataset.__len__ ds))
            ≫= λ c, Ok {| human_chatbot_ds := ds; resize := rz;
                           precompute := true; cache := c;
                           _image_height := _image_height od;
                           _image_width := _image_width od |}) as ->.
  { unfold __post_init__ in *.
    destruct (if rz then DEFAULT_IMAGE_SHAPE else _) as [h w].
    simpl in Hod. by injection Hod as <-. }
  destruct (for_each _ _ _) as [c|e0]; simpl.
  - split.
    + intros e. split; [done|]. intros (idx & Hidx & Hr & _).
      rewrite Hitem in Hr. specialize (Hloop idx Hidx). by rewrite Hr in Hloop.
    + split; [|done]. intros _ idx Hidx. rewrite Hitem. by apply Hloop.
  - destruct Hloop as (idx & Hidx & Hr & Hbefore). split.
    + intros e. split.
      * intros [= <-]. exists idx. rewrite Hitem. split; [done|].
        split; [done|]. intros j Hj. rewrite Hitem. by apply Hbefore.
      * intros (idx' & Hidx' & Hr' & Hbefore').
        rewrite Hitem in Hr'.
        destruct (Nat.lt_trichotomy idx idx') as [Hlt|[->|Hgt]].
        -- specialize (Hbefore' idx Hlt). rewrite Hitem, Hr in Hbefore'. done.
        -- congruence.
        -- specialize (Hbefore idx' Hgt). by rewrite Hr' in Hbefore.
    + split; [done|]. intros Hall. specialize (Hall idx Hidx).
      by rewrite Hitem, Hr in Hall.
Qed.

(** X12: an item read from a constructed image dataset is the item of
    the store at the same index, which lies below the common length of
    the two, with the label of the store.  Without resizing, the declared
    height and width are the embedding size of the store, and the image
    is a square of that side; with resizing, the declared dimensions are
    [DEFAULT_IMAGE_SHAPE]. *)
Theorem image_dimensions_as_declared (ds : HumanChatBotDataset.t)
    (rz pre : bool) (ids : t) (idx : nat) (image : Tensor2) (label : Z) :
  __post_init__ ds rz pre = Ok ids →
  __getitem__ ids idx = Ok (image, label) →
  __len__ ids = HumanChatBotDataset.__len__ ds
  ∧ idx < __len__ ids
  ∧ (∃ embedding,
       HumanChatBotDataset.__getitem__ ds idx = Ok (embedding, label))
  ∧ (if rz
     then (image_height ids, image_width ids) = DEFAULT_IMAGE_SHAPE
     else image_height ids = HumanChatBotDataset.embedding_size ds
          ∧ image_width ids = HumanChatBotDataset.embedding_size ds
          ∧ square (image_height ids) image).
Proof.
  intros Hids Hget.
  rewrite (getitem_item ds rz pre ids idx Hids) in Hget.
  apply post_init_fields in Hids as (Hds & Hrz & Hh & Hw & _).
  destruct (HumanChatBotDataset.__getitem__ ds idx) as [[e lab]|] eqn:Hitem;
    [|done].
  cbn [mbind result_bind] in Hget.
  destruct (getitem_length ds idx e lab Hitem) as [Hidx Hlen].
  unfold project in Hget.
  destruct (get_embedding_as_image_tensor e) as [img|] eqn:Himg; [|done].
  cbn [mbind result_bind] in Hget. injection Hget as <- <-.
  unfold __len__. rewrite Hds. split; [done|]. split; [done|].
  split; [by exists e|].
  destruct rz.
  - by rewrite Hh, Hw.
  - split; [done|]. split; [done|]. rewrite Hh, <- Hlen.
    by apply projection_square_symmetric in Himg as [? _].
Qed.

End image_items.

(** *** Saving the images *)

Lemma pretty_Z_of_nat (n : nat) : pretty (Z.of_nat n) = pretty n.
Proof. by destruct n. Qed.

Lemma os_path_join_app a p q :
  os_path_join a (p ++ q) = os_path_join (os_path_join a p) q.
Proof. apply foldl_app. Qed.

Section convert_and_save.
Import HumanChatBotDataset.

Lemma makedirs_loop root (l : list nat) calls :
  for_eachM (λ _ i, makedirs (os_path_join root [pretty i])) () l calls
  = (Ok (), calls ++ ((λ c, Makedirs (os_path_join root [pretty c])) <$> l)).
Proof.
  revert calls. induction l as [|i l IH]; intros calls; simpl.
  - by rewrite app_nil_r.
  - rewrite bind_eq. simpl. rewrite IH. by rewrite <- app_assoc.
Qed.

Local Abbreviation save_item ds root :=
  (λ (_ : ()) (i : nat),
     '(embedding, label) ← lift (HumanChatBotDataset.__getitem__ ds i);
     generate_and_save embedding
       (os_path_join root [pretty label; pretty i +:+ ".png"])).

Local Abbreviation saved ds root :=
  (λ (i : nat) (call : FileCall),
     ∃ embedding label image,
       __getitem__ ds i = Ok (embedding, label)
       ∧ get_embedding_as_image_tensor embedding = Ok image
       ∧ call = ImageSave image
                  (os_path_join root [pretty label; pretty i +:+ ".png"])).

(** The loop over the items saves the images of an initial segment of
    the indices, all of them if it returns. *)
Lemma save_loop ds root (l : list nat) calls r calls' :
  for_eachM (save_item ds root) () l calls = (r, calls') →
  ∃ k saves,
    calls' = calls ++ saves
    ∧ Forall2 (saved ds root) (take k l) saves
    ∧ (r = Ok () → take k l = l).
Proof.
  revert calls. induction l as [|i l IH]; intros calls; simpl.
  - intros [= <- <-]. exists 0, []. by rewrite app_nil_r.
  - rewrite bind_eq. unfold generate_and_save. rewrite bind_eq. unfold lift.
    destruct (__getitem__ ds i) as [[e lab]|ex] eqn:Hget; cycle 1.
    { intros [= <- <-]. exists 0, []. by rewrite app_nil_r. }
    rewrite bind_eq.
    destruct (get_embedding_as_image_tensor e) as [img|ex] eqn:Himg; cycle 1.
    { intros [= <- <-]. exists 0, []. by rewrite app_nil_r. }
    simpl. intros (k & saves & -> & Hall & Hr)%IH.
    exists (S k), (ImageSave img
                     (os_path_join root [pretty lab; pretty i +:+ ".png"])
                   :: saves).
    rewrite <- app_assoc. split; [done|]. simpl. split.
    + constructor; [|done]. by exists e, lab, img.
    + intros Hok. by rewrite Hr.
Qed.

(** X25: [convert_and_save] on a store constructed from a frame whose
    [label] column holds integers first creates one directory per class
    number, then saves images in index order, until an item cannot be
    read or projected.  The image of item [i] is its projection, and it
    is saved under the name [i.png] inside the directory of the label of
    the item, which is one of the directories created before: no image
    is aimed at a directory that was not made. *)
Theorem convert_and_save_uses_created_directories (df : DataFrame)
    (labels : list Z) (ds : t) (root_save_path : string) r
    (calls : list FileCall) :
  get_column df "label" = Some (Int64 labels) →
  __post_init__ df = Ok ds →
  convert_and_save ds root_save_path [] = (r, calls) →
  ∃ saves,
    calls = ((λ c, Makedirs (os_path_join root_save_path [pretty c]))
               <$> seq 0 (number_of_classes ds)) ++ saves
    ∧ length saves ≤ __len__ ds
    ∧ (r = Ok () → length saves = __len__ ds)
    ∧ ∀ i call, saves !! i = Some call →
        ∃ embedding c image,
          c < number_of_classes ds
          ∧ __getitem__ ds i = Ok (embedding, Z.of_nat c)
          ∧ get_embedding_as_image_tensor embedding = Ok image
          ∧ call = ImageSave image
                     (os_path_join
                        (os_path_join root_save_path [pretty c])
                        [pretty i +:+ ".png"]).
Proof.
  intros _ Hds. unfold convert_and_save. rewrite bind_eq, makedirs_loop.
  cbv beta iota. rewrite app_nil_l.
  intros (k & saves & -> & Hall & Hr)%save_loop.
  exists saves. split; [done|].
  pose proof (Forall2_length _ _ _ Hall) as Hlen.
  rewrite length_take, length_seq in Hlen.
  split; [lia|]. split.
  { intros Hok. apply Hr, (f_equal length) in Hok.
    rewrite length_take, length_seq in Hok. lia. }
  intros i call Hcall.
  destruct (Forall2_lookup_r _ _ _ _ _ Hall Hcall)
    as (i' & Hi' & e & lab & img & Hget & Himg & ->).
  apply lookup_take_Some in Hi' as [Hi' _].
  apply lookup_seq in Hi' as [Heq _]. simpl in Heq. subst i'.
  pose proof (getitem_label_in_range df ds i e lab Hds Hget) as Hlab.
  exists e, (Z.to_nat lab), img. rewrite Z2Nat.id by lia.
  split; [lia|]. split; [done|]. split; [done|].
  rewrite <- os_path_join_app.
  by rewrite <- (pretty_Z_of_nat (Z.to_nat lab)), Z2Nat.id by lia.
Qed.

End convert_and_save.

(** ** More on the image projection *)

Section projection_more.
Local Open Scope R_scope.

Lemma rounded_zero_inv r : rounded 0 r → ∃ s, r = S754_zero s.
Proof.
  intros Hr.
  destruct (rounded_le_float 0 r F32.zero Hr) as [Hn Hle]; [done|simpl; lra|].
  destruct r as [s| | |[] m e]; try done; [by exists s|].
  cbn [B2R cond_Zopp] in Hle. pose proof (F2R_pos m e). simpl in Hle. lra.
Qed.

Lemma nonneg_float_inj a b :
  nonneg_float a → nonneg_float b → B2R a = B2R b →
  (∀ s, a ≠ S754_zero s) → a = b.
Proof.
  intros Ha Hb Hab Hnz.
  destruct a as [s| | |[] ma ea]; try done; [by destruct (Hnz s)|].
  destruct b as [s| | |[] mb eb]; try done.
  - cbn [B2R cond_Zopp] in Hab. pose proof (F2R_pos ma ea). lra.
  - cbn [B2R cond_Zopp nonneg_float] in *.
    destruct (bounded_slice ma ea Ha) as [Hsa _].
    destruct (bounded_slice mb eb Hb) as [Hsb _].
    destruct (slice_unique _ _ _ _ Hsa Hsb Hab) as [[= ->] ->]. done.
Qed.

Lemma rounded_unique x a b :
  rounded x a → rounded x b → F32.is_finite a = true →
  F32.is_finite b = true → (∀ s, a ≠ S754_zero s) → a = b.
Proof.
  intros Ha Hb Hfa Hfb Hnz.
  destruct (rounded_mono x x a b Ha Hb ltac:(lra) Hfb) as [Hna H1].
  destruct (rounded_mono x x b a Hb Ha ltac:(lra) Hfa) as [Hnb H2].
  apply nonneg_float_inj; try done. lra.
Qed.

Lemma div_self_one m e :
  SpecFloat.bounded F32.prec F32.emax m e = true →
  F32.div (S754_finite false m e) (S754_finite false m e) = F32.one.
Proof.
  intros Hb. pose proof (div_rounded m e m e) as Hr.
  pose proof (F2R_pos m e) as Hpos.
  replace (F2R (Z.pos m) e / F2R (Z.pos m) e) with 1 in Hr
    by (field; lra).
  destruct nonneg_one as [H1 H1v].
  pose proof (rounded_nonneg_float F32.one H1) as Hone. rewrite H1v in Hone.
  destruct (rounded_le_float 1 _ F32.one Hr H1 ltac:(lra)) as [Hn _].
  apply (rounded_unique 1); try done.
  - by destruct (F32.div _ _) as [| | |[]].
  - apply (rounded_not_zero 1); [done|].
    pose proof (bpow_le (-149) 0 ltac:(lia)) as Hle.
    rewrite bpow_0 in Hle. done.
Qed.

Lemma mul_zero_l s y :
  nonneg_float y → ∃ s', F32.mul (S754_zero s) y = S754_zero s'.
Proof. destruct y as [| | |[]]; try done; intros _; by eexists. Qed.

Lemma mul_zero_r s y :
  nonneg_float y → ∃ s', F32.mul y (S754_zero s) = S754_zero s'.
Proof. destruct y as [| | |[]]; try done; intros _; by eexists. Qed.

Lemma leb_zero_zero s : in_0_255 (S754_zero s) = true.
Proof. done. Qed.

(** X13: the bounds 0 and 255 of the image are attained.  For a vector
    of finite values whose maximum differs from its minimum and whose
    range does not overflow, the diagonal entry at the position of every
    largest element is exactly 255, and the row at the position of every
    smallest element is zero throughout; there is a largest and a smallest
    element, so every such image has an entry 255 and entries 0. *)
Theorem projection_attains_its_bounds (embedding : Tensor1)
    (lo hi : spec_float) :
  Forall (λ x, finite_float32 x = true) embedding →
  tensor_min embedding = Ok lo →
  tensor_max embedding = Ok hi →
  F32.eqb hi lo = false →
  F32.is_finite (F32.sub hi lo) = true →
  ∃ image,
    get_embedding_as_image_tensor embedding = Ok image
    ∧ (∀ i x, embedding !! i = Some x → F32.eqb x hi = true →
         entry image i i = Some F32.c255)
    ∧ (∀ i j x, embedding !! i = Some x → F32.eqb x lo = true →
         (j < length embedding)%nat →
         ∃ s, entry image i j = Some (S754_zero s))
    ∧ (∃ i, (i < length embedding)%nat ∧ embedding !! i = Some hi)
    ∧ (∃ i, (i < length embedding)%nat ∧ embedding !! i = Some lo).
Proof.
  intros Hfin Hmin Hmax Hne Hrange.
  assert (Forall finite_valid embedding) as Hfv.
  { eapply Forall_impl; [done|]. intros x. apply finite_float32_valid. }
  destruct embedding as [|x0 l]; [done|].
  simpl in Hmin, Hmax. injection Hmin as <-. injection Hmax as <-.
  pose proof Hfv as Hall. apply Forall_cons in Hfv as [Hx0 Hl].
  destruct (foldl_min2_finite l x0 Hx0 Hl) as (Hlo & Hlo_in & Hlo_le).
  destruct (foldl_max2_finite l x0 Hx0 Hl) as (Hhi & Hhi_in & Hhi_le).
  set (lo := foldl F32.min2 x0 l) in *. set (hi := foldl F32.max2 x0 l) in *.
  rewrite Forall_forall in Hlo_le, Hhi_le, Hall.
  assert (B2R lo < B2R hi) as Hlt.
  { destruct (Hhi_le lo Hlo_in) as [|Heq]; [done|]. symmetry in Heq.
    apply (eqb_finite hi lo Hhi Hlo) in Heq. congruence. }
  set (n := min_max_normalize (x0 :: l) lo hi).
  assert (get_embedding_as_image_tensor (x0 :: l)
          = Ok ((λ r : Tensor1, (λ x, F32.mul x F32.c255) <$> r) <$> outer n))
    as Himg by reflexivity.
  eexists. split; [exact Himg|].
  assert (∀ i x, (x0 :: l) !! i = Some x →
            n !! i = Some (F32.div (F32.sub x lo) (F32.sub hi lo))) as Hn.
  { intros i x Hi. unfold n, min_max_normalize.
    by rewrite list_lookup_fmap, Hi. }
  assert (∀ j b, n !! j = Some b → nonneg_float b) as Hunit.
  { intros j b Hb. unfold n, min_max_normalize in Hb.
    rewrite list_lookup_fmap in Hb.
    destruct ((x0 :: l) !! j) as [x|] eqn:Hx; [|done]. injection Hb as <-.
    apply list_elem_of_lookup_2 in Hx.
    apply normalized_in_unit; try done; [by apply Hall|].
    split; [by apply Hlo_le|by apply Hhi_le]. }
  destruct (sub_rounded hi lo Hhi Hlo ltac:(lra)) as [HD HD0].
  specialize (HD0 Hlt).
  destruct (rounded_mono _ _ _ _ HD HD ltac:(lra) Hrange) as [HnD _].
  clearbody n. split; [|split; [|split]].
  - intros i x Hi Hx.
    assert (finite_valid x) as Hxv
      by (apply Hall; by eapply list_elem_of_lookup_2).
    apply (eqb_finite x hi Hxv Hhi) in Hx.
    destruct (sub_rounded x lo Hxv Hlo ltac:(lra)) as [Ha Ha0].
    rewrite Hx in Ha.
    assert (F32.sub x lo = F32.sub hi lo) as Heq.
    { apply (rounded_unique _ _ _ Ha HD); [|done|apply Ha0; lra].
      by destruct (rounded_mono _ _ _ _ Ha HD ltac:(lra) Hrange)
        as [Hna _], (F32.sub x lo) as [| | |[]]. }
    rewrite entry_projection, (Hn i x Hi), Heq. simpl.
    destruct (F32.sub hi lo) as [sD| | |[] mD eD]; try done.
    { by destruct (HD0 sD). }
    by rewrite div_self_one.
  - intros i j x Hi Hx Hj.
    assert (finite_valid x) as Hxv
      by (apply Hall; by eapply list_elem_of_lookup_2).
    apply (eqb_finite x lo Hxv Hlo) in Hx.
    destruct (sub_rounded x lo Hxv Hlo ltac:(lra)) as [Ha _].
    replace (B2R x - B2R lo) with 0 in Ha by lra.
    apply rounded_zero_inv in Ha as [sa Ha].
    destruct (lookup_lt_is_Some_2 (x0 :: l) j Hj) as [y Hy].
    pose proof (Hunit j _ (Hn j y Hy)) as Hb.
    rewrite entry_projection, (Hn i x Hi), (Hn j y Hy), Ha. simpl.
    destruct (F32.sub hi lo) as [sD| | |[] mD eD]; try done.
    { by destruct (HD0 sD). }
    cbn [F32.div SFdiv] in *.
    destruct (mul_zero_l (xorb sa false) _ Hb) as [s1 ->].
    destruct (mul_zero_l s1 F32.c255) as [s2 ->]; [done|]. by exists s2.
  - apply list_elem_of_lookup in Hhi_in as [i Hi]. exists i.
    split; [by eapply lookup_lt_Some|done].
  - apply list_elem_of_lookup in Hlo_in as [i Hi]. exists i.
    split; [by eapply lookup_lt_Some|done].
Qed.

End projection_more.

Lemma foldl_min2_nan l : foldl F32.min2 S754_nan l = S754_nan.
Proof. induction l as [|y l IH]; [done|]. simpl. apply IH. Qed.

Lemma foldl_max2_nan l : foldl F32.max2 S754_nan l = S754_nan.
Proof. induction l as [|y l IH]; [done|]. simpl. apply IH. Qed.

Lemma foldl_min2_nan_elem l x :
  S754_nan ∈ x :: l → foldl F32.min2 x l = S754_nan.
Proof.
  revert x. induction l as [|y l IH]; intros x.
  - by intros [<-|?%not_elem_of_nil]%elem_of_cons.
  - intros [<-|Hin]%elem_of_cons; [apply foldl_min2_nan|].
    simpl. apply elem_of_cons in Hin as [<-|Hin].
    + replace (F32.min2 x S754_nan) with S754_nan by (by destruct x).
      apply foldl_min2_nan.
    + apply IH. by right.
Qed.

Lemma sub_nan_r x : F32.sub x S754_nan = S754_nan.
Proof. by destruct x. Qed.

Lemma div_nan_l y : F32.div S754_nan y = S754_nan.
Proof. done. Qed.

Lemma mul_nan_l y : F32.mul S754_nan y = S754_nan.
Proof. done. Qed.

Lemma projection_of_nan (embedding : Tensor1) :
  S754_nan ∈ embedding →
  get_embedding_as_image_tensor embedding
  = Ok (replicate (length embedding)
          (replicate (length embedding) S754_nan)).
Proof.
  intros Hin. destruct embedding as [|x l]; [by apply not_elem_of_nil in Hin|].
  unfold get_embedding_as_image_tensor. cbn [tensor_min tensor_max].
  rewrite foldl_min2_nan_elem by done. cbn [mbind result_bind].
  unfold min_max_normalize, outer. f_equal.
  rewrite (const_fmap _ (x :: l) S754_nan)
    by (intros i y _; by rewrite sub_nan_r).
  rewrite fmap_replicate. cbv beta. rewrite fmap_replicate.
  rewrite fmap_replicate. cbv beta. by rewrite fmap_replicate.
Qed.

(** The largest element in the presence of [+inf], the smallest in the
    presence of [-inf]. *)
Lemma foldl_max2_inf l x :
  (x = S754_infinity false ∨ x = S754_nan) ∨ S754_infinity false ∈ l →
  foldl F32.max2 x l = S754_infinity false ∨ foldl F32.max2 x l = S754_nan.
Proof.
  revert x. induction l as [|y l IH]; intros x.
  - intros [?|?%not_elem_of_nil]; done.
  - intros Hx. simpl. apply IH.
    destruct Hx as [[-> | ->]|[<-|Hin]%elem_of_cons]; [| | |by right].
    + left. destruct y as [| [] | |[]]; auto.
    + left. by right.
    + left. destruct x as [| [] | |[]]; auto.
Qed.

Lemma foldl_min2_inf l x :
  (x = S754_infinity true ∨ x = S754_nan) ∨ S754_infinity true ∈ l →
  foldl F32.min2 x l = S754_infinity true ∨ foldl F32.min2 x l = S754_nan.
Proof.
  revert x. induction l as [|y l IH]; intros x.
  - intros [?|?%not_elem_of_nil]; done.
  - intros Hx. simpl. apply IH.
    destruct Hx as [[-> | ->]|[<-|Hin]%elem_of_cons]; [| | |by right].
    + left. destruct y as [| [] | |[]]; auto.
    + left. by right.
    + left. destruct x as [| [] | |[]]; auto.
Qed.

(** X14: the projection does not reject a vector with an entry that is
    not finite, it returns an image spoilt by it: the diagonal entry at
    the position of an infinity or a NaN is NaN, so the image is not
    within [0, 255]; and one NaN entry makes every entry of the image
    NaN. *)
Theorem non_finite_entry_poisons_the_image (embedding : Tensor1) i x :
  embedding !! i = Some x →
  F32.is_finite x = false →
  ∃ image,
    get_embedding_as_image_tensor embedding = Ok image
    ∧ entry image i i = Some S754_nan
    ∧ ¬ Forall (Forall (λ y, in_0_255 y = true)) image
    ∧ (x = S754_nan →
       image = replicate (length embedding)
                 (replicate (length embedding) S754_nan)).
Proof.
  intros Hi Hx.
  assert (∃ image, get_embedding_as_image_tensor embedding = Ok image
                   ∧ entry image i i = Some S754_nan
                   ∧ (x = S754_nan →
                      image = replicate (length embedding)
                                (replicate (length embedding) S754_nan)))
    as (image & Himg & Hii & Hnan).
  { destruct x as [|s| |]; try done.
    - (* an infinity *)
      destruct embedding as [|x0 l]; [done|]. eexists. split; [done|].
      split; [|done].
      rewrite entry_projection. unfold min_max_normalize.
      rewrite list_lookup_fmap, Hi. simpl.
      apply list_elem_of_lookup_2, elem_of_cons in Hi.
      destruct s.
      + destruct (foldl_min2_inf l x0) as [-> | ->]; [|done|done].
        destruct Hi as [<-|?]; [left; by left|by right].
      + destruct (foldl_max2_inf l x0) as [-> | ->].
        { destruct Hi as [<-|?]; [left; by left|by right]. }
        * by destruct (foldl F32.min2 x0 l) as [| [] | |[]].
        * by destruct (foldl F32.min2 x0 l) as [| [] | |[]].
    - (* a NaN *)
      assert (S754_nan ∈ embedding) as Hin by (by eapply list_elem_of_lookup_2).
      eexists. split; [by apply projection_of_nan|]. split; [|done].
      unfold entry. apply lookup_lt_Some in Hi.
      rewrite lookup_replicate_2 by done. simpl.
      by rewrite lookup_replicate_2. }
  exists image. split; [done|]. split; [done|]. split; [|done].
  intros Hall. unfold entry in Hii.
  destruct (image !! i) as [r|] eqn:Hr; [|done]. simpl in Hii.
  rewrite Forall_forall in Hall.
  pose proof (Hall r ltac:(by eapply list_elem_of_lookup_2)) as Hrow.
  rewrite Forall_forall in Hrow.
  by pose proof (Hrow _ ltac:(by eapply list_elem_of_lookup_2)).
Qed.

(** ** More on the evaluation pass and the training loop *)

Lemma map_fold_keyed_sum_insert {A} (g : Z → A → nat) (m : gmap Z A) i x :
  map_fold (λ k c acc, g k c + acc) 0 (<[i := x]> m)
    + from_option (g i) 0 (m !! i)
  = g i x + map_fold (λ k c acc, g k c + acc) 0 m.
Proof.
  destruct (m !! i) as [y|] eqn:Hi; simpl.
  - rewrite <- insert_delete_eq.
    rewrite map_fold_insert_L; [|intros; lia|apply lookup_delete_eq].
    rewrite (map_fold_delete_L _ _ i y m); [lia|intros; lia|done].
  - rewrite map_fold_insert_L; [lia|intros; lia|done].
Qed.

Lemma make_up_diagonal_empty : make_up_diagonal ∅ = 0.
Proof. apply map_fold_empty. Qed.

Lemma make_up_diagonal_incr (make_up : MakeUp) i j :
  make_up_diagonal (make_up_incr make_up i j)
  = make_up_diagonal make_up + (if decide (i = j) then 1 else 0).
Proof.
  unfold make_up_diagonal, make_up_incr.
  set (inner := default ∅ (make_up !! i)).
  pose proof (map_fold_keyed_sum_insert (λ k inner, default 0 (inner !! k))
    make_up i (<[j := S (default 0 (inner !! j))]> inner)) as Hout.
  cbv beta in Hout.
  assert (from_option (λ inner, default 0 (inner !! i)) 0 (make_up !! i)
          = default 0 (inner !! i)) as Hdef.
  { unfold inner. by destruct (make_up !! i). }
  rewrite Hdef in Hout. case_decide as Hij.
  - subst j. rewrite lookup_insert_eq in Hout. simpl in Hout. lia.
  - rewrite lookup_insert_ne in Hout by done. lia.
Qed.

Lemma make_up_diagonal_foldl (make_up : MakeUp) (l : list (Z * Z)) :
  make_up_diagonal (foldl (λ m p, make_up_incr m p.1 p.2) make_up l)
  = make_up_diagonal make_up + length (filter (λ p, p.1 = p.2) l).
Proof.
  revert make_up. induction l as [|p l IH]; intros make_up; simpl; [lia|].
  rewrite IH, make_up_diagonal_incr, filter_cons.
  case_decide; simpl; lia.
Qed.

#[global] Instance same_weights_po {W G} : PreOrder (@same_weights W G).
Proof.
  split; [done|]. intros s1 s2 s3 ? ?. unfold same_weights in *. congruence.
Qed.

Section evaluation.
Context {W X G : Type} `{!Network W X} `{!RandomSampler G} `{!TorchOps}.

Local Abbreviation St := (State W G).

Lemma accuracy_step_correct acc (batch : list (X * Z)) (s : St) acc' s' :
  accuracy_step acc batch s = (Ok acc', s') →
  ∃ n, acc'.1 = acc.1 + n
       ∧ make_up_diagonal acc'.2 = make_up_diagonal acc.2 + n
       ∧ n ≤ length batch.
Proof.
  destruct acc as [c mk]. unfold accuracy_step.
  intros (out & s1 & Hcall & Hrest)%bind_Ok_inv.
  apply bind_Ok_inv in Hrest as (n & s2 & Hn & Hret).
  injection Hret as <- <-. simpl.
  unfold call in Hcall. injection Hcall as Hfw _.
  apply forward_rows in Hfw.
  unfold lift, eq_sum in Hn.
  rewrite bool_decide_eq_true_2 in Hn by (by rewrite !length_fmap, Hfw, length_fmap).
  injection Hn as <- _. exists (length (filter (λ p, p.1 = p.2)
    (zip (argmax <$> (softmax <$> out)) batch.*2))).
  split; [done|]. split; [apply make_up_diagonal_foldl|].
  etrans; [apply length_filter|].
  rewrite length_zip, !length_fmap. lia.
Qed.

Lemma accuracy_loop_correct (batches : list (list (X * Z))) acc (s : St)
    acc' s' :
  for_eachM accuracy_step acc batches s = (Ok acc', s') →
  ∃ n, acc'.1 = acc.1 + n
       ∧ make_up_diagonal acc'.2 = make_up_diagonal acc.2 + n
       ∧ n ≤ length (concat batches).
Proof.
  revert acc s. induction batches as [|b batches IH]; intros acc s; simpl.
  - intros [= <- <-]. exists 0. lia.
  - intros (acc1 & s1 & Hstep & Hloop)%bind_Ok_inv.
    apply accuracy_step_correct in Hstep as (n1 & ? & ? & ?).
    apply IH in Hloop as (n2 & ? & ? & ?).
    exists (n1 + n2). rewrite length_app. lia.
Qed.

(** X15: when [compute_accuracy] returns, the number of correct
    predictions it reports is the sum of the diagonal of the confusion
    breakdown it returns; it is at most the total it reports, which is
    not zero; and the accuracy is the quotient of the two. *)
Theorem correct_is_diagonal_of_breakdown (data_loader : DataLoader X)
    (s s' : St) correct total_items accuracy (make_up : MakeUp) :
  compute_accuracy data_loader s
    = (Ok (correct, total_items, accuracy, make_up), s') →
  correct = make_up_diagonal make_up
  ∧ correct ≤ total_items
  ∧ 0 < total_items
  ∧ int_truediv correct total_items = Ok accuracy.
Proof.
  unfold compute_accuracy.
  intros (batches & s1 & Hiter & Hrest)%bind_Ok_inv.
  apply bind_Ok_inv in Hrest as ([c mk] & s2 & Hloop & Hrest).
  apply bind_Ok_inv in Hrest as (a & s3 & Ha & Hret).
  injection Hret as <- <- <- <- <-.
  destruct (iter_batches_spec data_loader s) as (b & s1' & Hiter' & Hperm & _).
  rewrite Hiter in Hiter'. injection Hiter' as <- <-.
  apply accuracy_loop_correct in Hloop as (n & Hc & Hd & Hn). simpl in *.
  rewrite make_up_diagonal_empty in Hd. rewrite Hperm in Hn.
  unfold lift in Ha. injection Ha as Ha _.
  split; [lia|]. split; [lia|]. split; [|done].
  unfold int_truediv in Ha. case_bool_decide; [done|lia].
Qed.

Lemma chunks_nil {A} n : chunks n (@nil A) = [].
Proof. done. Qed.

Lemma loader_len_empty (dl : DataLoader X) :
  dataset dl = [] → loader_len dl = 0.
Proof.
  intros Hd. unfold loader_len. rewrite Hd. simpl.
  apply Nat.div_small. lia.
Qed.

Lemma iter_batches_empty (dl : DataLoader X) (s : St) :
  dataset dl = [] → shuffle dl = false →
  iter_batches dl s = (Ok [], set_generator (base_seed (generator s)) s).
Proof. intros Hd Hs. unfold iter_batches. by rewrite Hs, Hd. Qed.

Lemma compute_loss_empty (dl : DataLoader X) (s : St) :
  dataset dl = [] → shuffle dl = false →
  (compute_loss dl s).1 = Raise ZeroDivisionError.
Proof.
  intros Hd Hs. unfold compute_loss.
  rewrite bind_eq, iter_batches_empty by done. simpl.
  unfold float_div_int. by rewrite loader_len_empty.
Qed.

Lemma compute_accuracy_empty (dl : DataLoader X) (s : St) :
  dataset dl = [] → shuffle dl = false →
  (compute_accuracy dl s).1 = Raise ZeroDivisionError.
Proof.
  intros Hd Hs. unfold compute_accuracy.
  rewrite bind_eq, iter_batches_empty by done. simpl.
  by rewrite Hd.
Qed.

End evaluation.

#[global] Instance same_model_po {W G} : PreOrder (@same_model W G).
Proof.
  split; [done|]. intros s1 s2 s3 (? & ? & ?) (? & ? & ?).
  repeat split; congruence.
Qed.

Section evaluation_frame.
Context {W X G : Type} `{!Network W X} `{!RandomSampler G} `{!TorchOps}.

Local Abbreviation St := (State W G).
Local Abbreviation model := (@same_model W G).

Lemma model_iter_batches (dl : DataLoader X) : keeps model (iter_batches dl).
Proof.
  intros s. destruct (iter_batches_spec dl s) as (b & s' & -> & _ & [? ?] & ?).
  done.
Qed.

Lemma model_compute_accuracy (dl : DataLoader X) :
  keeps model (compute_accuracy dl).
Proof.
  unfold compute_accuracy.
  apply keeps_bind; [apply _|apply model_iter_batches|]. intros batches.
  apply keeps_bind; [apply _| |].
  - apply keeps_for_eachM; [apply _|]. intros [c mk] batch.
    unfold accuracy_step.
    apply keeps_bind; [apply _|done|]. intros out.
    apply keeps_bind; [apply _|apply keeps_lift; apply _|]. intros n.
    apply keeps_ret; apply _.
  - intros [c mk].
    apply keeps_bind; [apply _|apply keeps_lift; apply _|]. intros a.
    apply keeps_ret; apply _.
Qed.

Lemma model_compute_loss (dl : DataLoader X) : keeps model (compute_loss dl).
Proof.
  unfold compute_loss.
  apply keeps_bind; [apply _|apply model_iter_batches|]. intros batches.
  apply keeps_bind; [apply _| |].
  - apply keeps_for_eachM; [apply _|]. intros loss batch.
    unfold loss_step.
    apply keeps_bind; [apply _|done|]. intros out.
    apply keeps_bind; [apply _|apply keeps_lift; apply _|]. intros n.
    apply keeps_ret; apply _.
  - intros loss. apply keeps_lift; apply _.
Qed.

Lemma weights_update_exp_result f :
  keeps (@same_weights W G) (update_exp_result f).
Proof. done. Qed.

Lemma keeps_model_weights {A} (m : M St A) :
  keeps model m → keeps same_weights m.
Proof. intros Hm s. by destruct (Hm s). Qed.

Lemma weights_validate_body epoch (tl tel : DataLoader X) :
  keeps same_weights (_validate_after_epoch epoch tl tel).
Proof.
  unfold _validate_after_epoch.
  apply keeps_bind;
    [apply _|apply keeps_model_weights, model_compute_loss|]. intros l1.
  apply keeps_bind; [apply _|apply weights_update_exp_result|]. intros _.
  apply keeps_bind;
    [apply _|apply keeps_model_weights, model_compute_accuracy|].
  intros [[[? ?] a1] mk1].
  apply keeps_bind; [apply _|apply weights_update_exp_result|]. intros _.
  apply keeps_bind;
    [apply _|apply keeps_model_weights, model_compute_loss|]. intros l2.
  apply keeps_bind; [apply _|apply weights_update_exp_result|]. intros _.
  apply keeps_bind;
    [apply _|apply keeps_model_weights, model_compute_accuracy|].
  intros [[[? ?] a2] mk2].
  apply keeps_bind; [apply _|apply weights_update_exp_result|]. intros _.
  apply keeps_bind; [apply _|apply weights_update_exp_result|]. intros _.
  apply weights_update_exp_result.
Qed.

(** X16: on a loader without shuffling over an empty dataset, as the
    loader of an empty test split is, [compute_loss] and
    [compute_accuracy] both raise [ZeroDivisionError], the first on the
    division by the number of batches and the second on the division by
    the number of samples, and leave the weights, the mode and the record
    of results as they were. *)
Theorem evaluation_of_empty_split_divides_by_zero (data_loader : DataLoader X)
    (s : St) :
  dataset data_loader = [] → shuffle data_loader = false →
  (compute_loss data_loader s).1 = Raise ZeroDivisionError
  ∧ same_model s (compute_loss data_loader s).2
  ∧ (compute_accuracy data_loader s).1 = Raise ZeroDivisionError
  ∧ same_model s (compute_accuracy data_loader s).2.
Proof.
  intros Hd Hs.
  split; [by apply compute_loss_empty|].
  split; [apply model_compute_loss|].
  split; [by apply compute_accuracy_empty|].
  apply model_compute_accuracy.
Qed.

(** X17: the evaluation does not train.  [compute_loss] and
    [compute_accuracy] leave the weights, the mode and the record of
    results as they found them, whether they return or raise; and
    [validate_after_epoch], which does write to the record, leaves the
    weights. *)
Theorem evaluation_leaves_the_weights (epoch : nat)
    (train_loader test_loader data_loader : DataLoader X) (s : St) :
  same_model s (compute_loss data_loader s).2
  ∧ same_model s (compute_accuracy data_loader s).2
  ∧ weights (validate_after_epoch epoch train_loader test_loader s).2
    = weights s.
Proof.
  split; [apply model_compute_loss|]. split; [apply model_compute_accuracy|].
  unfold validate_after_epoch, validation_context, try_finally.
  rewrite bind_eq. simpl.
  pose proof (weights_validate_body epoch train_loader test_loader
                (set_training false s)) as Hw.
  destruct (_validate_after_epoch _ _ _ _) as [r s1]. done.
Qed.

End evaluation_frame.

Section training_runs.
Context {W X G : Type} `{!Network W X} `{!RandomSampler G} `{!TorchOps}.

Local Abbreviation St := (State W G).

Lemma bind_Raise_inv {S A B} (m : M S A) (f : A → M S B) s e s2 :
  (m ≫= f) s = (Raise e, s2) →
  m s = (Raise e, s2) ∨ ∃ a s1, m s = (Ok a, s1) ∧ f a s1 = (Raise e, s2).
Proof.
  rewrite bind_eq. destruct (m s) as [[a|e1] s1]; [eauto|].
  intros [= <- <-]. by left.
Qed.

Lemma validate_body_raises epoch (tl tel : DataLoader X) (s s' : St) e :
  _validate_after_epoch epoch tl tel s = (Raise e, s') →
  let r := exp_result s in
  exp_result s' = r
  ∨ (∃ l1, exp_result s' = append_training_loss l1 r)
  ∨ (∃ l1 a1,
       exp_result s' = append_training_accuracy a1 (append_training_loss l1 r))
  ∨ (∃ l1 a1 l2,
       exp_result s'
       = append_testing_loss l2
           (append_training_accuracy a1 (append_training_loss l1 r))).
Proof.
  intros Hr. cbv zeta. set (r := exp_result s).
  unfold _validate_after_epoch in Hr.
  apply bind_Raise_inv in Hr as [E1|(l1 & s1 & E1 & Hr)].
  { left. by apply compute_loss_record in E1. }
  apply compute_loss_record in E1.
  apply bind_Raise_inv in Hr as [U1|([] & s2 & U1 & Hr)]; [done|].
  rewrite update_exp_result_eq in U1. injection U1 as <-.
  apply bind_Raise_inv in Hr as [E2|([[[? ?] a1] mk1] & s3 & E2 & Hr)].
  { right; left. exists l1. apply compute_accuracy_record in E2.
    rewrite E2. simpl. by rewrite E1. }
  apply compute_accuracy_record in E2.
  apply bind_Raise_inv in Hr as [U2|([] & s4 & U2 & Hr)]; [done|].
  rewrite update_exp_result_eq in U2. injection U2 as <-.
  apply bind_Raise_inv in Hr as [E3|(l2 & s5 & E3 & Hr)].
  { right; right; left. exists l1, a1. apply compute_loss_record in E3.
    rewrite E3. simpl. rewrite E2. simpl. by rewrite E1. }
  apply compute_loss_record in E3.
  apply bind_Raise_inv in Hr as [U3|([] & s6 & U3 & Hr)]; [done|].
  rewrite update_exp_result_eq in U3. injection U3 as <-.
  apply bind_Raise_inv in Hr as [E4|([[[? ?] a2] mk2] & s7 & E4 & Hr)].
  { right; right; right. exists l1, a1, l2.
    apply compute_accuracy_record in E4.
    rewrite E4. simpl. rewrite E3. simpl. rewrite E2. simpl. by rewrite E1. }
  apply bind_Raise_inv in Hr as [U4|([] & s8 & U4 & Hr)]; [done|].
  apply bind_Raise_inv in Hr as [U5|([] & s9 & U5 & Hr)]; done.
Qed.

(** X18: a validation that raises leaves behind the entries it had
    appended before the failure: the record then holds, beyond what it
    held, nothing, or the training loss, or the training loss and
    accuracy, or these and the testing loss.  From a record whose six
    series have [n] entries each it therefore never reaches [n + 1]
    entries each, and the series keep equal lengths only if nothing was
    appended. *)
Theorem failed_validation_leaves_a_prefix (epoch : nat)
    (train_loader test_loader : DataLoader X) (s s' : St) e n :
  validate_after_epoch epoch train_loader test_loader s = (Raise e, s') →
  aligned n (exp_result s) →
  let r := exp_result s in
  (exp_result s' = r
   ∨ (∃ l1, exp_result s' = append_training_loss l1 r)
   ∨ (∃ l1 a1,
        exp_result s' = append_training_accuracy a1 (append_training_loss l1 r))
   ∨ (∃ l1 a1 l2,
        exp_result s'
        = append_testing_loss l2
            (append_training_accuracy a1 (append_training_loss l1 r))))
  ∧ ¬ aligned (S n) (exp_result s')
  ∧ (aligned n (exp_result s') ↔ exp_result s' = r).
Proof.
  unfold validate_after_epoch, validation_context, try_finally.
  rewrite bind_eq. simpl.
  destruct (_validate_after_epoch _ _ _ _) as [res s1] eqn:E. simpl.
  intros [= -> <-] Hal. cbv zeta.
  apply validate_body_raises in E. simpl in E. simpl.
  set (r := exp_result s) in *.
  split; [done|].
  destruct Hal as (H1 & H2 & H3 & H4 & H5 & H6).
  destruct E as [->|[(l1 & ->)|[(l1 & a1 & ->)|(l1 & a1 & l2 & ->)]]].
  - split; [intros (? & _); lia|]. done.
  - split; [intros (_ & ? & _); simpl in *; lia|].
    split; [intros (Hl & _); simpl in Hl; rewrite length_app in Hl;
            simpl in Hl; lia|].
    intros Heq. apply (f_equal (λ r, length (training_losses r))) in Heq.
    simpl in Heq. rewrite length_app in Heq. simpl in Heq. lia.
  - split; [intros (_ & _ & ? & _); simpl in *; lia|].
    split; [intros (Hl & _); simpl in Hl; rewrite length_app in Hl;
            simpl in Hl; lia|].
    intros Heq. apply (f_equal (λ r, length (training_losses r))) in Heq.
    simpl in Heq. rewrite length_app in Heq. simpl in Heq. lia.
  - split; [intros (_ & _ & _ & ? & _); simpl in *; lia|].
    split; [intros (Hl & _); simpl in Hl; rewrite length_app in Hl;
            simpl in Hl; lia|].
    intros Heq. apply (f_equal (λ r, length (training_losses r))) in Heq.
    simpl in Heq. rewrite length_app in Heq. simpl in Heq. lia.
Qed.

Lemma validate_body_empty_test epoch (tl tel : DataLoader X) (s s' : St) :
  dataset tel = [] → shuffle tel = false →
  _validate_after_epoch epoch tl tel s ≠ (Ok (), s').
Proof.
  intros Hd Hs. unfold _validate_after_epoch.
  intros (l1 & s1 & E1 & Hr)%bind_Ok_inv.
  apply bind_Ok_inv in Hr as ([] & s2 & U1 & Hr).
  apply bind_Ok_inv in Hr as ([[[? ?] a1] mk1] & s3 & E2 & Hr).
  apply bind_Ok_inv in Hr as ([] & s4 & U2 & Hr).
  apply bind_Ok_inv in Hr as (l2 & s5 & E3 & Hr).
  pose proof (compute_loss_empty tel s4 Hd Hs) as Hl.
  by rewrite E3 in Hl.
Qed.

Lemma validate_training_mode epoch (tl tel : DataLoader X) (s : St) :
  training (validate_after_epoch epoch tl tel s).2 = true.
Proof.
  unfold validate_after_epoch, validation_context, try_finally.
  rewrite bind_eq. simpl. by destruct (_validate_after_epoch _ _ _ _).
Qed.

Lemma run_epoch_Ok_inv (tl tel : DataLoader X) epoch (s s' : St) :
  run_epoch tl tel epoch s = (Ok (), s') →
  ∃ s2, validate_after_epoch epoch tl tel s2 = (Ok (), s').
Proof.
  unfold run_epoch.
  intros (batches & s1 & E1 & Hr)%bind_Ok_inv.
  apply bind_Ok_inv in Hr as ([] & s2 & E2 & Hr). eauto.
Qed.

Lemma training_loop_last (tl tel : DataLoader X) epochs (s s' : St) :
  training_loop tl tel (S epochs) s = (Ok (), s') →
  ∃ s1, run_epoch tl tel epochs s1 = (Ok (), s').
Proof.
  unfold training_loop. rewrite seq_S, for_eachM_app. simpl.
  intros ([] & s1 & E1 & Hr)%bind_Ok_inv.
  apply bind_Ok_inv in Hr as ([] & s2 & E2 & Hr).
  injection Hr as <-. eauto.
Qed.

Lemma appended_once_metadata r r' :
  appended_once r r' → metadata r' = metadata r.
Proof. by intros (l1 & a1 & l2 & a2 & mk1 & mk2 & ->). Qed.

Lemma epochs_loop_metadata (tl tel : DataLoader X) (l : list nat) (s s' : St) :
  for_eachM (λ _ epoch, run_epoch tl tel epoch) () l s = (Ok (), s') →
  metadata (exp_result s') = metadata (exp_result s).
Proof.
  revert s. induction l as [|e l IH]; intros s; simpl.
  - by intros [= <-].
  - intros ([] & s1 & E1 & Hloop)%bind_Ok_inv.
    apply run_epoch_appends, appended_once_metadata in E1.
    rewrite (IH _ Hloop). done.
Qed.

(** X19: when [run_training] returns, the record it returns is the one
    left in the state, and its metadata are the learning rate and the
    names of the optimizer and of the criterion of the model, the batch
    size 32 and the number of epochs asked for.  After one epoch or more
    the model is left in training mode, and the test set cannot have been
    empty; with no epoch the mode, the weights and the generator are
    untouched. *)
Theorem run_training_returns_its_record
    (train_dataset test_dataset : list (X * Z)) (epochs : nat)
    (s s' : St) (r : NeuralNetworkExperimentResult) :
  run_training train_dataset test_dataset epochs s = (Ok r, s') →
  exp_result s' = r
  ∧ metadata r
    = (model_learning_rate, 32, model_optimizer_name, model_criterion_name,
       epochs)
  ∧ (0 < epochs → training s' = true ∧ test_dataset ≠ [])
  ∧ (epochs = 0 →
     training s' = training s ∧ weights s' = weights s
     ∧ generator s' = generator s).
Proof.
  intros [_ Hrun]%run_training_Ok_inv. revert Hrun.
  intros ([] & s0 & E0 & Hr)%bind_Ok_inv.
  apply bind_Ok_inv in Hr as ([] & s1 & Hloop & Hget).
  injection Hget as <- <-. injection E0 as <-.
  split; [done|]. split.
  { unfold training_loop in Hloop. by apply epochs_loop_metadata in Hloop. }
  split.
  - destruct epochs as [|epochs]; [lia|]. intros _.
    apply training_loop_last in Hloop as (s2 & Hrun).
    apply run_epoch_Ok_inv in Hrun as (s3 & Hval).
    match type of Hval with
    | validate_after_epoch _ ?tl ?tel _ = _ =>
        pose proof (validate_training_mode epochs tl tel s3) as Hmode
    end.
    rewrite Hval in Hmode. split; [done|]. intros ->.
    unfold validate_after_epoch, validation_context, try_finally in Hval.
    rewrite bind_eq in Hval. simpl in Hval.
    destruct (_validate_after_epoch _ _ _ _) as [res s4] eqn:E.
    injection Hval as -> _. by apply validate_body_empty_test in E.
  - intros ->. by injection Hloop as <-.
Qed.

End training_runs.

(** ** Image dimensions after the convolutional blocks *)

Section dimensions.
Local Open Scope Z_scope.

Lemma pooled_size_positive a stride pool_stride :
  0 < stride → 0 < pool_stride →
  (1 ≤ (a `div` stride + 1) `div` pool_stride
   ↔ stride * (pool_stride - 1) ≤ a)
  ∧ (a `div` stride + 1) `div` pool_stride * (stride * pool_stride)
    ≤ a + stride.
Proof.
  intros Hs Hp.
  pose proof (Z.div_mod a stride ltac:(lia)) as Ha.
  pose proof (Z.mod_pos_bound a stride Hs) as Hra.
  set (q := a `div` stride) in *.
  pose proof (Z.div_mod (q + 1) pool_stride ltac:(lia)) as Hq.
  pose proof (Z.mod_pos_bound (q + 1) pool_stride Hp) as Hrq.
  set (h := (q + 1) `div` pool_stride) in *.
  split; [split|]; nia.
Qed.

(** X20: [get_cnn_image_dimensions] raises [ZeroDivisionError] when the
    stride or the pooling stride is zero.  With both positive it returns
    a height and a width, each computed from its own input alone; the
    height is at least 1 exactly when the padded image height is at least
    the kernel size plus [stride * (pool_stride - 1)], and likewise the
    width: on a smaller image it returns a dimension that is zero or
    negative, without an error.  Each dimension times the two strides is
    at most the padded input minus the kernel plus the stride. *)
Theorem cnn_image_dimensions_outcome
    (image_height image_width padding kernel_size stride pool_stride : Z) :
  (stride = 0 ∨ pool_stride = 0 →
   get_cnn_image_dimensions image_height image_width padding kernel_size
     stride pool_stride = Raise ZeroDivisionError)
  ∧ (0 < stride → 0 < pool_stride →
     ∃ h w,
       get_cnn_image_dimensions image_height image_width padding kernel_size
         stride pool_stride = Ok (h, w)
       ∧ (1 ≤ h ↔ kernel_size + stride * (pool_stride - 1)
                  ≤ image_height + 2 * padding)
       ∧ (1 ≤ w ↔ kernel_size + stride * (pool_stride - 1)
                  ≤ image_width + 2 * padding)
       ∧ h * (stride * pool_stride)
         ≤ image_height + 2 * padding - kernel_size + stride
       ∧ w * (stride * pool_stride)
         ≤ image_width + 2 * padding - kernel_size + stride).
Proof.
  unfold get_cnn_image_dimensions, floordiv. split.
  - intros [-> | ->]; [reflexivity|].
    by destruct (bool_decide (stride = 0)).
  - intros Hs Hp.
    rewrite (bool_decide_eq_false_2 (stride = 0)) by lia. simpl.
    rewrite (bool_decide_eq_false_2 (pool_stride = 0)) by lia. simpl.
    eexists _, _. split; [done|].
    destruct (pooled_size_positive (image_height - kernel_size + 2 * padding)
                stride pool_stride Hs Hp) as [Hh Hh'].
    destruct (pooled_size_positive (image_width - kernel_size + 2 * padding)
                stride pool_stride Hs Hp) as [Hw Hw'].
    repeat split; lia.
Qed.

Lemma two_blocks_size x k :
  ((((x - k + 2 * 0) `div` 1 + 1) `div` 2 - 5 + 2 * 0) `div` 1 + 1) `div` 2
  = (x - k - 7) `div` 4.
Proof. Z.div_mod_to_equations. lia. Qed.

(** X21: the input width that [CNN2D.__init__] computes for its fully
    connected part, through the dimension calculators of its two blocks,
    is [6 * floor((H - k - 7) / 4) * floor((W - k - 7) / 4)] for an
    image of [H] by [W] and a first kernel of size [k]; nothing raises;
    and each of the two factors is at least 1 exactly when the image
    dimension is at least [k + 11]. *)
Theorem cnn2d_flatten_output_dim_closed_form
    (image_height image_width kernel_size : Z) :
  let final_h := (image_height - kernel_size - 7) `div` 4 in
  let final_w := (image_width - kernel_size - 7) `div` 4 in
  CNN2D.flatten_output_dim image_height image_width kernel_size
  = Ok (6 * final_h * final_w)
  ∧ (1 ≤ final_h ↔ kernel_size + 11 ≤ image_height)
  ∧ (1 ≤ final_w ↔ kernel_size + 11 ≤ image_width).
Proof.
  intros final_h final_w. split.
  - unfold CNN2D.flatten_output_dim, CNN2D.new_dim_calc,
      get_cnn_image_dimensions, floordiv. simpl.
    by rewrite !two_blocks_size.
  - unfold final_h, final_w. split; Z.div_mod_to_equations; lia.
Qed.

(** X22: the dimensions that [CNNLstm.__init__] works out by hand for
    the output of its convolutional part are those that
    [get_cnn_image_dimensions] gives for padding 0, stride 1 and pooling
    stride 2, which is the calculator of a block of [CNN2D].  With a
    positive number of channels the flattened size is positive exactly
    when both image dimensions are at least the kernel size plus 1, or
    both are below the kernel size minus 1: two negative dimensions
    multiply to a positive size. *)
Theorem cnnlstm_output_dim_is_block_dimensions
    (image_height image_width kernel_size out_channels : Z) :
  CNN2D.new_dim_calc kernel_size 1 image_height image_width
  = Ok (CNNLstm.cnn_output_dim image_height image_width kernel_size)
  ∧ get_cnn_image_dimensions image_height image_width 0 kernel_size 1 2
    = Ok (CNNLstm.cnn_output_dim image_height image_width kernel_size)
  ∧ (0 < out_channels →
     (0 < CNNLstm.cnn_flatten_dim image_height image_width kernel_size
            out_channels
      ↔ (kernel_size + 1 ≤ image_height ∧ kernel_size + 1 ≤ image_width)
        ∨ (image_height < kernel_size - 1 ∧ image_width < kernel_size - 1))).
Proof.
  unfold CNN2D.new_dim_calc, get_cnn_image_dimensions, floordiv,
    CNNLstm.cnn_flatten_dim, CNNLstm.cnn_output_dim. simpl.
  rewrite !Z.div_1_r, !Z.add_0_r. split; [done|]. split; [done|].
  intros Hc.
  set (h := (image_height - kernel_size + 1) `div` 2).
  set (w := (image_width - kernel_size + 1) `div` 2).
  assert ((1 ≤ h ↔ kernel_size + 1 ≤ image_height)
          ∧ (h < 0 ↔ image_height < kernel_size - 1)
          ∧ (1 ≤ w ↔ kernel_size + 1 ≤ image_width)
          ∧ (w < 0 ↔ image_width < kernel_size - 1)) as (H1 & H2 & H3 & H4).
  { unfold h, w. repeat split; Z.div_mod_to_equations; lia. }
  rewrite <- H1, <- H2, <- H3, <- H4. nia.
Qed.

End dimensions.

(** ** The registry of models *)

(** X23: after any sequence of class definitions, the registry holds
    under a name the class it held before if it held one, and otherwise
    the first class of the sequence with that name: an entry is never
    replaced. *)
Theorem registry_keeps_first_definition {C} (__name__ : C → string)
    (classes : list C) (registry : gmap string C) (name : string) :
  define_classes __name__ classes registry !! name
  = match registry !! name with
    | Some cls => Some cls
    | None => head (filter (λ cls, __name__ cls = name) classes)
    end.
Proof.
  unfold define_classes. revert registry.
  induction classes as [|cls classes IH]; intros registry; simpl.
  - by destruct (registry !! name).
  - rewrite IH. unfold __init_subclass__. rewrite filter_cons.
    case_bool_decide as Hin.
    + apply not_elem_of_dom in Hin.
      destruct (decide (__name__ cls = name)) as [<-|Hne].
      * by rewrite lookup_insert_eq, Hin.
      * by rewrite lookup_insert_ne.
    + destruct (registry !! name) as [c|] eqn:Hr; [done|].
      rewrite decide_False; [done|]. intros <-.
      apply elem_of_dom in Hin as [c Hc]. congruence.
Qed.

(** ** The further statements at work on the sample collaborators *)

Section more_samples.
#[local] Existing Instance length_embedder.
#[local] Existing Instance nearest_resize.
#[local] Existing Instance rotating_sampler.
#[local] Existing Instance plain_torch_ops.
#[local] Existing Instance toy_network.

Lemma post_init_relabels_by_rank_witness :
  ∃ store new_labels,
    HumanChatBotDataset.__post_init__ sample_frame = Ok store
    ∧ HumanChatBotDataset.get_sample_labels store = Ok (Int64 new_labels)
    ∧ new_labels
      = (λ k, Z.of_nat (label_rank [7; 3; 7; 3]%Z k)) <$> [7; 3; 7; 3]%Z
    ∧ HumanChatBotDataset.number_of_classes store
      = size (list_to_set [7; 3; 7; 3]%Z : gset Z)
    ∧ (∀ c, c ∈ new_labels
            ↔ (0 ≤ c < Z.of_nat
                         (HumanChatBotDataset.number_of_classes store))%Z)
    ∧ (∀ i j a b a' b',
         [7; 3; 7; 3]%Z !! i = Some a → [7; 3; 7; 3]%Z !! j = Some b →
         new_labels !! i = Some a' → new_labels !! j = Some b' →
         (a < b ↔ a' < b')%Z).
Proof.
  apply (post_init_relabels_by_rank sample_frame [7; 3; 7; 3]%Z).
  reflexivity.
Defined.

Lemma post_init_idempotent_witness :
  ∃ store,
    HumanChatBotDataset.__post_init__ sample_frame = Ok store
    ∧ HumanChatBotDataset.__post_init__ (HumanChatBotDataset.data store)
      = Ok store.
Proof.
  eexists. refine (let H := _ in conj H (post_init_idempotent _ _ H)).
  by vm_compute.
Defined.

Lemma getitem_within_declared_shape_witness :
  ∃ store embedding label,
    HumanChatBotDataset.__post_init__ sample_frame = Ok store
    ∧ HumanChatBotDataset.__getitem__ store 2 = Ok (embedding, label)
    ∧ 2 < HumanChatBotDataset.__len__ store
    ∧ length embedding = HumanChatBotDataset.embedding_size store
    ∧ (0 ≤ label
       < Z.of_nat (HumanChatBotDataset.number_of_classes store))%Z.
Proof.
  eexists _, _, _.
  assert (HumanChatBotDataset.__post_init__ sample_frame = Ok _) as H1
    by (by vm_compute).
  match type of H1 with
  | _ = Ok ?store =>
      assert (HumanChatBotDataset.__getitem__ store 2 = Ok (_, _)) as H2
        by (by vm_compute)
  end.
  exact (conj H1 (conj H2
           (getitem_within_declared_shape sample_frame _ 2 _ _ H1 H2))).
Defined.

Lemma samples_as_X_width_witness :
  ∃ store,
    HumanChatBotDataset.__post_init__ sample_frame = Ok store
    ∧ NoDup (columns sample_frame)
    ∧ columns (HumanChatBotDataset.get_samples_as_X store)
      = filter (λ c, c ≠ "label" ∧ c ≠ "type") (columns sample_frame)
    ∧ length (columns (HumanChatBotDataset.get_samples_as_X store))
      = HumanChatBotDataset.embedding_size store
    ∧ ∀ name, name ≠ "label" → name ≠ "type" →
        get_column (HumanChatBotDataset.get_samples_as_X store) name
        = get_column sample_frame name.
Proof.
  eexists.
  assert (HumanChatBotDataset.__post_init__ sample_frame = Ok _) as H1
    by (by vm_compute).
  assert (NoDup (columns sample_frame)) as H2.
  { apply NoDup_ListNoDup. repeat constructor; simpl; intuition discriminate. }
  exact (conj H1 (conj H2 (samples_as_X_width sample_frame _ H1 H2))).
Defined.

Lemma sample_records_embedded r :
  r ∈ sample_records →
  length (embed (r_text r)) = 2
  ∧ Forall (λ x, F32.valid x = true) (embed (r_text r)).
Proof.
  unfold sample_records. intros Hr.
  repeat (apply elem_of_cons in Hr as [->|Hr]);
    [by split; [|repeat constructor]..|by apply not_elem_of_nil in Hr].
Qed.

Lemma from_raw_data_getitem_witness :
  ∃ store,
    HumanChatBotDataset.from_raw_data sample_records = Ok store
    ∧ HumanChatBotDataset.__len__ store = length sample_records
    ∧ HumanChatBotDataset.embedding_size store = 2
    ∧ HumanChatBotDataset.number_of_classes store
      = size (list_to_set (r_type <$> sample_records) : gset string)
    ∧ (∀ idx r, sample_records !! idx = Some r →
         ∃ label,
           find_classnum_mapping sample_records !! r_type r = Some label
           ∧ HumanChatBotDataset.__getitem__ store idx
             = Ok (embed (r_text r), Z.of_nat label))
    ∧ (∀ idx, length sample_records ≤ idx →
         is_Ok (HumanChatBotDataset.__getitem__ store idx) = false).
Proof.
  apply (from_raw_data_getitem sample_records 2);
    [done|apply sample_records_embedded].
Defined.

Lemma train_test_labels_agree_iff_witness :
  ∃ train test train_labels test_labels,
    HumanChatBotDataset.from_train_test_raw_data sample_records
      [ {| r_type := "human"; r_text := "yo" |} ] = Ok (train, test)
    ∧ HumanChatBotDataset.get_sample_labels train = Ok (Int64 train_labels)
    ∧ HumanChatBotDataset.get_sample_labels test = Ok (Int64 test_labels)
    ∧ train_labels !! 0 = Some 1%Z
    ∧ test_labels !! 0 = Some 0%Z.
Proof.
  eexists _, _.
  assert (HumanChatBotDataset.from_train_test_raw_data sample_records
            [ {| r_type := "human"; r_text := "yo" |} ] = Ok (_, _)) as H
    by (by vm_compute).
  destruct (train_test_labels_agree_iff _ _ _ _ H)
    as (l1 & l2 & H1 & H2 & _).
  exists l1, l2. split; [exact H|]. split; [exact H1|]. split; [exact H2|].
  injection H1 as <-. injection H2 as <-. by vm_compute.
Defined.

Lemma lazy_agrees_with_store_witness :
  ∃ store lazy,
    HumanChatBotDataset.from_raw_data sample_records = Ok store
    ∧ LazyHumanChatBotDataset.from_raw_data sample_records
        (Z.of_nat <$> find_classnum_mapping sample_records) = Ok lazy
    ∧ LazyHumanChatBotDataset.__len__ lazy
      = HumanChatBotDataset.__len__ store
    ∧ ∀ idx, idx < HumanChatBotDataset.__len__ store →
        LazyHumanChatBotDataset.__getitem__ lazy idx
        = HumanChatBotDataset.__getitem__ store idx.
Proof.
  eexists.
  assert (HumanChatBotDataset.from_raw_data sample_records = Ok _) as H
    by (by vm_compute).
  destruct (lazy_agrees_with_store sample_records _ H) as (lazy & Hl).
  { intros r Hr. by apply sample_records_embedded. }
  exists lazy. split; [exact H|exact Hl].
Defined.

Lemma image_getitem_outcome_witness :
  ∃ store ids,
    HumanChatBotDataset.__post_init__ sample_frame = Ok store
    ∧ ImageByCrossMultiplicationDataset.__post_init__ store true true
      = Ok ids
    ∧ ImageByCrossMultiplicationDataset.getitem_int ids (-1)
      = ('(embedding, label) ← HumanChatBotDataset.getitem_int store (-1);
         if true && bool_decide (-1 < 0)%Z
         then Raise (KeyError (IntKey (-1)))
         else image ←
                ImageByCrossMultiplicationDataset.project true embedding;
              Ok (image, label)).
Proof.
  eexists _, _. split; [by vm_compute|].
  refine (let H := _ in
          conj H (image_getitem_outcome _ true true _ (-1) H)).
  by vm_compute.
Defined.

Lemma image_dimensions_as_declared_witness :
  ∃ store ids image label,
    HumanChatBotDataset.__post_init__ sample_frame = Ok store
    ∧ ImageByCrossMultiplicationDataset.__post_init__ store false false
      = Ok ids
    ∧ ImageByCrossMultiplicationDataset.__getitem__ ids 0
      = Ok (image, label)
    ∧ ImageByCrossMultiplicationDataset.image_height ids = 2
    ∧ ImageByCrossMultiplicationDataset.image_width ids = 2
    ∧ square 2 image.
Proof.
  eexists _, _, _, _.
  assert (HumanChatBotDataset.__post_init__ sample_frame = Ok _) as H0
    by (by vm_compute).
  split; [exact H0|].
  match type of H0 with
  | _ = Ok ?store =>
      assert (ImageByCrossMultiplicationDataset.__post_init__ store false
                false = Ok _) as H1 by (by vm_compute)
  end.
  match type of H1 with
  | _ = Ok ?ids =>
      assert (ImageByCrossMultiplicationDataset.__getitem__ ids 0
              = Ok (_, _)) as H2 by (by vm_compute)
  end.
  split; [exact H1|]. split; [exact H2|].
  destruct (image_dimensions_as_declared _ false false _ 0 _ _ H1 H2)
    as (_ & _ & _ & Hh & Hw & Hsq).
  split; [exact Hh|]. split; [exact Hw|exact Hsq].
Defined.

Lemma projection_attains_its_bounds_witness :
  ∃ image,
    get_embedding_as_image_tensor [F32.one; F32.zero; F32.c255] = Ok image
    ∧ entry image 2 2 = Some F32.c255
    ∧ ∃ s, entry image 1 0 = Some (S754_zero s).
Proof.
  destruct (projection_attains_its_bounds [F32.one; F32.zero; F32.c255]
              F32.zero F32.c255)
    as (image & Himg & Hhi & Hlo & _);
    [repeat constructor|reflexivity..|].
  exists image. split; [exact Himg|]. split.
  - by apply (Hhi 2 F32.c255).
  - apply (Hlo 1 0 F32.zero); [done|done|simpl; lia].
Defined.

Lemma non_finite_entry_poisons_the_image_witness :
  ∃ image,
    get_embedding_as_image_tensor [F32.one; S754_infinity false] = Ok image
    ∧ entry image 1 1 = Some S754_nan
    ∧ ¬ Forall (Forall (λ y, in_0_255 y = true)) image.
Proof.
  destruct (non_finite_entry_poisons_the_image
              [F32.one; S754_infinity false] 1 (S754_infinity false)
              eq_refl eq_refl) as (image & Himg & Hnan & Hout & _).
  by exists image.
Defined.

Lemma correct_is_diagonal_of_breakdown_witness :
  ∃ correct total_items accuracy make_up s',
    compute_accuracy
      {| dataset := sample_dataset; batch_size := 2; shuffle := true |}
      sample_state
    = (Ok (correct, total_items, accuracy, make_up), s')
    ∧ correct = make_up_diagonal make_up
    ∧ correct ≤ total_items
    ∧ 0 < total_items
    ∧ int_truediv correct total_items = Ok accuracy.
Proof.
  eexists _, _, _, _, _.
  refine (let H := _ in
          conj H (correct_is_diagonal_of_breakdown _ _ _ _ _ _ _ H)).
  by vm_compute.
Defined.

Lemma evaluation_of_empty_split_divides_by_zero_witness :
  let test_loader : DataLoader Tensor1 :=
    {| dataset := []; batch_size := 32; shuffle := false |} in
  (compute_loss test_loader sample_state).1 = Raise ZeroDivisionError
  ∧ same_model sample_state (compute_loss test_loader sample_state).2
  ∧ (compute_accuracy test_loader sample_state).1 = Raise ZeroDivisionError
  ∧ same_model sample_state (compute_accuracy test_loader sample_state).2.
Proof.
  intros test_loader.
  apply (evaluation_of_empty_split_divides_by_zero test_loader sample_state);
    reflexivity.
Defined.

Lemma failed_validation_leaves_a_prefix_witness :
  ∃ e s' l1 a1,
    validate_after_epoch 0
      {| dataset := sample_dataset; batch_size := 32; shuffle := true |}
      {| dataset := []; batch_size := 32; shuffle := false |}
      sample_state = (Raise e, s')
    ∧ exp_result s'
      = append_training_accuracy a1
          (append_training_loss l1 (exp_result sample_state))
    ∧ ¬ aligned 1 (exp_result s')
    ∧ ¬ aligned 0 (exp_result s').
Proof.
  eexists _, _, _, _.
  assert (validate_after_epoch 0
            {| dataset := sample_dataset; batch_size := 32; shuffle := true |}
            {| dataset := []; batch_size := 32; shuffle := false |}
            sample_state = (Raise _, _)) as H by (by vm_compute).
  destruct (failed_validation_leaves_a_prefix 0 _ _ _ _ _ 0 H)
    as (_ & Hnot & Hiff); [by repeat split|].
  split; [exact H|]. split; [by vm_compute|]. split; [exact Hnot|].
  intros Hal. by apply Hiff in Hal.
Defined.

Lemma run_training_returns_its_record_witness :
  ∃ r s',
    run_training sample_dataset sample_dataset 3 sample_state = (Ok r, s')
    ∧ exp_result s' = r
    ∧ metadata r = (F64.zero, 32, "SGD", "CrossEntropyLoss", 3)
    ∧ training s' = true.
Proof.
  eexists _, _.
  assert (run_training sample_dataset sample_dataset 3 sample_state
          = (Ok _, _)) as H by (by vm_compute).
  destruct (run_training_returns_its_record _ _ _ _ _ _ H)
    as (Hr & Hm & Ht & _).
  split; [exact H|]. split; [exact Hr|]. split; [exact Hm|].
  exact (proj1 (Ht (Nat.lt_0_succ 2))).
Defined.

Lemma convert_and_save_uses_created_directories_witness :
  ∃ labels store calls,
    get_column sample_frame "label" = Some (Int64 labels)
    ∧ HumanChatBotDataset.__post_init__ sample_frame = Ok store
    ∧ convert_and_save store "out" [] = (Ok (), calls)
    ∧ take 2 calls = [Makedirs "out/0"; Makedirs "out/1"]
    ∧ length calls = 6.
Proof.
  eexists _, _, _.
  assert (get_column sample_frame "label" = Some (Int64 _)) as H0
    by (by vm_compute).
  assert (HumanChatBotDataset.__post_init__ sample_frame = Ok _) as H1
    by (by vm_compute).
  match type of H1 with
  | _ = Ok ?store =>
      assert (convert_and_save store "out" [] = (Ok (), _)) as H2
        by (by vm_compute)
  end.
  destruct (convert_and_save_uses_created_directories _ _ _ _ _ _ H0 H1 H2)
    as (saves & Hcalls & _ & Hlen & _).
  split; [exact H0|]. split; [exact H1|]. split; [exact H2|]. split; [by vm_compute|].
  by vm_compute.
Defined.

End more_samples.
